(** * PortfolioManagement: panel store, weight solvers and the rebalancing loop

    A shallow embedding of [PortfolioManagement/stockdata.py] and
    [PortfolioManagement/portfolio.py].

    Numbers.  The program computes on binary64 floats held in numpy arrays and
    pandas frames.  They are embedded as exact rationals extended with the
    three special values the program can produce and that pandas treats
    specially: [+inf], [-inf] and [NaN].  Arithmetic on finite values is
    exact; rounding, overflow and the sign of zero are not modelled.  The
    special values follow IEEE 754: [0/0], [inf - inf] and [0 * inf] are
    [NaN], and a non-zero finite value divided by zero is an infinity.

    Library calls.  [pandas.pivot], label indexing with [.loc], [Series.sum],
    [DataFrame.mean], [DataFrame.cov] and [numpy.std] are modelled by their
    documented behaviour.  [numpy.sqrt], [numpy.linalg.solve] and
    [scipy.optimize.minimize] are parameters of the solvers. *)

From Stdlib Require Import ZArith QArith Qabs List Bool Lia Lqa Sorted.
Import ListNotations.

Set Implicit Arguments.

(** ** Floating-point values *)

Inductive num : Type :=
| Fin (q : Q)
| PInf
| NInf
| NaN.

Declare Scope num_scope.
Delimit Scope num_scope with num.
Bind Scope num_scope with num.

Definition nzero : num := Fin 0.
Definition n_one : num := Fin 1.

Definition isnan (x : num) : bool :=
  match x with NaN => true | _ => false end.

Definition is_fin (x : num) : bool :=
  match x with Fin _ => true | _ => false end.

(** -1, 0 or 1 for a rational. *)
Definition qsgn (q : Q) : Z := Z.sgn (Qnum q).

(** The infinity of a given sign; sign 0 gives [NaN]. *)
Definition inf_of_sign (s : Z) : num :=
  match s with
  | Z0 => NaN
  | Zpos _ => PInf
  | Zneg _ => NInf
  end.

Definition nopp (x : num) : num :=
  match x with
  | Fin q => Fin (- q)
  | PInf => NInf
  | NInf => PInf
  | NaN => NaN
  end.

Definition nabs (x : num) : num :=
  match x with
  | Fin q => Fin (Qabs q)
  | PInf | NInf => PInf
  | NaN => NaN
  end.

Definition nadd (x y : num) : num :=
  match x, y with
  | NaN, _ | _, NaN => NaN
  | Fin a, Fin b => Fin (a + b)
  | PInf, NInf | NInf, PInf => NaN
  | PInf, _ | _, PInf => PInf
  | NInf, _ | _, NInf => NInf
  end.

Definition nsub (x y : num) : num := nadd x (nopp y).

(** Sign of a value: infinities count as their sign. *)
Definition nsgn (x : num) : Z :=
  match x with
  | Fin q => qsgn q
  | PInf => 1
  | NInf => (-1)
  | NaN => 0
  end.

Definition nmul (x y : num) : num :=
  match x, y with
  | NaN, _ | _, NaN => NaN
  | Fin a, Fin b => Fin (a * b)
  | _, _ => inf_of_sign (nsgn x * nsgn y)
  end.

Definition ndiv (x y : num) : num :=
  match x, y with
  | NaN, _ | _, NaN => NaN
  | Fin a, Fin b =>
      if Qeq_bool b 0 then inf_of_sign (qsgn a) else Fin (a / b)
  | Fin _, _ => Fin 0
  | _, Fin b => inf_of_sign (nsgn x * (if Qeq_bool b 0 then 1 else qsgn b))
  | _, _ => NaN
  end.

Infix "+" := nadd : num_scope.
Infix "-" := nsub : num_scope.
Infix "*" := nmul : num_scope.
Infix "/" := ndiv : num_scope.
Notation "- x" := (nopp x) : num_scope.

(** Equality of values: rationals up to [Qeq], the special values up to
    identity.  ([NaN] is related to itself here: this is equality of the
    stored value, not the IEEE comparison.) *)
Definition num_eq (x y : num) : Prop :=
  match x, y with
  | Fin a, Fin b => a == b
  | PInf, PInf | NInf, NInf | NaN, NaN => True
  | _, _ => False
  end.

Definition num_eqb (x y : num) : bool :=
  match x, y with
  | Fin a, Fin b => Qeq_bool a b
  | PInf, PInf | NInf, NInf | NaN, NaN => true
  | _, _ => false
  end.

Infix "=~" := num_eq (at level 70, no associativity) : num_scope.

(** The IEEE order [x <= y] and [x < y]: false as soon as one side is NaN. *)
Definition num_le (x y : num) : Prop :=
  match x, y with
  | NaN, _ | _, NaN => False
  | NInf, _ | _, PInf => True
  | Fin a, Fin b => a <= b
  | _, _ => False
  end.

Definition num_lt (x y : num) : Prop :=
  match x, y with
  | NaN, _ | _, NaN => False
  | Fin a, Fin b => a < b
  | NInf, NInf | PInf, PInf => False
  | NInf, _ | _, PInf => True
  | _, _ => False
  end.

(** ** Exceptions *)

Inductive exn : Type :=
| IndexError
| KeyError
| ValueError
| LinAlgError.

Inductive res (A : Type) : Type :=
| Ok (a : A)
| Raise (e : exn).

Arguments Ok {A} a.
Arguments Raise {A} e.

Definition bind {A B : Type} (m : res A) (k : A -> res B) : res B :=
  match m with
  | Ok a => k a
  | Raise e => Raise e
  end.

Notation "x <- m ;; k" := (bind m (fun x => k))
  (at level 61, m at next level, right associativity).

(** ** Vectors: numpy arrays and pandas rows *)

Definition vec : Type := list num.

Definition of_nat (n : nat) : num := Fin (inject_Z (Z.of_nat n)).

(** [numpy.sum] of an array: NaN propagates. *)
Definition nsum (v : vec) : num := fold_left nadd v nzero.

(** [Series.sum()], with pandas' default [skipna=True]: NaN entries are
    dropped, and the sum of no entries is 0. *)
Definition notnan (x : num) : bool := negb (isnan x).
Definition dropna (v : vec) : vec := filter notnan v.
Definition psum (v : vec) : num := nsum (dropna v).

(** Elementwise operation on two rows of one frame (same labels). *)
Fixpoint map2 (f : num -> num -> num) (u v : vec) : vec :=
  match u, v with
  | a :: u', b :: v' => f a b :: map2 f u' v'
  | _, _ => []
  end.

(** Elementwise operation of an array with a row: the shapes must agree. *)
Definition zip_check (f : num -> num -> num) (u v : vec) : res vec :=
  if (length u =? length v)%nat then Ok (map2 f u v) else Raise ValueError.

(** [u @ v] for two one-dimensional arrays. *)
Definition dot (u v : vec) : num := nsum (map2 nmul u v).

Definition ones_like (v : vec) : vec := map (fun _ => n_one) v.

(** ** Python list indexing *)

(** [l[i]]: negative indices count from the end, out of range raises. *)
Definition py_index {A : Type} (l : list A) (i : Z) : res A :=
  let n := Z.of_nat (length l) in
  let j := if (i <? 0)%Z then (n + i)%Z else i in
  if ((0 <=? j) && (j <? n))%Z%bool then
    match nth_error l (Z.to_nat j) with
    | Some a => Ok a
    | None => Raise IndexError
    end
  else Raise IndexError.

Fixpoint enumerate_from {A : Type} (k : nat) (l : list A) : list (nat * A) :=
  match l with
  | [] => []
  | a :: l' => (k, a) :: enumerate_from (S k) l'
  end.

Definition enumerate {A : Type} (l : list A) : list (nat * A) :=
  enumerate_from 0 l.

(** A [for] loop whose body may raise. *)
Fixpoint for_each {S A : Type} (body : S -> A -> res S) (l : list A) (s : S)
  : res S :=
  match l with
  | [] => Ok s
  | a :: l' => s' <- body s a ;; for_each body l' s'
  end.

(** Replace the element at a position (nothing happens out of range; the
    callers obtain the position from a label lookup, so it is in range). *)
Fixpoint set_nth {A : Type} (n : nat) (a : A) (l : list A) : list A :=
  match l, n with
  | [], _ => []
  | _ :: l', O => a :: l'
  | b :: l', S n' => b :: set_nth n' a l'
  end.

(** ** Frames *)

(** A frame indexed by dates (rows) and asset ids (columns). *)
Record DataFrame : Type := mkDataFrame {
  index : list Z;
  columns : list Z;
  values : list vec
}.

(** The single-column frame [pf_ret], with column "pf_value". *)
Record ReturnFrame : Type := mkReturnFrame {
  rf_index : list Z;
  pf_value : list num
}.

(** [Index.get_loc(label)] on an index without repeated labels. *)
Fixpoint find_pos (l : list Z) (label : Z) : option nat :=
  match l with
  | [] => None
  | z :: l' => if (z =? label)%Z then Some O
               else option_map S (find_pos l' label)
  end.

Definition get_loc (idx : list Z) (label : Z) : res nat :=
  match find_pos idx label with
  | Some p => Ok p
  | None => Raise KeyError
  end.

(** [df.loc[label]]: the row with that label. *)
Definition loc (df : DataFrame) (label : Z) : res vec :=
  p <- get_loc (index df) label ;;
  match nth_error (values df) p with
  | Some r => Ok r
  | None => Raise KeyError
  end.

(** [df.loc[:label]]: the rows up to and including the one labelled
    [label]. *)
Definition loc_until (df : DataFrame) (label : Z) : res DataFrame :=
  p <- get_loc (index df) label ;;
  Ok (mkDataFrame (firstn (S p) (index df)) (columns df)
                  (firstn (S p) (values df))).

(** [df.loc[label] = row]. *)
Definition loc_set (df : DataFrame) (label : Z) (row : vec) : res DataFrame :=
  p <- get_loc (index df) label ;;
  if (length row =? length (columns df))%nat
  then Ok (mkDataFrame (index df) (columns df) (set_nth p row (values df)))
  else Raise ValueError.

(** [pf_ret.loc[label, "pf_value"]] and its assignment. *)
Definition rf_loc (rf : ReturnFrame) (label : Z) : res num :=
  p <- get_loc (rf_index rf) label ;;
  match nth_error (pf_value rf) p with
  | Some x => Ok x
  | None => Raise KeyError
  end.

Definition rf_loc_set (rf : ReturnFrame) (label : Z) (x : num)
  : res ReturnFrame :=
  p <- get_loc (rf_index rf) label ;;
  Ok (mkReturnFrame (rf_index rf) (set_nth p x (pf_value rf))).

(** [df1 * df2] for two frames with the same labels. *)
Fixpoint map2_rows (f : num -> num -> num) (a b : list vec) : list vec :=
  match a, b with
  | r :: a', s :: b' => map2 f r s :: map2_rows f a' b'
  | _, _ => []
  end.

Definition df_mul (a b : DataFrame) : DataFrame :=
  mkDataFrame (index a) (columns a) (map2_rows nmul (values a) (values b)).

(** The columns of a frame, each as the vector of its values down the
    rows. *)
Definition column (rows : list vec) (j : nat) : vec :=
  map (fun r => nth j r NaN) rows.

Definition column_vectors (df : DataFrame) : list vec :=
  map (column (values df)) (seq 0 (length (columns df))).

(** ** [pandas.pivot] *)

(** One record of the long-format input (one line of the CSV file). *)
Record record : Type := mkRecord {
  rec_date : Z;
  rec_permno : Z;
  rec_ret : num;
  rec_prc : num;
  rec_shrout : num
}.

Fixpoint insert_uniq (z : Z) (l : list Z) : list Z :=
  match l with
  | [] => [z]
  | y :: l' =>
      if (z <? y)%Z then z :: l
      else if (z =? y)%Z then l
      else y :: insert_uniq z l'
  end.

(** The sorted distinct labels of a column. *)
Definition sort_uniq (l : list Z) : list Z :=
  fold_right insert_uniq [] l.

Definition same_key (d p : Z) (r : record) : bool :=
  ((rec_date r =? d) && (rec_permno r =? p))%Z.

(** Is some (date, permno) pair present twice? *)
Fixpoint has_duplicate_key (data : list record) : bool :=
  match data with
  | [] => false
  | r :: data' =>
      existsb (same_key (rec_date r) (rec_permno r)) data'
      || has_duplicate_key data'
  end.

(** The cell of the pivoted frame: the value of the record with that key,
    NaN when there is none. *)
Definition cell (value : record -> num) (data : list record) (d p : Z) : num :=
  match find (same_key d p) data with
  | Some r => value r
  | None => NaN
  end.

(** [pd.pivot(data, values=value, index="date", columns="permno")]:
    rows are the sorted distinct dates, columns the sorted distinct asset
    ids; a key present twice raises [ValueError], an absent key gives NaN. *)
Definition pivot (data : list record) (value : record -> num) : res DataFrame :=
  if has_duplicate_key data then Raise ValueError
  else
    let idx := sort_uniq (map rec_date data) in
    let cols := sort_uniq (map rec_permno data) in
    Ok (mkDataFrame idx cols
          (map (fun d => map (fun p => cell value data d p) cols) idx)).

(** ** [class StockData] *)

Record StockData : Type := mkStockData {
  data : list record;
  ret : DataFrame;
  prc : DataFrame;
  shrout : DataFrame;
  mktcap : DataFrame;
  date_index : list Z
}.

(** [get_datetime_index]: [self.ret.index.copy().tolist()]. *)
Definition get_datetime_index (self_ret : DataFrame) : list Z :=
  index self_ret.

(** [StockData.__init__]. *)
Definition StockData_init (data : list record) : res StockData :=
  ret <- pivot data rec_ret ;;
  prc <- pivot data rec_prc ;;
  shrout <- pivot data rec_shrout ;;
  let mktcap := df_mul ret shrout in
  Ok (mkStockData data ret prc shrout mktcap (get_datetime_index ret)).

(** [get_ret_til]: [self.ret.loc[:self.date_index[when]]]. *)
Definition get_ret_til (self : StockData) (when : Z) : res DataFrame :=
  label <- py_index (date_index self) when ;;
  loc_until (ret self) label.

(** [gen_weight_zeros]: a frame of zeros shaped like [self.ret]. *)
Definition gen_weight_zeros (self : StockData) : DataFrame :=
  mkDataFrame (index (ret self)) (columns (ret self))
    (map (fun r => map (fun _ => nzero) r) (values (ret self))).

(** [gen_return_zeros]: one zero per row of [self.ret]. *)
Definition gen_return_zeros (self : StockData) : ReturnFrame :=
  mkReturnFrame (index (ret self))
    (repeat nzero (length (values (ret self)))).

(** The state of the loop of [rebalance]. *)
Record tables : Type := mkTables {
  df_weight : DataFrame;
  pf_ret : ReturnFrame
}.

(** The quantities computed in the [else] branch of the loop, from the
    target weight, the return row and the stored weight row of the step
    before, and the return row of the step. *)
Definition drift (ret_prev weight_prev : vec) : vec :=
  let current_weight := map2 nmul (map (nadd n_one) ret_prev) weight_prev in
  map (fun x => ndiv x (psum current_weight)) current_weight.

(** One iteration of the loop of [rebalance], at position [cnt] with
    label [idx]. *)
Definition rebalance_body (self : StockData)
    (portfolio_function : Z -> res vec) (start : Z) (transaction_cost : num)
    (st : tables) (it : nat * Z) : res tables :=
  let '(cnt, idx) := it in
  if (cnt =? 0)%nat then Ok st
  else if (idx <? start)%Z then Ok st
  else
    let prev := (Z.of_nat cnt - 1)%Z in
    target_weight <- portfolio_function prev ;;
    label_prev <- py_index (date_index self) prev ;;
    ret_prev <- loc (ret self) label_prev ;;
    weight_prev <- loc (df_weight st) label_prev ;;
    let current_weight := drift ret_prev weight_prev in
    difference <- zip_check nsub target_weight current_weight ;;
    let weight_difference := map nabs difference in
    label <- py_index (date_index self) (Z.of_nat cnt) ;;
    df_weight' <- loc_set (df_weight st) label target_weight ;;
    ret_now <- loc (ret self) label ;;
    weight_now <- loc df_weight' label ;;
    pf_ret' <- rf_loc_set (pf_ret st) label (psum (map2 nmul ret_now weight_now)) ;;
    value <- rf_loc pf_ret' label ;;
    pf_ret'' <- rf_loc_set pf_ret' label
                  (nsub value (nmul (psum weight_difference) transaction_cost)) ;;
    Ok (mkTables df_weight' pf_ret'').

(** The loop of [rebalance]: the weight table and the return table when
    the loop ends. *)
Definition rebalance_tables (self : StockData)
    (portfolio_function : Z -> res vec) (start : Z) (transaction_cost : num)
  : res tables :=
  for_each (rebalance_body self portfolio_function start transaction_cost)
    (enumerate (index (ret self)))
    (mkTables (gen_weight_zeros self) (gen_return_zeros self)).

(** [pf_ret[start_condition]]: the rows selected by a boolean mask. *)
Fixpoint mask_rows (mask : list bool) (idx : list Z) (vals : list num)
  : list (Z * num) :=
  match mask, idx, vals with
  | b :: mask', d :: idx', x :: vals' =>
      if b then (d, x) :: mask_rows mask' idx' vals'
      else mask_rows mask' idx' vals'
  | _, _, _ => []
  end.

(** [rebalance]. *)
Definition rebalance (self : StockData)
    (portfolio_function : Z -> res vec) (start : Z) (transaction_cost : num)
  : res (list (Z * num)) :=
  let start_condition := map (fun d => (start <? d)%Z) (index (ret self)) in
  st <- rebalance_tables self portfolio_function start transaction_cost ;;
  Ok (mask_rows start_condition (rf_index (pf_ret st)) (pf_value (pf_ret st))).

(** ** Window statistics *)

(** [DataFrame.mean(axis=0)] on one column: the mean of the non-NaN
    entries (NaN when there are none). *)
Definition column_mean (c : vec) : num :=
  ndiv (psum c) (of_nat (length (dropna c))).

(** The rows on which both columns are present. *)
Fixpoint pairwise_complete (c1 c2 : vec) : list (num * num) :=
  match c1, c2 with
  | a :: c1', b :: c2' =>
      if notnan a && notnan b then (a, b) :: pairwise_complete c1' c2'
      else pairwise_complete c1' c2'
  | _, _ => []
  end.

(** One entry of [DataFrame.cov()]: the covariance of two columns over
    their pairwise-complete rows, normalised by the number of rows minus
    one. *)
Definition column_cov (c1 c2 : vec) : num :=
  let ps := pairwise_complete c1 c2 in
  let xs := map fst ps in
  let ys := map snd ps in
  let nobs := length ps in
  if (nobs =? 0)%nat then NaN
  else
    let mx := ndiv (nsum xs) (of_nat nobs) in
    let my := ndiv (nsum ys) (of_nat nobs) in
    ndiv (nsum (map (fun p => nmul (nsub (fst p) mx) (nsub (snd p) my)) ps))
         (nsub (of_nat nobs) n_one).

(** [ret_window.cov().values]. *)
Definition cov (df : DataFrame) : list vec :=
  let cs := column_vectors df in
  map (fun ci => map (fun cj => column_cov ci cj) cs) cs.

(** [ret_window.mean(axis=0).values]. *)
Definition mean (df : DataFrame) : vec :=
  map column_mean (column_vectors df).

(** The variance [numpy.std] takes the root of.  On a frame [numpy.std]
    hands over to [DataFrame.std] with numpy's own default [ddof=0]: the
    squared deviations of the non-NaN entries are divided by their number. *)
Definition column_var0 (c : vec) : num :=
  let xs := dropna c in
  let avg := ndiv (nsum xs) (of_nat (length xs)) in
  ndiv (nsum (map (fun x => nmul (nsub avg x) (nsub avg x)) xs))
       (of_nat (length xs)).

(** [w @ C] for a vector and a matrix given by its rows. *)
Definition vec_mat (w : vec) (C : list vec) : vec :=
  match C with
  | [] => []
  | r :: _ => map (fun j => dot w (column C j)) (seq 0 (length r))
  end.

(** [C @ w]. *)
Definition mat_vec (C : list vec) (w : vec) : vec :=
  map (fun r => dot r w) C.

(** ** [scipy.optimize.minimize] *)

Inductive constraint_type : Type := eq_constraint | ineq_constraint.

Record constraint : Type := mkConstraint {
  ctype : constraint_type;
  cfun : vec -> num
}.

(** The fields of [OptimizeResult] the callers can read. *)
Record OptimizeResult : Type := mkOptimizeResult {
  x : vec;
  success : bool;
  status : Z;
  nit : Z
}.

(** ** [class Portfolio] *)

Section Portfolio.

(** [numpy.sqrt]. *)
Variable np_sqrt : num -> num.

(** [numpy.linalg.solve a b]; raises [LinAlgError] on a singular
    matrix. *)
Variable linalg_solve : list vec -> vec -> res vec.

(** [scipy.optimize.minimize fun x0 constraints bounds maxiter]: the
    objective, the initial guess, the constraints, the lower bounds when
    given, and the iteration cap. *)
Variable minimize :
  (vec -> num) -> vec -> list constraint -> option vec -> Z -> OptimizeResult.

(** [numpy.std(ret_window, axis=0)]. *)
Definition np_std (df : DataFrame) : vec :=
  map (fun c => np_sqrt (column_var0 c)) (column_vectors df).

(** [value_weight]. *)
Definition value_weight (self : StockData) (when : Z) : res vec :=
  label <- py_index (date_index self) when ;;
  caps <- loc (mktcap self) label ;;
  Ok (map (fun c => ndiv c (psum caps)) caps).

(** [equal_weight]. *)
Definition equal_weight (self : StockData) (when : Z) : res vec :=
  label <- py_index (date_index self) when ;;
  row <- loc (ret self) label ;;
  Ok (map (fun o => ndiv o (of_nat (length (columns (ret self)))))
          (ones_like row)).

(** The objective of [mean_variance] and of
    [mean_variance_short_constraint]:
    [-(w @ mu) / np.sqrt(w.T @ C @ w)]. *)
Definition fobj (w mu : vec) (C : list vec) : num :=
  ndiv (nopp (dot w mu)) (np_sqrt (dot (vec_mat w C) w)).

(** [fcon_budget]: [w.sum() - 1]. *)
Definition fcon_budget (w : vec) : num := nsub (nsum w) n_one.

Definition cons : list constraint := [mkConstraint eq_constraint fcon_budget].

(** [w0 = e / len(e)]. *)
Definition initial_guess (e : vec) : vec :=
  map (fun o => ndiv o (of_nat (length e))) e.

Definition maxiter : Z := 5000.

(** [mean_variance]. *)
Definition mean_variance (self : StockData) (when : Z) : res vec :=
  ret_window <- get_ret_til self when ;;
  let returns := mean ret_window in
  let covariance := cov ret_window in
  let e := ones_like returns in
  let w0 := initial_guess e in
  let res := minimize (fun w => fobj w returns covariance) w0 cons None
               maxiter in
  let weight := x res in
  Ok weight.

(** [mean_variance_short_constraint]. *)
Definition mean_variance_short_constraint (self : StockData) (when : Z)
  : res vec :=
  ret_window <- get_ret_til self when ;;
  let returns := mean ret_window in
  let covariance := cov ret_window in
  let e := ones_like returns in
  let w0 := initial_guess e in
  let bounds := map (nmul nzero) e in
  let res := minimize (fun w => fobj w returns covariance) w0 cons
               (Some bounds) maxiter in
  let weight := x res in
  Ok weight.

(** [min_var]. *)
Definition min_var (self : StockData) (when : Z) : res vec :=
  ret_window <- get_ret_til self when ;;
  let returns := mean ret_window in
  let covariance := cov ret_window in
  let e := ones_like returns in
  weight <- linalg_solve covariance e ;;
  let weight := map (fun wi => ndiv wi (nsum weight)) weight in
  Ok weight.

(** The objective of [robust_optimization]:
    [-(w @ mu - np.abs(w) @ np.std(ret_window, axis=0))
      / np.sqrt(w.T @ C @ w)]. *)
Definition fobj_robust (ret_window : DataFrame) (w mu : vec) (C : list vec)
  : num :=
  ndiv (nopp (nsub (dot w mu) (dot (map nabs w) (np_std ret_window))))
       (np_sqrt (dot (vec_mat w C) w)).

(** [robust_optimization]. *)
Definition robust_optimization (self : StockData) (when : Z) : res vec :=
  ret_window <- get_ret_til self when ;;
  let returns := mean ret_window in
  let covariance := cov ret_window in
  let e := ones_like returns in
  let w0 := initial_guess e in
  let res := minimize (fun w => fobj_robust ret_window w returns covariance)
               w0 cons None maxiter in
  let weight := x res in
  Ok weight.

End Portfolio.

(** ** Frame invariants and closed forms of the loop *)

(** What the constructor guarantees about the return panel: distinct row
    labels, [date_index] listing them, and a full rectangle of cells. *)
Definition well_formed (s : StockData) : Prop :=
  NoDup (index (ret s))
  /\ date_index s = index (ret s)
  /\ length (values (ret s)) = length (index (ret s))
  /\ Forall (fun r => length r = length (columns (ret s))) (values (ret s)).

(** The label and the return row at a position. *)
Definition label_at (s : StockData) (t : nat) : Z := nth t (index (ret s)) 0%Z.
Definition row_at (s : StockData) (t : nat) : vec := nth t (values (ret s)) [].

(** The steps at which the loop of [rebalance] reaches its [else] branch. *)
Definition active (s : StockData) (start : Z) (t : nat) : bool :=
  negb (t =? 0)%nat && negb (label_at s t <? start)%Z.

(** The solver's answer for step [t], asked with cursor [t - 1]. *)
Definition target_at (portfolio_function : Z -> res vec) (t : nat) : vec :=
  match portfolio_function (Z.of_nat t - 1)%Z with
  | Ok w => w
  | Raise _ => []
  end.

(** The weight row of step [t] when the loop ends. *)
Definition stored_weight (s : StockData) (portfolio_function : Z -> res vec)
    (start : Z) (t : nat) : vec :=
  if active s start t then target_at portfolio_function t
  else map (fun _ => nzero) (row_at s t).

(** The drifted weight, the turnover and the weighted return of step [t]. *)
Definition current_weight_at (s : StockData)
    (portfolio_function : Z -> res vec) (start : Z) (t : nat) : vec :=
  drift (row_at s (t - 1)) (stored_weight s portfolio_function start (t - 1)).

Definition turnover_at (s : StockData) (portfolio_function : Z -> res vec)
    (start : Z) (t : nat) : num :=
  psum (map nabs (map2 nsub (target_at portfolio_function t)
                       (current_weight_at s portfolio_function start t))).

Definition gross_at (s : StockData) (portfolio_function : Z -> res vec)
    (t : nat) : num :=
  psum (map2 nmul (row_at s t) (target_at portfolio_function t)).

(** The entry of [pf_ret] for step [t] when the loop ends. *)
Definition step_return (s : StockData) (portfolio_function : Z -> res vec)
    (start : Z) (transaction_cost : num) (t : nat) : num :=
  if active s start t
  then nsub (gross_at s portfolio_function t)
            (nmul (turnover_at s portfolio_function start t) transaction_cost)
  else nzero.

(** The solver answers, with one weight per asset, at every step where the
    loop asks it. *)
Definition solver_ready (s : StockData) (portfolio_function : Z -> res vec)
    (start : Z) : Prop :=
  forall t, (t < length (index (ret s)))%nat -> active s start t = true ->
    exists w, portfolio_function (Z.of_nat t - 1)%Z = Ok w
              /\ length w = length (columns (ret s)).

(** The tables after the first [k] iterations of the loop: the rows of
    the steps already visited, then the zeros the tables start with. *)
Definition weight_rows (s : StockData) (portfolio_function : Z -> res vec)
    (start : Z) (k : nat) : list vec :=
  map (stored_weight s portfolio_function start) (seq 0 k)
  ++ map (fun r => map (fun _ => nzero) r) (skipn k (values (ret s))).

Definition return_rows (s : StockData) (portfolio_function : Z -> res vec)
    (start : Z) (transaction_cost : num) (k : nat) : list num :=
  map (step_return s portfolio_function start transaction_cost) (seq 0 k)
  ++ repeat nzero (length (values (ret s)) - k).

Definition tables_after (s : StockData) (portfolio_function : Z -> res vec)
    (start : Z) (transaction_cost : num) (k : nat) : tables :=
  mkTables
    (mkDataFrame (index (ret s)) (columns (ret s))
       (weight_rows s portfolio_function start k))
    (mkReturnFrame (index (ret s))
       (return_rows s portfolio_function start transaction_cost k)).

(** Values that are a zero or NaN: what a product with a stored zero can
    be. *)
Definition zero_or_nan (x : num) : Prop :=
  match x with
  | Fin q => q == 0
  | NaN => True
  | _ => False
  end.

(** The cumulative return of the series returned by [rebalance], in the
    two usual senses: the total of the period returns, and the growth of
    one unit held through every period. *)
Definition cumulative (out : list (Z * num)) : num := nsum (map snd out).

Definition compounded (out : list (Z * num)) : num :=
  fold_left nmul (map (fun e => nadd n_one (snd e)) out) n_one.

(** Comparing computed vectors with expected ones, entry by entry and up
    to the value of each fraction. *)
Fixpoint vec_eqb (u v : vec) : bool :=
  match u, v with
  | [], [] => true
  | a :: u', b :: v' => num_eqb a b && vec_eqb u' v'
  | _, _ => false
  end.

Definition returns_vec (m : res vec) (v : vec) : bool :=
  match m with
  | Ok w => vec_eqb w v
  | Raise _ => false
  end.

(** ** Exact arithmetic on finite vectors *)

(** The operations above on vectors whose entries are all finite, written
    on the rationals themselves. *)
Definition to_Q (x : num) : Q :=
  match x with
  | Fin q => q
  | _ => 0
  end.

Definition qsum (l : list Q) : Q := fold_left Qplus l 0.

Fixpoint qmap2 (f : Q -> Q -> Q) (u v : list Q) : list Q :=
  match u, v with
  | a :: u', b :: v' => f a b :: qmap2 f u' v'
  | _, _ => []
  end.

Definition qdot (u v : list Q) : Q := qsum (qmap2 Qmult u v).

Definition qmat_vec (C : list (list Q)) (w : list Q) : list Q :=
  map (fun r => qdot r w) C.

Definition qmean (c : list Q) : Q :=
  qsum c / inject_Z (Z.of_nat (length c)).

Definition qcov (c1 c2 : list Q) : Q :=
  qsum (map (fun p => (fst p - qmean c1) * (snd p - qmean c2))
            (combine c1 c2))
  / (inject_Z (Z.of_nat (length c1)) - 1).

Definition qcov_matrix (cols : list (list Q)) : list (list Q) :=
  map (fun ci => map (fun cj => qcov ci cj) cols) cols.

(** A column less its mean, and a combination of columns. *)
Definition center (c : list Q) : list Q := map (fun v => v - qmean c) c.

Fixpoint lincomb (n : nat) (x : list Q) (A : list (list Q)) : list Q :=
  match x, A with
  | xi :: x', a :: A' =>
      qmap2 Qplus (map (Qmult xi) a) (lincomb n x' A')
  | _, _ => repeat 0 n
  end.

(** A frame whose cells are all finite. *)
Definition all_finite (rows : list vec) : Prop :=
  Forall (Forall (fun v => is_fin v = true)) rows.

(** A matrix of finite entries that sends only the zero vector to zero. *)
Definition nonsingular (A : list vec) : Prop :=
  all_finite A
  /\ forall y : list Q,
       length y = length A ->
       Forall2 num_eq (mat_vec A (map Fin y)) (map (fun _ => nzero) A) ->
       Forall (fun a => a == 0) y.

(** What [numpy.linalg.solve a b] does for one system, in exact
    arithmetic: on a nonsingular [a] it returns the solution of
    [a x = b]. *)
Definition solves_exactly (linalg_solve : list vec -> vec -> res vec)
    (A : list vec) (b : vec) : Prop :=
  nonsingular A ->
  exists xs : list Q,
    linalg_solve A b = Ok (map Fin xs)
    /\ length xs = length b
    /\ Forall2 num_eq (mat_vec A (map Fin xs)) b.

(** A frame with one row of cells per row label and one cell per column
    label in each row. *)
Definition rectangular (df : DataFrame) : Prop :=
  length (values df) = length (index df)
  /\ Forall (fun r => length r = length (columns df)) (values df).

(** Two records of the input share their date and their asset id. *)
Definition repeated_key (data : list record) : Prop :=
  exists i j r1 r2,
    (i < j)%nat
    /\ nth_error data i = Some r1 /\ nth_error data j = Some r2
    /\ rec_date r1 = rec_date r2 /\ rec_permno r1 = rec_permno r2.

(** ** A small panel *)

(** Four months of three assets, with the returns of the worked example:
    dates 1 to 4, asset ids 1 to 3. *)
Definition demo_record (d p : Z) (r : Q) : record :=
  mkRecord d p (Fin r) (Fin 10) (Fin 100).

Definition demo_records : list record :=
  [ demo_record 1 1 0.01; demo_record 1 2 0.02; demo_record 1 3 0.00;
    demo_record 2 1 0.01; demo_record 2 2 0.01; demo_record 2 3 0.01;
    demo_record 3 1 (-0.01); demo_record 3 2 0.00; demo_record 3 3 0.02;
    demo_record 4 1 0.02; demo_record 4 2 0.02; demo_record 4 3 0.02 ].

Definition empty_frame : DataFrame := mkDataFrame [] [] [].

Definition store_of (data : list record) : StockData :=
  match StockData_init data with
  | Ok s => s
  | Raise _ =>
      mkStockData data empty_frame empty_frame empty_frame empty_frame []
  end.

Definition demo_store : StockData := Eval vm_compute in store_of demo_records.

(** Is some (date, asset) cell absent from the records? *)
Definition has_missing_cell (data : list record) : bool :=
  existsb (fun d =>
    existsb (fun p => negb (existsb (same_key d p) data))
            (map rec_permno data))
    (map rec_date data).

(** Three records over two dates and two assets: asset 2 has no record at
    date 2. *)
Definition ragged_records : list record :=
  [ demo_record 1 1 0.01; demo_record 1 2 0.02; demo_record 2 1 0.03 ].

(** ** Stand-ins for the library parameters *)

(** A square root to six decimals: the largest multiple of [10^-6] whose
    square is at most the argument; NaN below zero, as [numpy.sqrt]. *)
Definition approx_sqrt (x : num) : num :=
  match x with
  | Fin q =>
      if (Qnum q <? 0)%Z then NaN
      else Fin (Z.sqrt (Qnum q * 10 ^ 12 / Zpos (Qden q)) # 1000000)
  | PInf => PInf
  | NInf | NaN => NaN
  end.

(** Two outcomes of an optimizer run that end on the same iterate (here
    the initial guess): one stopped by the iteration cap, with
    [success = False], and one that converged. *)
Definition capped_minimize (f : vec -> num) (x0 : vec)
    (constraints : list constraint) (bounds : option vec) (cap : Z)
  : OptimizeResult :=
  mkOptimizeResult x0 false 9 cap.

Definition converged_minimize (f : vec -> num) (x0 : vec)
    (constraints : list constraint) (bounds : option vec) (cap : Z)
  : OptimizeResult :=
  mkOptimizeResult x0 true 0 1.

(** ** The robust objective as the claim words it *)

(** The sample standard deviation of each asset over the window: the root
    of its sample variance, the diagonal of the sample covariance (divisor
    one less than the number of rows). *)
Definition sample_std (np_sqrt : num -> num) (df : DataFrame) : vec :=
  map (fun c => np_sqrt (column_cov c c)) (column_vectors df).

(** [(w . mu - sum_a |w_a| sigma_a) / sqrt (w' Sigma w)] with the sample
    standard deviation for [sigma]. *)
Definition claimed_robust_objective (np_sqrt : num -> num)
    (window : DataFrame) (w : vec) : num :=
  ndiv (nsub (dot w (mean window))
             (dot (map nabs w) (sample_std np_sqrt window)))
       (np_sqrt (dot (vec_mat w (cov window)) w)).

(** The first three months of the small panel, and a weight vector. *)
Definition demo_window : DataFrame :=
  Eval vm_compute in
    match get_ret_til demo_store 2 with
    | Ok w => w
    | Raise _ => empty_frame
    end.

Definition demo_weight : vec := [Fin (1 # 2); Fin (1 # 4); Fin (1 # 4)].

(** A linear solve by elimination in exact arithmetic, for systems of
    finite numbers: a row whose leading coefficient is not zero is the
    pivot, the other rows are reduced by it, and the rest is solved first.
    [LinAlgError] when no pivot is found. *)
Fixpoint take_pivot (rows : list (list Q * Q))
  : option ((list Q * Q) * list (list Q * Q)) :=
  match rows with
  | [] => None
  | r :: rows' =>
      match fst r with
      | a :: _ =>
          if Qeq_bool a 0 then
            match take_pivot rows' with
            | Some (p, others) => Some (p, r :: others)
            | None => None
            end
          else Some (r, rows')
      | [] => None
      end
  end.

Fixpoint solve_system (n : nat) (rows : list (list Q * Q)) : option (list Q) :=
  match n with
  | O => Some []
  | S n' =>
      match take_pivot rows with
      | Some ((a :: p, pb), others) =>
          let reduce (r : list Q * Q) :=
            match fst r with
            | c :: r' =>
                (qmap2 (fun x y => Qred (x - c / a * y)) r' p,
                 Qred (snd r - c / a * pb))
            | [] => ([], snd r)
            end in
          match solve_system n' (map reduce others) with
          | Some xs' => Some (Qred ((pb - qdot p xs') / a) :: xs')
          | None => None
          end
      | _ => None
      end
  end.

Definition exact_solve (A : list vec) (b : vec) : res vec :=
  match solve_system (length b) (combine (map (map to_Q) A) (map to_Q b)) with
  | Some xs => Ok (map Fin xs)
  | None => Raise LinAlgError
  end.

(** The whole small panel as a window, and the solution of
    [Sigma x = 1] for its covariance. *)
Definition demo_panel : DataFrame :=
  Eval vm_compute in
    match get_ret_til demo_store 3 with
    | Ok w => w
    | Raise _ => empty_frame
    end.

Definition demo_solution : list Q :=
  Eval vm_compute in
    match exact_solve (cov demo_panel) (ones_like (mean demo_panel)) with
    | Ok v => map to_Q v
    | Raise _ => []
    end.

(** ** Solvers that fail *)

(** A solver that raises at every cursor, and one that gives equal weights
    at the cursors 0 and 1 of the small panel and raises afterwards. *)
Definition failing_solver (when : Z) : res vec := Raise LinAlgError.

Definition faulty_solver (when : Z) : res vec :=
  if (when <? 2)%Z then equal_weight demo_store when else Raise LinAlgError.

(** A solver that is long the first asset and short the second by the
    same amount, whatever the cursor. *)
Definition long_short_solver (when : Z) : res vec :=
  Ok [Fin 1; Fin (-1); Fin 0].

(** Equal weights on the small panel, refused outside the cursors 0 to 2. *)
Definition guarded_solver (when : Z) : res vec :=
  if ((when <? 0) || (2 <? when))%Z%bool then Raise IndexError
  else equal_weight demo_store when.

(** ** A panel with cancelling caps *)

(** Two dates of two assets whose market caps at the first date are [1]
    and [-1]. *)
Definition hedged_records : list record :=
  [ demo_record 1 1 0.01; demo_record 1 2 (-0.01);
    demo_record 2 1 0.02; demo_record 2 2 0.03 ].

Definition hedged_store : StockData :=
  Eval vm_compute in store_of hedged_records.

Definition hedged_caps : list Q :=
  Eval vm_compute in map to_Q (nth 0 (values (mktcap hedged_store)) []).

Definition demo_caps : list Q :=
  Eval vm_compute in map to_Q (nth 2 (values (mktcap demo_store)) []).

Definition ragged_store : StockData :=
  Eval vm_compute in store_of ragged_records.

(** * Properties *)

Unset Implicit Arguments.

(** ** Lists *)

Lemma set_nth_app {A : Type} (l1 l2 : list A) (a b : A) :
  set_nth (length l1) a (l1 ++ b :: l2) = l1 ++ a :: l2.
Proof.
  induction l1 as [|c l1 IH]; simpl; [reflexivity | now rewrite IH].
Qed.

Lemma length_map2 (f : num -> num -> num) (u v : vec) :
  length (map2 f u v) = Nat.min (length u) (length v).
Proof.
  revert v; induction u as [|a u IH]; intros [|b v]; simpl; auto.
Qed.

Lemma find_pos_nth_error (l : list Z) (k : nat) (d : Z) :
  NoDup l -> nth_error l k = Some d -> find_pos l d = Some k.
Proof.
  revert k; induction l as [|z l IH]; intros k Hnd Hk.
  - destruct k; discriminate.
  - inversion Hnd as [|? ? Hnotin Hnd']; subst.
    destruct k as [|k]; simpl in *.
    + injection Hk as ->. now rewrite Z.eqb_refl.
    + destruct (Z.eqb_spec z d) as [->|Hne].
      * exfalso. apply Hnotin. eapply nth_error_In; eauto.
      * now rewrite (IH k Hnd' Hk).
Qed.

Lemma get_loc_nth_error (l : list Z) (k : nat) (d : Z) :
  NoDup l -> nth_error l k = Some d -> get_loc l d = Ok k.
Proof.
  intros Hnd Hk. unfold get_loc. now rewrite (find_pos_nth_error _ _ _ Hnd Hk).
Qed.

Lemma py_index_nat {A : Type} (l : list A) (k : nat) (a : A) :
  nth_error l k = Some a -> py_index l (Z.of_nat k) = Ok a.
Proof.
  intros Hk. unfold py_index.
  assert (Hlt : (k < length l)%nat) by (apply nth_error_Some; congruence).
  destruct (Z.ltb_spec (Z.of_nat k) 0); [lia|].
  destruct (Z.leb_spec 0 (Z.of_nat k)); [|lia].
  destruct (Z.ltb_spec (Z.of_nat k) (Z.of_nat (length l))); [|lia].
  simpl. now rewrite Nat2Z.id, Hk.
Qed.

(** On a row without NaN the pandas sum is the plain sum. *)
Lemma psum_no_nan (v : vec) :
  Forall (fun a => isnan a = false) v -> psum v = nsum v.
Proof.
  intros H. unfold psum, dropna. f_equal.
  induction H as [|a v Ha Hv IH]; simpl; [reflexivity|].
  unfold notnan at 1. rewrite Ha. simpl. now f_equal.
Qed.

(** ** The sorted distinct labels built by [pivot] *)

Lemma In_insert_uniq (z y : Z) (l : list Z) :
  In y (insert_uniq z l) <-> y = z \/ In y l.
Proof.
  induction l as [|a l IH]; simpl.
  - intuition.
  - destruct (Z.ltb_spec z a); [simpl; intuition|].
    destruct (Z.eqb_spec z a); simpl; [subst; intuition|].
    rewrite IH. intuition.
Qed.

Lemma insert_uniq_sorted (z : Z) (l : list Z) :
  StronglySorted Z.lt l -> StronglySorted Z.lt (insert_uniq z l).
Proof.
  induction 1 as [|a l Hs IH Hall]; simpl.
  - repeat constructor.
  - destruct (Z.ltb_spec z a).
    + constructor; [now constructor|].
      constructor; [assumption|].
      rewrite Forall_forall in *. intros y Hy. specialize (Hall y Hy). lia.
    + destruct (Z.eqb_spec z a).
      * now constructor.
      * constructor; [assumption|].
        rewrite Forall_forall in *. intros y Hy.
        apply In_insert_uniq in Hy. destruct Hy as [->|Hy]; [lia|auto].
Qed.

Lemma sort_uniq_sorted (l : list Z) : StronglySorted Z.lt (sort_uniq l).
Proof.
  induction l; simpl; [constructor | now apply insert_uniq_sorted].
Qed.

Lemma In_sort_uniq (y : Z) (l : list Z) : In y (sort_uniq l) <-> In y l.
Proof.
  induction l as [|a l IH]; simpl; [tauto|].
  rewrite In_insert_uniq, IH. intuition.
Qed.

Lemma sorted_NoDup (l : list Z) : StronglySorted Z.lt l -> NoDup l.
Proof.
  induction 1 as [|a l Hs IH Hall]; constructor; auto.
  intros Hin. rewrite Forall_forall in Hall. specialize (Hall a Hin). lia.
Qed.

(** ** The store built by the constructor *)

Lemma pivot_Ok (data : list record) (value : record -> num) (df : DataFrame) :
  pivot data value = Ok df ->
  has_duplicate_key data = false
  /\ df = mkDataFrame (sort_uniq (map rec_date data))
            (sort_uniq (map rec_permno data))
            (map (fun d => map (fun p => cell value data d p)
                               (sort_uniq (map rec_permno data)))
                 (sort_uniq (map rec_date data))).
Proof.
  unfold pivot. destruct (has_duplicate_key data); [discriminate|].
  intros [= <-]. auto.
Qed.

Lemma StockData_init_Ok (data : list record) (s : StockData) :
  StockData_init data = Ok s ->
  has_duplicate_key data = false
  /\ pivot data rec_ret = Ok (ret s)
  /\ pivot data rec_prc = Ok (prc s)
  /\ pivot data rec_shrout = Ok (shrout s)
  /\ mktcap s = df_mul (ret s) (shrout s)
  /\ date_index s = index (ret s).
Proof.
  unfold StockData_init.
  destruct (pivot data rec_ret) as [r|] eqn:Hr; [|discriminate].
  destruct (pivot data rec_prc) as [p|] eqn:Hp; [|discriminate].
  destruct (pivot data rec_shrout) as [q|] eqn:Hq; [|discriminate].
  simpl. intros [= <-]. simpl.
  apply pivot_Ok in Hr. destruct Hr as [Hd _]. auto 10.
Qed.

Lemma StockData_init_well_formed (data : list record) (s : StockData) :
  StockData_init data = Ok s -> well_formed s.
Proof.
  intros H. apply StockData_init_Ok in H.
  destruct H as (_ & Hr & _ & _ & _ & Hdi).
  apply pivot_Ok in Hr. destruct Hr as [_ Hr].
  unfold well_formed. rewrite Hdi, Hr. simpl.
  split; [|split; [reflexivity|split]].
  - apply sorted_NoDup, sort_uniq_sorted.
  - now rewrite length_map.
  - rewrite Forall_forall. intros r Hin. apply in_map_iff in Hin.
    destruct Hin as (d & <- & _). now rewrite length_map.
Qed.

(** ** The loop of [rebalance] *)

Lemma loc_nth_error (df : DataFrame) (k : nat) (d : Z) (r : vec) :
  NoDup (index df) -> nth_error (index df) k = Some d ->
  nth_error (values df) k = Some r -> loc df d = Ok r.
Proof.
  intros Hnd Hk Hr. unfold loc.
  rewrite (get_loc_nth_error _ _ _ Hnd Hk). simpl. now rewrite Hr.
Qed.

Lemma nth_error_row_at (s : StockData) (k : nat) :
  (k < length (values (ret s)))%nat ->
  nth_error (values (ret s)) k = Some (row_at s k).
Proof. intros H. unfold row_at. now apply nth_error_nth'. Qed.

Lemma nth_error_label_at (s : StockData) (k : nat) :
  (k < length (index (ret s)))%nat ->
  nth_error (index (ret s)) k = Some (label_at s k).
Proof. intros H. unfold label_at. now apply nth_error_nth'. Qed.

Lemma length_row_at (s : StockData) (k : nat) :
  well_formed s -> (k < length (index (ret s)))%nat ->
  length (row_at s k) = length (columns (ret s)).
Proof.
  intros (_ & _ & Hlen & Hall) Hk. rewrite Forall_forall in Hall.
  apply Hall. unfold row_at. apply nth_In. lia.
Qed.

Lemma length_drift (r w : vec) :
  length (drift r w) = Nat.min (length r) (length w).
Proof. unfold drift. now rewrite length_map, length_map2, length_map. Qed.

(** One pass through the [else] branch: the row of the step in the weight
    table becomes the target weight, and the entry of the step in the
    return table becomes the weighted return less the cost of the
    turnover. *)
Lemma rebalance_body_active (s : StockData) (pf : Z -> res vec) (start : Z)
    (tc : num) (k : nat) (w wprev z : vec) (p : num)
    (WA WB : list vec) (PA PB : list num) :
  well_formed s ->
  (0 < k)%nat -> (k < length (index (ret s)))%nat ->
  (label_at s k <? start)%Z = false ->
  pf (Z.of_nat k - 1)%Z = Ok w ->
  length w = length (columns (ret s)) ->
  length WA = k -> nth_error WA (k - 1) = Some wprev ->
  length wprev = length (columns (ret s)) ->
  length PA = k ->
  rebalance_body s pf start tc
    (mkTables (mkDataFrame (index (ret s)) (columns (ret s)) (WA ++ z :: WB))
              (mkReturnFrame (index (ret s)) (PA ++ p :: PB)))
    (k, label_at s k)
  = Ok (mkTables
          (mkDataFrame (index (ret s)) (columns (ret s)) (WA ++ w :: WB))
          (mkReturnFrame (index (ret s))
             (PA ++ nsub (psum (map2 nmul (row_at s k) w))
                      (nmul (psum (map nabs (map2 nsub w
                                     (drift (row_at s (k - 1)) wprev))))
                            tc) :: PB))).
Proof.
  intros Hwf Hk0 Hkn Hstart Hpf Hlw HWA Hprev Hlprev HPA.
  pose proof Hwf as (Hnd & Hdi & Hlen & Hall).
  assert (Hk1 : (k - 1 < length (index (ret s)))%nat) by lia.
  unfold rebalance_body.
  destruct (Nat.eqb_spec k 0) as [?|_]; [lia|].
  rewrite Hstart, Hpf. cbn [bind].
  replace (Z.of_nat k - 1)%Z with (Z.of_nat (k - 1)) by lia.
  rewrite Hdi.
  rewrite (py_index_nat _ _ _ (nth_error_label_at s (k - 1) Hk1)). cbn [bind].
  rewrite (loc_nth_error (ret s) (k - 1) _ (row_at s (k - 1)) Hnd
             (nth_error_label_at s (k - 1) Hk1)
             ltac:(apply nth_error_row_at; lia)).
  cbn [bind df_weight pf_ret].
  set (dfw := mkDataFrame (index (ret s)) (columns (ret s)) (WA ++ z :: WB)).
  assert (Hlw1 : loc dfw (label_at s (k - 1)) = Ok wprev).
  { apply (loc_nth_error dfw (k - 1)); simpl; auto using nth_error_label_at.
    rewrite nth_error_app1 by lia. exact Hprev. }
  rewrite Hlw1. cbn [bind].
  unfold zip_check.
  rewrite length_drift, Hlprev, (length_row_at s (k - 1) Hwf Hk1), Hlw.
  rewrite Nat.min_id, Nat.eqb_refl. cbn [bind].
  rewrite (py_index_nat _ _ _ (nth_error_label_at s k Hkn)). cbn [bind].
  unfold loc_set. subst dfw. cbn [index columns values].
  rewrite (get_loc_nth_error _ _ _ Hnd (nth_error_label_at s k Hkn)).
  cbn [bind]. rewrite Hlw, Nat.eqb_refl. cbn [bind].
  replace (set_nth k w (WA ++ z :: WB)) with (WA ++ w :: WB)
    by (rewrite <- HWA; now rewrite set_nth_app).
  rewrite (loc_nth_error (ret s) k _ (row_at s k) Hnd
             (nth_error_label_at s k Hkn)
             ltac:(apply nth_error_row_at; lia)).
  cbn [bind].
  set (dfw := mkDataFrame (index (ret s)) (columns (ret s)) (WA ++ w :: WB)).
  assert (Hlw2 : loc dfw (label_at s k) = Ok w).
  { apply (loc_nth_error dfw k); simpl; auto using nth_error_label_at.
    rewrite nth_error_app2 by lia.
    replace (k - length WA)%nat with 0%nat by lia. reflexivity. }
  rewrite Hlw2. cbn [bind].
  unfold rf_loc_set, rf_loc. cbn [rf_index pf_value].
  rewrite (get_loc_nth_error _ _ _ Hnd (nth_error_label_at s k Hkn)).
  cbn [bind rf_index pf_value].
  match goal with
  | |- context [set_nth k ?g (PA ++ p :: PB)] =>
      replace (set_nth k g (PA ++ p :: PB)) with (PA ++ g :: PB)
        by (rewrite <- HPA; now rewrite set_nth_app)
  end.
  rewrite (get_loc_nth_error _ _ _ Hnd (nth_error_label_at s k Hkn)).
  cbn [bind rf_index pf_value].
  rewrite nth_error_app2 by lia.
  replace (k - length PA)%nat with 0%nat by lia. cbn [nth_error bind].
  match goal with
  | |- context [set_nth k ?v (PA ++ ?g :: PB)] =>
      replace (set_nth k v (PA ++ g :: PB)) with (PA ++ v :: PB)
        by (rewrite <- HPA; now rewrite set_nth_app)
  end.
  reflexivity.
Qed.

Lemma skipn_nth {A : Type} (l : list A) (k : nat) (d : A) :
  (k < length l)%nat -> skipn k l = nth k l d :: skipn (S k) l.
Proof.
  revert k; induction l as [|a l IH]; intros [|k] H; simpl in *; try lia; auto.
  apply IH; lia.
Qed.

Lemma weight_rows_at (s : StockData) (pf : Z -> res vec) (start : Z) (k : nat) :
  (k < length (values (ret s)))%nat ->
  weight_rows s pf start k
  = map (stored_weight s pf start) (seq 0 k)
    ++ map (fun _ => nzero) (row_at s k)
    :: map (fun r => map (fun _ => nzero) r) (skipn (S k) (values (ret s))).
Proof.
  intros H. unfold weight_rows.
  rewrite (skipn_nth (values (ret s)) k [] H). reflexivity.
Qed.

Lemma weight_rows_S (s : StockData) (pf : Z -> res vec) (start : Z) (k : nat) :
  weight_rows s pf start (S k)
  = map (stored_weight s pf start) (seq 0 k)
    ++ stored_weight s pf start k
    :: map (fun r => map (fun _ => nzero) r) (skipn (S k) (values (ret s))).
Proof.
  unfold weight_rows. rewrite seq_S, map_app, <- app_assoc. reflexivity.
Qed.

Lemma return_rows_at (s : StockData) (pf : Z -> res vec) (start : Z)
    (tc : num) (k : nat) :
  (k < length (values (ret s)))%nat ->
  return_rows s pf start tc k
  = map (step_return s pf start tc) (seq 0 k)
    ++ nzero :: repeat nzero (length (values (ret s)) - S k).
Proof.
  intros H. unfold return_rows.
  replace (length (values (ret s)) - k)%nat
    with (S (length (values (ret s)) - S k)) by lia.
  reflexivity.
Qed.

Lemma return_rows_S (s : StockData) (pf : Z -> res vec) (start : Z)
    (tc : num) (k : nat) :
  return_rows s pf start tc (S k)
  = map (step_return s pf start tc) (seq 0 k)
    ++ step_return s pf start tc k
    :: repeat nzero (length (values (ret s)) - S k).
Proof.
  unfold return_rows. rewrite seq_S, map_app, <- app_assoc. reflexivity.
Qed.

Lemma length_stored_weight (s : StockData) (pf : Z -> res vec) (start : Z)
    (k : nat) :
  well_formed s -> solver_ready s pf start ->
  (k < length (index (ret s)))%nat ->
  length (stored_weight s pf start k) = length (columns (ret s)).
Proof.
  intros Hwf Hready Hk. unfold stored_weight.
  destruct (active s start k) eqn:Hact.
  - destruct (Hready k Hk Hact) as (w & Hw & Hlw).
    unfold target_at. now rewrite Hw.
  - rewrite length_map. now apply length_row_at.
Qed.

(** One iteration takes the tables after [k] steps to the tables after
    [k + 1] steps. *)
Lemma rebalance_body_step (s : StockData) (pf : Z -> res vec) (start : Z)
    (tc : num) (k : nat) :
  well_formed s -> solver_ready s pf start ->
  (k < length (index (ret s)))%nat ->
  rebalance_body s pf start tc (tables_after s pf start tc k)
    (k, label_at s k)
  = Ok (tables_after s pf start tc (S k)).
Proof.
  intros Hwf Hready Hk.
  pose proof Hwf as (Hnd & Hdi & Hlen & Hall).
  unfold tables_after.
  rewrite weight_rows_at, weight_rows_S, return_rows_at, return_rows_S by lia.
  destruct (active s start k) eqn:Hact.
  - destruct (Hready k Hk Hact) as (w & Hw & Hlw).
    unfold active in Hact. apply andb_prop in Hact. destruct Hact as [H0 Hs].
    apply negb_true_iff in H0, Hs. apply Nat.eqb_neq in H0.
    assert (Hsw : stored_weight s pf start k = w).
    { unfold stored_weight, active, target_at.
      rewrite Hs, Hw. destruct (Nat.eqb_spec k 0); [lia|reflexivity]. }
    assert (Hsr : step_return s pf start tc k
                  = nsub (psum (map2 nmul (row_at s k) w))
                      (nmul (psum (map nabs (map2 nsub w
                         (drift (row_at s (k - 1))
                                (stored_weight s pf start (k - 1))))))
                            tc)).
    { unfold step_return, active, gross_at, turnover_at, current_weight_at,
        target_at.
      rewrite Hs, Hw. destruct (Nat.eqb_spec k 0); [lia|reflexivity]. }
    rewrite Hsw, Hsr.
    apply rebalance_body_active; auto; try lia.
    + now rewrite length_map, length_seq.
    + rewrite nth_error_map, nth_error_seq.
      destruct (Nat.ltb_spec (k - 1) k); [|lia]. reflexivity.
    + apply length_stored_weight; auto. lia.
    + now rewrite length_map, length_seq.
  - assert (Hsw : stored_weight s pf start k
                  = map (fun _ => nzero) (row_at s k)).
    { unfold stored_weight. now rewrite Hact. }
    assert (Hsr : step_return s pf start tc k = nzero).
    { unfold step_return. now rewrite Hact. }
    rewrite Hsw, Hsr. unfold rebalance_body.
    unfold active in Hact.
    destruct (Nat.eqb_spec k 0); [reflexivity|].
    simpl in Hact. apply negb_false_iff in Hact. now rewrite Hact.
Qed.

Lemma enumerate_from_skipn (l : list Z) (k : nat) :
  (k < length l)%nat ->
  enumerate_from k (skipn k l)
  = (k, nth k l 0%Z) :: enumerate_from (S k) (skipn (S k) l).
Proof. intros H. now rewrite (skipn_nth _ _ 0%Z H). Qed.

Lemma rebalance_loop (s : StockData) (pf : Z -> res vec) (start : Z) (tc : num) :
  well_formed s -> solver_ready s pf start ->
  forall m k, (k + m = length (index (ret s)))%nat ->
    for_each (rebalance_body s pf start tc)
      (enumerate_from k (skipn k (index (ret s))))
      (tables_after s pf start tc k)
    = Ok (tables_after s pf start tc (length (index (ret s)))).
Proof.
  intros Hwf Hready. induction m as [|m IH]; intros k Hk.
  - replace k with (length (index (ret s))) by lia.
    now rewrite skipn_all.
  - rewrite enumerate_from_skipn by lia.
    cbn [for_each]. fold (label_at s k).
    rewrite rebalance_body_step by (auto; lia).
    cbn [bind]. apply IH. lia.
Qed.

(** The loop of [rebalance] ends with the closed forms in its tables. *)
Lemma rebalance_tables_closed_form (s : StockData) (pf : Z -> res vec)
    (start : Z) (tc : num) :
  well_formed s -> solver_ready s pf start ->
  rebalance_tables s pf start tc
  = Ok (mkTables
          (mkDataFrame (index (ret s)) (columns (ret s))
             (map (stored_weight s pf start)
                  (seq 0 (length (index (ret s))))))
          (mkReturnFrame (index (ret s))
             (map (step_return s pf start tc)
                  (seq 0 (length (index (ret s))))))).
Proof.
  intros Hwf Hready.
  pose proof Hwf as (Hnd & Hdi & Hlen & Hall).
  unfold rebalance_tables, enumerate.
  replace (mkTables (gen_weight_zeros s) (gen_return_zeros s))
    with (tables_after s pf start tc 0)
    by (unfold tables_after, return_rows, gen_return_zeros;
        now rewrite Nat.sub_0_r).
  change (index (ret s)) with (skipn 0 (index (ret s))) at 1.
  rewrite (rebalance_loop s pf start tc Hwf Hready
             (length (index (ret s))) 0%nat eq_refl).
  unfold tables_after, weight_rows, return_rows.
  rewrite <- Hlen, skipn_all, Nat.sub_diag. simpl.
  now rewrite !app_nil_r.
Qed.

Lemma mask_rows_filter (f : Z -> bool) (idx : list Z) (vals : list num) :
  mask_rows (map f idx) idx vals
  = filter (fun e => f (fst e)) (combine idx vals).
Proof.
  revert vals; induction idx as [|d idx IH]; intros [|x vals]; simpl; auto.
  destruct (f d); now rewrite IH.
Qed.

Lemma nth_error_map_seq {A : Type} (f : nat -> A) (n t : nat) :
  (t < n)%nat -> nth_error (map f (seq 0 n)) t = Some (f t).
Proof.
  intros H. rewrite nth_error_map, nth_error_seq.
  destruct (Nat.ltb_spec t n); [reflexivity | lia].
Qed.

Lemma active_true (s : StockData) (start : Z) (t : nat) :
  (0 < t)%nat -> (start <= label_at s t)%Z -> active s start t = true.
Proof.
  intros H0 Hs. unfold active.
  destruct (Nat.eqb_spec t 0); [lia|].
  destruct (Z.ltb_spec (label_at s t) start); [lia | reflexivity].
Qed.

(** ** The rebalancing loop, step by step *)

(** C1.  At every active step [t] (not the first row, date at or after the
    cutoff) the loop asks the solver with cursor [t - 1]; the drifted
    weight is the weight row stored for step [t - 1] times one plus the
    return row of step [t - 1], divided by its (pandas) sum; the target
    weight is stored as the row of step [t]; and the entry recorded for step
    [t] is the (pandas) sum of return times target weight, less the sum of
    the absolute weight differences times the transaction cost. *)
Theorem rebalance_active_step (data : list record) (s : StockData)
    (pf : Z -> res vec) (start : Z) (tc : num) :
  StockData_init data = Ok s ->
  solver_ready s pf start ->
  exists st,
    rebalance_tables s pf start tc = Ok st
    /\ forall t,
        (0 < t < length (index (ret s)))%nat ->
        (start <= label_at s t)%Z ->
        exists target ret_prev weight_prev ret_t,
          pf (Z.of_nat t - 1)%Z = Ok target
          /\ nth_error (values (ret s)) (t - 1) = Some ret_prev
          /\ nth_error (values (df_weight st)) (t - 1) = Some weight_prev
          /\ nth_error (values (ret s)) t = Some ret_t
          /\ nth_error (values (df_weight st)) t = Some target
          /\ let grown := map2 nmul (map (nadd n_one) ret_prev) weight_prev in
             let current_weight := map (fun g => ndiv g (psum grown)) grown in
             let turnover := psum (map nabs (map2 nsub target current_weight)) in
             nth_error (pf_value (pf_ret st)) t
             = Some (nsub (psum (map2 nmul ret_t target))
                          (nmul turnover tc)).
Proof.
  intros Hinit Hready.
  pose proof (StockData_init_well_formed _ _ Hinit) as Hwf.
  pose proof Hwf as (Hnd & Hdi & Hlen & Hall).
  eexists. split; [apply rebalance_tables_closed_form; assumption|].
  intros t [Ht0 Htn] Hs. cbn [df_weight pf_ret values pf_value].
  pose proof (active_true s start t Ht0 Hs) as Hact.
  destruct (Hready t Htn Hact) as (w & Hw & Hlw).
  exists w, (row_at s (t - 1)), (stored_weight s pf start (t - 1)), (row_at s t).
  repeat split.
  - exact Hw.
  - apply nth_error_row_at. lia.
  - apply nth_error_map_seq. lia.
  - apply nth_error_row_at. lia.
  - rewrite nth_error_map_seq by lia.
    unfold stored_weight, target_at. now rewrite Hact, Hw.
  - rewrite nth_error_map_seq by lia.
    unfold step_return, gross_at, turnover_at, current_weight_at, target_at,
      drift.
    now rewrite Hact, Hw.
Qed.

(** C2.  Whatever the cutoff, the first row of the series is skipped: its
    weight row and its entry keep the zeros they start with; and the series
    returned holds exactly the entries of the rows dated strictly after the
    cutoff. *)
Theorem rebalance_skips_first_row (data : list record) (s : StockData)
    (pf : Z -> res vec) (start : Z) (tc : num) :
  StockData_init data = Ok s ->
  solver_ready s pf start ->
  exists st,
    rebalance_tables s pf start tc = Ok st
    /\ length (pf_value (pf_ret st)) = length (index (ret s))
    /\ (forall r, nth_error (values (ret s)) 0 = Some r ->
          nth_error (values (df_weight st)) 0 = Some (map (fun _ => nzero) r)
          /\ nth_error (pf_value (pf_ret st)) 0 = Some nzero)
    /\ rebalance s pf start tc
       = Ok (filter (fun e => (start <? fst e)%Z)
               (combine (index (ret s)) (pf_value (pf_ret st)))).
Proof.
  intros Hinit Hready.
  pose proof (StockData_init_well_formed _ _ Hinit) as Hwf.
  pose proof Hwf as (Hnd & Hdi & Hlen & Hall).
  eexists. split; [apply rebalance_tables_closed_form; assumption|].
  cbn [df_weight pf_ret values pf_value]. split; [|split].
  - now rewrite length_map, length_seq.
  - intros r Hr.
    assert (H0 : (0 < length (index (ret s)))%nat).
    { rewrite <- Hlen. apply nth_error_Some. congruence. }
    rewrite !nth_error_map_seq by exact H0.
    unfold stored_weight, step_return, active. simpl.
    unfold row_at. destruct (values (ret s)); [discriminate|].
    simpl in *. now injection Hr as ->.
  - unfold rebalance.
    rewrite (rebalance_tables_closed_form s pf start tc Hwf Hready).
    cbn [bind pf_ret rf_index pf_value].
    now rewrite mask_rows_filter.
Qed.

(** The solvers answer on the small panel. *)
Ltac solve_ready :=
  let t := fresh "t" in
  let Ht := fresh "Ht" in
  let Hact := fresh "Hact" in
  intros t Ht Hact;
  do 4 (destruct t as [|t];
        [ first [ discriminate Hact
                | eexists; split; [vm_compute; reflexivity | reflexivity] ]
        | ]);
  simpl in Ht; lia.

Lemma rebalance_active_step_witness :
  exists st,
    rebalance_tables demo_store (equal_weight demo_store) 2 (Fin 0.01) = Ok st
    /\ forall t,
        (0 < t < length (index (ret demo_store)))%nat ->
        (2 <= label_at demo_store t)%Z ->
        exists target ret_prev weight_prev ret_t,
          equal_weight demo_store (Z.of_nat t - 1)%Z = Ok target
          /\ nth_error (values (ret demo_store)) (t - 1) = Some ret_prev
          /\ nth_error (values (df_weight st)) (t - 1) = Some weight_prev
          /\ nth_error (values (ret demo_store)) t = Some ret_t
          /\ nth_error (values (df_weight st)) t = Some target
          /\ let grown := map2 nmul (map (nadd n_one) ret_prev) weight_prev in
             let current_weight := map (fun g => ndiv g (psum grown)) grown in
             let turnover := psum (map nabs (map2 nsub target current_weight)) in
             nth_error (pf_value (pf_ret st)) t
             = Some (nsub (psum (map2 nmul ret_t target))
                          (nmul turnover (Fin 0.01))).
Proof.
  apply (rebalance_active_step demo_records demo_store
           (equal_weight demo_store) 2 (Fin 0.01)).
  - reflexivity.
  - solve_ready.
Defined.

Lemma rebalance_skips_first_row_witness :
  exists st,
    rebalance_tables demo_store (value_weight demo_store) 0 (Fin 0.01) = Ok st
    /\ length (pf_value (pf_ret st)) = length (index (ret demo_store))
    /\ (forall r, nth_error (values (ret demo_store)) 0 = Some r ->
          nth_error (values (df_weight st)) 0 = Some (map (fun _ => nzero) r)
          /\ nth_error (pf_value (pf_ret st)) 0 = Some nzero)
    /\ rebalance demo_store (value_weight demo_store) 0 (Fin 0.01)
       = Ok (filter (fun e => (0 <? fst e)%Z)
               (combine (index (ret demo_store)) (pf_value (pf_ret st)))).
Proof.
  apply (rebalance_skips_first_row demo_records demo_store
           (value_weight demo_store) 0 (Fin 0.01)).
  - reflexivity.
  - solve_ready.
Defined.

(** ** The first active step *)

Lemma qsgn_zero (q : Q) : q == 0 -> qsgn q = 0%Z.
Proof.
  unfold qsgn, Qeq. simpl. intros H. rewrite Z.mul_1_r in H. now rewrite H.
Qed.

Lemma nmul_zero_r (y : num) : zero_or_nan (nmul y nzero).
Proof.
  destruct y as [a| | |]; simpl; auto. ring.
Qed.

Lemma nsum_zeros_from (l : vec) (a : Q) :
  a == 0 -> Forall zero_or_nan l ->
  exists q, fold_left nadd (dropna l) (Fin a) = Fin q /\ q == 0.
Proof.
  revert a. induction l as [|x l IH]; intros a Ha Hall; simpl.
  - eauto.
  - inversion Hall as [|? ? Hx Hl]; subst.
    destruct x as [b| | |]; simpl in *; try contradiction.
    + apply IH; auto. rewrite Ha, Hx. reflexivity.
    + now apply IH.
Qed.

Lemma psum_zeros (l : vec) :
  Forall zero_or_nan l -> exists q, psum l = Fin q /\ q == 0.
Proof. intros H. apply nsum_zeros_from; [reflexivity | exact H]. Qed.

Lemma ndiv_zero_zero (x : num) (q : Q) :
  zero_or_nan x -> q == 0 -> ndiv x (Fin q) = NaN.
Proof.
  intros Hx Hq. destruct x as [a| | |]; simpl in *; try contradiction; auto.
  apply Qeq_bool_iff in Hq. rewrite Hq. now rewrite (qsgn_zero a Hx).
Qed.

Lemma map2_map_l (f : num -> num -> num) (g h : num -> num) (r : vec) :
  map2 f (map g r) (map h r) = map (fun x => f (g x) (h x)) r.
Proof. induction r as [|a r IH]; simpl; [reflexivity | now rewrite IH]. Qed.

(** Drifting a row of stored zeros gives NaN in every place: each grown
    holding is [0] (or NaN), their sum is [0], and [0 / 0] is NaN. *)
Lemma drift_of_zeros (r : vec) :
  drift r (map (fun _ => nzero) r) = map (fun _ => NaN) r.
Proof.
  unfold drift. rewrite map2_map_l.
  set (grown := map (fun x => nmul (nadd n_one x) nzero) r).
  assert (Hall : Forall zero_or_nan grown).
  { subst grown. rewrite Forall_forall. intros y Hy.
    apply in_map_iff in Hy. destruct Hy as (x & <- & _). apply nmul_zero_r. }
  destruct (psum_zeros grown Hall) as (q & Hq & Hq0). rewrite Hq.
  subst grown. rewrite map_map. apply map_ext.
  intros a. apply ndiv_zero_zero; [apply nmul_zero_r | exact Hq0].
Qed.

Lemma map2_nsub_nan (w r : vec) :
  length w = length r ->
  map nabs (map2 nsub w (map (fun _ => NaN) r)) = map (fun _ => NaN) r.
Proof.
  revert r. induction w as [|a w IH]; intros [|b r] H; simpl in *;
    try discriminate; auto.
  rewrite IH by lia. now destruct a.
Qed.

Lemma psum_all_nan (r : vec) : psum (map (fun _ => NaN) r) = nzero.
Proof.
  unfold psum. induction r as [|a r IH]; simpl; [reflexivity | exact IH].
Qed.

(** Against a row of stored zeros the loop measures no turnover. *)
Lemma turnover_after_zeros (w r : vec) :
  length w = length r ->
  psum (map nabs (map2 nsub w (drift r (map (fun _ => nzero) r)))) = nzero.
Proof.
  intros H. now rewrite drift_of_zeros, map2_nsub_nan, psum_all_nan.
Qed.

Lemma nsub_zero_cost (g : num) (c : Q) :
  num_eq (nsub g (nmul nzero (Fin c))) g.
Proof. destruct g as [a| | |]; simpl; auto. ring. Qed.

Lemma inactive_before_first (s : StockData) (start : Z) (t0 : nat) :
  (forall t, (0 < t < t0)%nat -> (label_at s t < start)%Z) ->
  active s start (t0 - 1) = false.
Proof.
  intros Hbefore. unfold active.
  destruct (Nat.eqb_spec (t0 - 1) 0) as [|Hne]; [reflexivity|].
  simpl. apply negb_false_iff. apply Z.ltb_lt. apply Hbefore. lia.
Qed.

(** C10.  At the first active step the weight row of the step before is
    the row of zeros the table starts with; the drifted weight is NaN in
    every place; the turnover, a sum that drops NaN, is 0; and the entry
    recorded is the weighted return of the target weight, whatever the
    transaction cost rate [c]. *)
Theorem first_active_step_is_free (data : list record) (s : StockData)
    (pf : Z -> res vec) (start : Z) (c : Q) (t0 : nat) :
  StockData_init data = Ok s ->
  solver_ready s pf start ->
  (0 < t0 < length (index (ret s)))%nat ->
  (start <= label_at s t0)%Z ->
  (forall t, (0 < t < t0)%nat -> (label_at s t < start)%Z) ->
  exists st target ret_prev ret_t v,
    rebalance_tables s pf start (Fin c) = Ok st
    /\ pf (Z.of_nat t0 - 1)%Z = Ok target
    /\ nth_error (values (ret s)) (t0 - 1) = Some ret_prev
    /\ nth_error (values (ret s)) t0 = Some ret_t
    /\ nth_error (values (df_weight st)) (t0 - 1)
       = Some (map (fun _ => nzero) ret_prev)
    /\ drift ret_prev (map (fun _ => nzero) ret_prev)
       = map (fun _ => NaN) ret_prev
    /\ psum (map nabs (map2 nsub target
                         (drift ret_prev (map (fun _ => nzero) ret_prev))))
       = nzero
    /\ nth_error (pf_value (pf_ret st)) t0 = Some v
    /\ num_eq v (psum (map2 nmul ret_t target)).
Proof.
  intros Hinit Hready [Ht0 Htn] Hs Hbefore.
  pose proof (StockData_init_well_formed _ _ Hinit) as Hwf.
  pose proof Hwf as (Hnd & Hdi & Hlen & Hall).
  pose proof (active_true s start t0 Ht0 Hs) as Hact.
  pose proof (inactive_before_first s start t0 Hbefore) as Hprev.
  destruct (Hready t0 Htn Hact) as (w & Hw & Hlw).
  assert (Hturn : psum (map nabs (map2 nsub w
                   (drift (row_at s (t0 - 1))
                          (map (fun _ => nzero) (row_at s (t0 - 1))))))
                  = nzero).
  { apply turnover_after_zeros. rewrite Hlw. symmetry.
    apply length_row_at; [assumption | lia]. }
  exists (mkTables
            (mkDataFrame (index (ret s)) (columns (ret s))
               (map (stored_weight s pf start)
                    (seq 0 (length (index (ret s))))))
            (mkReturnFrame (index (ret s))
               (map (step_return s pf start (Fin c))
                    (seq 0 (length (index (ret s))))))).
  exists w, (row_at s (t0 - 1)), (row_at s t0),
    (step_return s pf start (Fin c) t0).
  cbn [df_weight pf_ret values pf_value].
  split; [apply rebalance_tables_closed_form; assumption|].
  split; [exact Hw|].
  split; [apply nth_error_row_at; lia|].
  split; [apply nth_error_row_at; lia|].
  split.
  { rewrite nth_error_map_seq by lia. unfold stored_weight.
    now rewrite Hprev. }
  split; [apply drift_of_zeros|].
  split; [exact Hturn|].
  split; [apply nth_error_map_seq; lia|].
  unfold step_return, gross_at, turnover_at, current_weight_at, stored_weight,
    target_at.
  rewrite Hact, Hprev, Hw, Hturn. apply nsub_zero_cost.
Qed.

Lemma first_active_step_is_free_witness :
  exists st target ret_prev ret_t v,
    rebalance_tables demo_store (value_weight demo_store) 3 (Fin 0.25) = Ok st
    /\ value_weight demo_store (Z.of_nat 2 - 1)%Z = Ok target
    /\ nth_error (values (ret demo_store)) (2 - 1) = Some ret_prev
    /\ nth_error (values (ret demo_store)) 2 = Some ret_t
    /\ nth_error (values (df_weight st)) (2 - 1)
       = Some (map (fun _ => nzero) ret_prev)
    /\ drift ret_prev (map (fun _ => nzero) ret_prev)
       = map (fun _ => NaN) ret_prev
    /\ psum (map nabs (map2 nsub target
                         (drift ret_prev (map (fun _ => nzero) ret_prev))))
       = nzero
    /\ nth_error (pf_value (pf_ret st)) 2 = Some v
    /\ num_eq v (psum (map2 nmul ret_t target)).
Proof.
  apply (first_active_step_is_free demo_records demo_store
           (value_weight demo_store) 3 0.25 2).
  - reflexivity.
  - solve_ready.
  - simpl. lia.
  - vm_compute. discriminate.
  - intros t Ht. assert (t = 1%nat) as -> by lia. reflexivity.
Defined.

(** ** Transaction costs *)

Lemma combine_seq (l : list Z) (k : nat) (g : nat -> num) (lab : nat -> Z) :
  (forall i, (i < length l)%nat -> nth i l 0%Z = lab (k + i)%nat) ->
  combine l (map g (seq k (length l)))
  = map (fun t => (lab t, g t)) (seq k (length l)).
Proof.
  revert k. induction l as [|a l IH]; intros k H; simpl; [reflexivity|].
  f_equal.
  - specialize (H 0%nat). simpl in H. rewrite Nat.add_0_r in H.
    now rewrite H by lia.
  - apply IH. intros i Hi. specialize (H (S i)). simpl in H.
    rewrite H by lia. f_equal. lia.
Qed.

Lemma filter_map_comm {A B : Type} (f : B -> bool) (h : A -> B) (l : list A) :
  filter f (map h l) = map h (filter (fun a => f (h a)) l).
Proof.
  induction l as [|a l IH]; simpl; [reflexivity|].
  destruct (f (h a)); simpl; now rewrite IH.
Qed.

(** The series returned, row by row: the positions dated after the
    cutoff, each with its label and its entry. *)
Lemma rebalance_closed_form (s : StockData) (pf : Z -> res vec) (start : Z)
    (tc : num) :
  well_formed s -> solver_ready s pf start ->
  rebalance s pf start tc
  = Ok (map (fun t => (label_at s t, step_return s pf start tc t))
          (filter (fun t => (start <? label_at s t)%Z)
                  (seq 0 (length (index (ret s)))))).
Proof.
  intros Hwf Hready. unfold rebalance.
  rewrite (rebalance_tables_closed_form s pf start tc Hwf Hready).
  cbn [bind pf_ret rf_index pf_value].
  rewrite mask_rows_filter.
  rewrite (combine_seq (index (ret s)) 0 _ (label_at s)) by reflexivity.
  now rewrite filter_map_comm.
Qed.

Lemma fold_nadd_not_fin (l : vec) (x : num) :
  is_fin x = false -> is_fin (fold_left nadd l x) = false.
Proof.
  revert x. induction l as [|y l IH]; intros x Hx; simpl; [exact Hx|].
  apply IH. destruct x, y; simpl in *; congruence.
Qed.

(** A sum of absolute values, when finite, is not negative. *)
Lemma fold_abs_nonneg (l : vec) (a b : Q) :
  fold_left nadd (dropna (map nabs l)) (Fin a) = Fin b -> a <= b.
Proof.
  revert a. induction l as [|x l IH]; intros a H; simpl in H.
  - injection H as ->. lra.
  - destruct x as [q| | |]; simpl in H.
    + apply IH in H. pose proof (Qabs_nonneg q). lra.
    + pose proof (fold_nadd_not_fin (dropna (map nabs l)) PInf eq_refl) as E.
      rewrite H in E. discriminate.
    + pose proof (fold_nadd_not_fin (dropna (map nabs l)) PInf eq_refl) as E.
      rewrite H in E. discriminate.
    + now apply IH.
Qed.

Lemma psum_abs_nonneg (l : vec) (b : Q) :
  psum (map nabs l) = Fin b -> 0 <= b.
Proof. apply fold_abs_nonneg. Qed.

(** Totals of two series over the same positions, the second entry by
    entry below the first. *)
Lemma fold_nadd_le (T : list nat) (x1 x2 : nat -> num) (a1 a2 : Q) :
  (forall t, In t T ->
     exists q1 q2, x1 t = Fin q1 /\ x2 t = Fin q2 /\ q2 <= q1) ->
  a2 <= a1 ->
  exists b1 b2,
    fold_left nadd (map x1 T) (Fin a1) = Fin b1
    /\ fold_left nadd (map x2 T) (Fin a2) = Fin b2
    /\ b2 <= b1
    /\ (a2 < a1 -> b2 < b1)
    /\ ((exists t q1 q2, In t T /\ x1 t = Fin q1 /\ x2 t = Fin q2 /\ q2 < q1)
        -> b2 < b1).
Proof.
  revert a1 a2. induction T as [|t T IH]; intros a1 a2 Hall Ha; simpl.
  - exists a1, a2. repeat split; auto.
    intros (t & q1 & q2 & [] & _).
  - destruct (Hall t (or_introl eq_refl)) as (q1 & q2 & E1 & E2 & Hq).
    rewrite E1, E2. cbn [nadd].
    destruct (IH (a1 + q1) (a2 + q2)) as (b1 & b2 & F1 & F2 & Hb & Hs & Hex).
    { intros u Hu. apply Hall. now right. }
    { lra. }
    exists b1, b2. repeat split; auto.
    + intros Hlt. apply Hs. lra.
    + intros (u & p1 & p2 & [<-|Hin] & G1 & G2 & Hlt).
      * apply Hs. rewrite E1 in G1. rewrite E2 in G2.
        injection G1 as <-. injection G2 as <-. lra.
      * apply Hex. exists u, p1, p2. auto.
Qed.

Lemma sorted_nth (l : list Z) (i j : nat) :
  StronglySorted Z.lt l -> (i < j < length l)%nat ->
  (nth i l 0 < nth j l 0)%Z.
Proof.
  intros Hs. revert i j. induction Hs as [|a l Hs IH Hall]; intros i j [Hij Hj].
  - simpl in Hj. lia.
  - destruct j as [|j]; [lia|]. simpl in Hj.
    destruct i as [|i]; simpl.
    + rewrite Forall_forall in Hall. apply Hall. apply nth_In. lia.
    + apply IH. lia.
Qed.

Lemma StockData_init_sorted (data : list record) (s : StockData) :
  StockData_init data = Ok s -> StronglySorted Z.lt (index (ret s)).
Proof.
  intros H. apply StockData_init_Ok in H.
  destruct H as (_ & Hr & _). apply pivot_Ok in Hr. destruct Hr as [_ ->].
  simpl. apply sort_uniq_sorted.
Qed.

Lemma step_return_le (s : StockData) (pf : Z -> res vec) (start : Z)
    (c1 c2 : Q) (t : nat) :
  (active s start t = true ->
     is_fin (gross_at s pf t) = true
     /\ is_fin (turnover_at s pf start t) = true) ->
  c1 <= c2 ->
  exists q1 q2,
    step_return s pf start (Fin c1) t = Fin q1
    /\ step_return s pf start (Fin c2) t = Fin q2
    /\ q2 <= q1
    /\ (c1 < c2 -> active s start t = true ->
        num_lt nzero (turnover_at s pf start t) -> q2 < q1).
Proof.
  intros Hfin Hc. unfold step_return.
  destruct (active s start t) eqn:Hact.
  - destruct (Hfin eq_refl) as [Hg Ht].
    destruct (gross_at s pf t) as [a| | |]; try discriminate.
    destruct (turnover_at s pf start t) as [b| | |] eqn:Hb; try discriminate.
    assert (Hb0 : 0 <= b) by (apply (psum_abs_nonneg _ _ Hb)).
    simpl. do 2 eexists. repeat split.
    + nra.
    + intros Hlt _ Hpos. nra.
  - exists 0, 0. split; [reflexivity|]. split; [reflexivity|].
    split; [lra|]. intros _ H. discriminate.
Qed.

(** A step with a positive turnover comes after an active step, so it is
    dated strictly after the cutoff. *)
Lemma positive_turnover_after_cutoff (s : StockData) (pf : Z -> res vec)
    (start : Z) (t : nat) :
  well_formed s -> StronglySorted Z.lt (index (ret s)) ->
  solver_ready s pf start ->
  (t < length (index (ret s)))%nat -> active s start t = true ->
  num_lt nzero (turnover_at s pf start t) ->
  (start <? label_at s t)%Z = true.
Proof.
  intros Hwf Hsorted Hready Htn Hact Hpos.
  destruct (Hready t Htn Hact) as (w & Hw & Hlw).
  assert (Ht0 : (0 < t)%nat).
  { unfold active in Hact. destruct (Nat.eqb_spec t 0); [discriminate|lia]. }
  destruct (active s start (t - 1)) eqn:Hprev.
  - unfold active in Hprev. apply andb_prop in Hprev.
    destruct Hprev as [Hne Hge].
    apply negb_true_iff, Z.ltb_ge in Hge.
    apply negb_true_iff, Nat.eqb_neq in Hne.
    pose proof (sorted_nth (index (ret s)) (t - 1) t Hsorted ltac:(lia)) as Hlt.
    apply Z.ltb_lt. unfold label_at in *. lia.
  - exfalso. unfold turnover_at, current_weight_at, stored_weight, target_at in Hpos.
    rewrite Hprev, Hw in Hpos.
    rewrite turnover_after_zeros in Hpos.
    + simpl in Hpos. lra.
    + rewrite Hlw. symmetry. apply length_row_at; [assumption|lia].
Qed.

Lemma Forall2_map_same {A B : Type} (R : B -> B -> Prop) (f g : A -> B)
    (l : list A) :
  (forall a, In a l -> R (f a) (g a)) -> Forall2 R (map f l) (map g l).
Proof.
  induction l as [|a l IH]; intros H; simpl; constructor.
  - apply H. now left.
  - apply IH. intros b Hb. apply H. now right.
Qed.

(** Growth of two series over the same positions, the second entry by
    entry below the first and above a total loss. *)
Lemma fold_growth_le (T : list nat) (x1 x2 : nat -> num) (a1 a2 : Q) :
  (forall t, In t T ->
     exists q1 q2, x1 t = Fin q1 /\ x2 t = Fin q2 /\ q2 <= q1 /\ -(1) < q2) ->
  0 < a2 -> a2 <= a1 ->
  exists b1 b2,
    fold_left nmul (map (fun t => nadd (Fin 1) (x1 t)) T) (Fin a1) = Fin b1
    /\ fold_left nmul (map (fun t => nadd (Fin 1) (x2 t)) T) (Fin a2) = Fin b2
    /\ 0 < b2 /\ b2 <= b1
    /\ (a2 < a1 -> b2 < b1)
    /\ ((exists t q1 q2, In t T /\ x1 t = Fin q1 /\ x2 t = Fin q2 /\ q2 < q1)
        -> b2 < b1).
Proof.
  revert a1 a2. induction T as [|t T IH]; intros a1 a2 Hall Hpos Ha; simpl.
  - exists a1, a2. repeat split; auto.
    intros (t & q1 & q2 & [] & _).
  - destruct (Hall t (or_introl eq_refl)) as (q1 & q2 & E1 & E2 & Hq & Hq2).
    rewrite E1, E2. cbn [nadd nmul].
    destruct (IH (a1 * (1 + q1)) (a2 * (1 + q2)))
      as (b1 & b2 & F1 & F2 & Hb0 & Hb & Hs & Hex).
    { intros u Hu. apply Hall. now right. }
    { nra. }
    { nra. }
    exists b1, b2. repeat split; auto.
    + intros Hlt. apply Hs. nra.
    + intros (u & p1 & p2 & [<-|Hin] & G1 & G2 & Hlt).
      * apply Hs. rewrite E1 in G1. rewrite E2 in G2.
        injection G1 as <-. injection G2 as <-. nra.
      * apply Hex. exists u, p1, p2. auto.
Qed.

(** C9.  For one panel, one cutoff and one solver, with finite weighted
    returns and turnovers at the active steps: under a higher transaction
    cost rate every entry of the series returned is at most what it was,
    and so is its cumulative return, both as the total of the entries and,
    when no period loses everything, as their compounded growth; the
    cumulative return is strictly lower as soon as some active step has a
    positive turnover. *)
Theorem transaction_cost_monotone (data : list record) (s : StockData)
    (pf : Z -> res vec) (start : Z) (c1 c2 : Q) :
  StockData_init data = Ok s ->
  solver_ready s pf start ->
  (forall t, (t < length (index (ret s)))%nat -> active s start t = true ->
     is_fin (gross_at s pf t) = true
     /\ is_fin (turnover_at s pf start t) = true) ->
  c1 <= c2 ->
  exists out1 out2,
    rebalance s pf start (Fin c1) = Ok out1
    /\ rebalance s pf start (Fin c2) = Ok out2
    /\ map fst out2 = map fst out1
    /\ Forall2 (fun e2 e1 => num_le (snd e2) (snd e1)) out2 out1
    /\ num_le (cumulative out2) (cumulative out1)
    /\ ((forall e, In e out2 -> num_lt (Fin (-(1))) (snd e)) ->
        num_le (compounded out2) (compounded out1))
    /\ (c1 < c2 ->
        (exists t, (t < length (index (ret s)))%nat
                   /\ active s start t = true
                   /\ num_lt nzero (turnover_at s pf start t)) ->
        num_lt (cumulative out2) (cumulative out1)
        /\ ((forall e, In e out2 -> num_lt (Fin (-(1))) (snd e)) ->
            num_lt (compounded out2) (compounded out1))).
Proof.
  intros Hinit Hready Hfin Hc.
  pose proof (StockData_init_well_formed _ _ Hinit) as Hwf.
  pose proof (StockData_init_sorted _ _ Hinit) as Hsorted.
  set (T := filter (fun t => (start <? label_at s t)%Z)
                   (seq 0 (length (index (ret s))))).
  assert (HT : forall t, In t T -> (t < length (index (ret s)))%nat).
  { intros t Ht. apply filter_In in Ht. destruct Ht as [Ht _].
    apply in_seq in Ht. lia. }
  assert (Hstep : forall t, In t T ->
            exists q1 q2,
              step_return s pf start (Fin c1) t = Fin q1
              /\ step_return s pf start (Fin c2) t = Fin q2 /\ q2 <= q1).
  { intros t Ht.
    destruct (step_return_le s pf start c1 c2 t (Hfin t (HT t Ht)) Hc)
      as (q1 & q2 & E1 & E2 & Hle & _).
    exists q1, q2. auto. }
  assert (Hstrict : c1 < c2 ->
            (exists t, (t < length (index (ret s)))%nat
                       /\ active s start t = true
                       /\ num_lt nzero (turnover_at s pf start t)) ->
            exists t q1 q2,
              In t T /\ step_return s pf start (Fin c1) t = Fin q1
              /\ step_return s pf start (Fin c2) t = Fin q2 /\ q2 < q1).
  { intros Hlt (t & Htn & Hact & Hpos).
    destruct (step_return_le s pf start c1 c2 t (Hfin t Htn) Hc)
      as (q1 & q2 & E1 & E2 & _ & Hs).
    exists t, q1, q2. repeat split; auto.
    apply filter_In. split; [apply in_seq; lia|].
    now apply (positive_turnover_after_cutoff s pf start t). }
  assert (Hgrow : (forall e,
             In e (map (fun t => (label_at s t,
                                  step_return s pf start (Fin c2) t)) T) ->
             num_lt (Fin (-(1))) (snd e)) ->
           forall t, In t T ->
             exists q1 q2,
               step_return s pf start (Fin c1) t = Fin q1
               /\ step_return s pf start (Fin c2) t = Fin q2
               /\ q2 <= q1 /\ -(1) < q2).
  { intros Hloss t Ht. destruct (Hstep t Ht) as (q1 & q2 & E1 & E2 & Hle).
    exists q1, q2. repeat split; auto.
    specialize (Hloss (label_at s t, step_return s pf start (Fin c2) t)).
    rewrite E2 in Hloss. apply Hloss.
    apply in_map_iff. exists t. rewrite E2. auto. }
  do 2 eexists.
  split; [apply rebalance_closed_form; assumption|].
  split; [apply rebalance_closed_form; assumption|].
  fold T. split; [now rewrite !map_map|].
  split.
  { apply Forall2_map_same. intros t Ht. simpl.
    destruct (Hstep t Ht) as (q1 & q2 & -> & -> & Hle). exact Hle. }
  unfold cumulative, compounded. rewrite !map_map. cbn [snd].
  unfold nsum, nzero, n_one.
  destruct (fold_nadd_le T (fun t => step_return s pf start (Fin c1) t)
              (fun t => step_return s pf start (Fin c2) t) 0 0)
    as (b1 & b2 & -> & -> & Hb & _ & Hex); [exact Hstep | lra |].
  split; [exact Hb|].
  split.
  { intros Hloss.
    destruct (fold_growth_le T (fun t => step_return s pf start (Fin c1) t)
                (fun t => step_return s pf start (Fin c2) t) 1 1)
      as (g1 & g2 & -> & -> & _ & Hg & _); [auto | lra | lra |].
    exact Hg. }
  intros Hlt Hturn. split.
  { simpl. apply Hex. auto. }
  intros Hloss.
  destruct (fold_growth_le T (fun t => step_return s pf start (Fin c1) t)
              (fun t => step_return s pf start (Fin c2) t) 1 1)
    as (g1 & g2 & -> & -> & _ & _ & _ & Hgex); [auto | lra | lra |].
  simpl. apply Hgex. auto.
Qed.

(** Finite weighted returns and turnovers on the small panel. *)
Ltac solve_finite :=
  let t := fresh "t" in
  let Ht := fresh "Ht" in
  let Hact := fresh "Hact" in
  intros t Ht Hact;
  do 4 (destruct t as [|t];
        [ first [ discriminate Hact | split; vm_compute; reflexivity ] | ]);
  simpl in Ht; lia.

Lemma transaction_cost_monotone_witness :
  exists out1 out2,
    rebalance demo_store (value_weight demo_store) 2 (Fin 0) = Ok out1
    /\ rebalance demo_store (value_weight demo_store) 2 (Fin 0.01) = Ok out2
    /\ map fst out2 = map fst out1
    /\ Forall2 (fun e2 e1 => num_le (snd e2) (snd e1)) out2 out1
    /\ num_le (cumulative out2) (cumulative out1)
    /\ ((forall e, In e out2 -> num_lt (Fin (-(1))) (snd e)) ->
        num_le (compounded out2) (compounded out1))
    /\ (0 < 0.01 ->
        (exists t, (t < length (index (ret demo_store)))%nat
                   /\ active demo_store 2 t = true
                   /\ num_lt nzero
                        (turnover_at demo_store (value_weight demo_store) 2 t)) ->
        num_lt (cumulative out2) (cumulative out1)
        /\ ((forall e, In e out2 -> num_lt (Fin (-(1))) (snd e)) ->
            num_lt (compounded out2) (compounded out1))).
Proof.
  apply (transaction_cost_monotone demo_records demo_store
           (value_weight demo_store) 2 0 0.01).
  - reflexivity.
  - solve_ready.
  - solve_finite.
  - unfold Qle. simpl. lia.
Defined.

(** On the small panel the turnover of the last step is positive, so the
    higher rate costs strictly more there. *)
Example demo_turnover_positive :
  num_lt nzero (turnover_at demo_store (value_weight demo_store) 2 3).
Proof. vm_compute. reflexivity. Qed.

(** ** The expanding window *)

Lemma get_ret_til_Ok (s : StockData) (v : Z) :
  well_formed s ->
  (0 <= v < Z.of_nat (length (index (ret s))))%Z ->
  get_ret_til s v
  = Ok (mkDataFrame (firstn (Z.to_nat v + 1) (index (ret s)))
          (columns (ret s))
          (firstn (Z.to_nat v + 1) (values (ret s)))).
Proof.
  intros (Hnd & Hdi & Hlen & _) Hv. unfold get_ret_til. rewrite Hdi.
  assert (Hk : (Z.to_nat v < length (index (ret s)))%nat) by lia.
  replace v with (Z.of_nat (Z.to_nat v)) at 1 by lia.
  rewrite (py_index_nat _ _ _ (nth_error_label_at s _ Hk)). cbn [bind].
  unfold loc_until.
  rewrite (get_loc_nth_error _ _ _ Hnd (nth_error_label_at s _ Hk)).
  cbn [bind]. now rewrite Nat.add_1_r.
Qed.

(** C8.  For a cursor [t] within the series [get_ret_til] returns the rows
    [0] to [t] of the return panel, [t + 1] rows in all, and a later cursor
    gives strictly more rows. *)
Theorem get_ret_til_expanding (data : list record) (s : StockData) (t : Z) :
  StockData_init data = Ok s ->
  (0 <= t < Z.of_nat (length (index (ret s))))%Z ->
  exists w,
    get_ret_til s t = Ok w
    /\ index w = firstn (Z.to_nat t + 1) (index (ret s))
    /\ columns w = columns (ret s)
    /\ values w = firstn (Z.to_nat t + 1) (values (ret s))
    /\ length (values w) = (Z.to_nat t + 1)%nat
    /\ forall u, (t < u < Z.of_nat (length (index (ret s))))%Z ->
         exists w', get_ret_til s u = Ok w'
                    /\ (length (values w) < length (values w'))%nat.
Proof.
  intros Hinit Ht.
  pose proof (StockData_init_well_formed _ _ Hinit) as Hwf.
  pose proof Hwf as (Hnd & Hdi & Hlen & _).
  pose proof (get_ret_til_Ok s) as Hget.
  eexists. split; [apply Hget; [exact Hwf | exact Ht]|].
  cbn [index columns values].
  repeat split.
  - rewrite length_firstn. lia.
  - intros u Hu. eexists. split; [apply Hget; [exact Hwf | lia]|]. cbn [values].
    rewrite !length_firstn. lia.
Qed.

Lemma get_ret_til_expanding_witness :
  exists w,
    get_ret_til demo_store 1 = Ok w
    /\ index w = firstn (Z.to_nat 1 + 1) (index (ret demo_store))
    /\ columns w = columns (ret demo_store)
    /\ values w = firstn (Z.to_nat 1 + 1) (values (ret demo_store))
    /\ length (values w) = (Z.to_nat 1 + 1)%nat
    /\ forall u, (1 < u < Z.of_nat (length (index (ret demo_store))))%Z ->
         exists w', get_ret_til demo_store u = Ok w'
                    /\ (length (values w) < length (values w'))%nat.
Proof.
  apply (get_ret_til_expanding demo_records demo_store 1).
  - reflexivity.
  - simpl. lia.
Defined.

(** ** Market capitalisation and the value-weight solver *)

Lemma nth_error_map2 (f : num -> num -> num) (u v : vec) (a : nat) (x y : num) :
  nth_error u a = Some x -> nth_error v a = Some y ->
  nth_error (map2 f u v) a = Some (f x y).
Proof.
  revert v a. induction u as [|b u IH]; intros [|c v] [|a] Hx Hy;
    simpl in *; try discriminate.
  - now injection Hx as ->; injection Hy as ->.
  - now apply IH.
Qed.

Lemma nth_error_map2_rows (f : num -> num -> num) (A B : list vec) (t : nat)
    (ra rb : vec) :
  nth_error A t = Some ra -> nth_error B t = Some rb ->
  nth_error (map2_rows f A B) t = Some (map2 f ra rb).
Proof.
  revert B t. induction A as [|r A IH]; intros [|r' B] [|t] Ha Hb;
    simpl in *; try discriminate.
  - now injection Ha as ->; injection Hb as ->.
  - now apply IH.
Qed.

Lemma pivot_shape (data : list record) (v1 v2 : record -> num)
    (df1 df2 : DataFrame) :
  pivot data v1 = Ok df1 -> pivot data v2 = Ok df2 ->
  index df2 = index df1 /\ columns df2 = columns df1
  /\ length (values df2) = length (values df1).
Proof.
  intros H1 H2. apply pivot_Ok in H1, H2.
  destruct H1 as [_ ->], H2 as [_ ->]. simpl.
  now rewrite !length_map.
Qed.

(** Every cell of a pivoted frame exists and holds the value looked up
    in the records. *)
Lemma pivot_cell (data : list record) (value : record -> num) (df : DataFrame)
    (t a : nat) :
  pivot data value = Ok df ->
  (t < length (index df))%nat -> (a < length (columns df))%nat ->
  exists row,
    nth_error (values df) t = Some row
    /\ nth_error row a
       = Some (cell value data (nth t (index df) 0%Z) (nth a (columns df) 0%Z)).
Proof.
  intros H Ht Ha. apply pivot_Ok in H. destruct H as [_ ->]. simpl in *.
  eexists. split.
  - rewrite nth_error_map, (nth_error_nth' _ 0%Z Ht). reflexivity.
  - rewrite nth_error_map, (nth_error_nth' _ 0%Z Ha). reflexivity.
Qed.

(** C6.  Every cell of the market-cap panel is the return times the shares
    outstanding of that cell (the price panel plays no part), and for a
    cursor [t] the value-weight solver returns each cap of row [t] divided
    by the (pandas) sum of the row, whatever the signs of the caps. *)
Theorem mktcap_and_value_weight (data : list record) (s : StockData) :
  StockData_init data = Ok s ->
  (forall t a,
      (t < length (index (ret s)))%nat -> (a < length (columns (ret s)))%nat ->
      exists row_r row_q caps r q,
        nth_error (values (ret s)) t = Some row_r
        /\ nth_error row_r a = Some r
        /\ nth_error (values (shrout s)) t = Some row_q
        /\ nth_error row_q a = Some q
        /\ nth_error (values (mktcap s)) t = Some caps
        /\ nth_error caps a = Some (nmul r q))
  /\ (forall t, (t < length (index (ret s)))%nat ->
        exists caps,
          nth_error (values (mktcap s)) t = Some caps
          /\ value_weight s (Z.of_nat t)
             = Ok (map (fun c => ndiv c (psum caps)) caps)).
Proof.
  intros Hinit.
  pose proof (StockData_init_well_formed _ _ Hinit) as Hwf.
  pose proof Hwf as (Hnd & Hdi & Hlen & _).
  apply StockData_init_Ok in Hinit.
  destruct Hinit as (_ & Hr & _ & Hq & Hm & _).
  destruct (pivot_shape _ _ _ _ _ Hr Hq) as (Hiq & Hcq & Hlq).
  split.
  - intros t a Ht Ha.
    destruct (pivot_cell _ _ _ t a Hr Ht Ha) as (row_r & Htr & Har).
    destruct (pivot_cell _ _ _ t a Hq) as (row_q & Htq & Haq);
      [rewrite Hiq; exact Ht | rewrite Hcq; exact Ha |].
    exists row_r, row_q, (map2 nmul row_r row_q). do 2 eexists.
    split; [exact Htr|]. split; [exact Har|].
    split; [exact Htq|]. split; [exact Haq|].
    rewrite Hm. simpl. split.
    + now apply nth_error_map2_rows.
    + now apply nth_error_map2.
  - intros t Ht.
    destruct (nth_error (values (ret s)) t) as [row_r|] eqn:Htr;
      [|apply nth_error_None in Htr; lia].
    destruct (nth_error (values (shrout s)) t) as [row_q|] eqn:Htq;
      [|apply nth_error_None in Htq; lia].
    assert (Hcaps : nth_error (values (mktcap s)) t
                    = Some (map2 nmul row_r row_q)).
    { rewrite Hm. simpl. now apply nth_error_map2_rows. }
    exists (map2 nmul row_r row_q). split; [exact Hcaps|].
    unfold value_weight. rewrite Hdi.
    rewrite (py_index_nat _ _ _ (nth_error_label_at s t Ht)). cbn [bind].
    rewrite (loc_nth_error (mktcap s) t (label_at s t)
               (map2 nmul row_r row_q)); cbn [bind]; auto.
    + rewrite Hm. exact Hnd.
    + rewrite Hm. simpl. now apply nth_error_label_at.
Qed.

Lemma mktcap_and_value_weight_witness :
  (forall t a,
      (t < length (index (ret demo_store)))%nat ->
      (a < length (columns (ret demo_store)))%nat ->
      exists row_r row_q caps r q,
        nth_error (values (ret demo_store)) t = Some row_r
        /\ nth_error row_r a = Some r
        /\ nth_error (values (shrout demo_store)) t = Some row_q
        /\ nth_error row_q a = Some q
        /\ nth_error (values (mktcap demo_store)) t = Some caps
        /\ nth_error caps a = Some (nmul r q))
  /\ (forall t, (t < length (index (ret demo_store)))%nat ->
        exists caps,
          nth_error (values (mktcap demo_store)) t = Some caps
          /\ value_weight demo_store (Z.of_nat t)
             = Ok (map (fun c => ndiv c (psum caps)) caps)).
Proof.
  apply (mktcap_and_value_weight demo_records demo_store). reflexivity.
Defined.

(** The caps of the small panel at date 3 are [-1], [0] and [2]: the
    solver divides by their sum [1] and returns a negative weight as it
    is. *)
Example value_weight_negative_cap :
  returns_vec (value_weight demo_store 2) [Fin (-1); Fin 0; Fin 2] = true.
Proof. vm_compute. reflexivity. Qed.

(** ** Construction of the store *)

(** C4 as stated fails: these records miss the cell (date 2, asset 2), and
    the constructor raises nothing. *)
Lemma construction_accepts_missing_cell :
  has_missing_cell ragged_records = true
  /\ ~ (exists e, StockData_init ragged_records = Raise e).
Proof.
  split; [reflexivity|].
  intros [e H]. vm_compute in H. discriminate H.
Qed.

(** The store built from them holds NaN in the missing cell. *)
Example ragged_store_has_nan :
  exists s, StockData_init ragged_records = Ok s
            /\ values (ret s) = [[Fin 0.01; Fin 0.02]; [Fin 0.03; NaN]].
Proof. eexists. split; vm_compute; reflexivity. Qed.

(** A key present twice is the one input the constructor refuses, with the
    [ValueError] of [pandas.pivot]. *)
Lemma construction_duplicate_key (data : list record) :
  has_duplicate_key data = true -> StockData_init data = Raise ValueError.
Proof.
  intros H. unfold StockData_init, pivot. now rewrite H.
Qed.

(** C4, amended.  When no (date, asset) pair occurs twice the constructor
    succeeds, whether or not cells are missing, and a missing cell holds
    NaN in the return, price and shares panels. *)
Theorem construction_fills_missing_cells (data : list record) :
  has_duplicate_key data = false ->
  exists s,
    StockData_init data = Ok s
    /\ forall t a,
        (t < length (index (ret s)))%nat ->
        (a < length (columns (ret s)))%nat ->
        find (same_key (nth t (index (ret s)) 0%Z)
                       (nth a (columns (ret s)) 0%Z)) data = None ->
        exists row_r row_p row_q,
          nth_error (values (ret s)) t = Some row_r
          /\ nth_error row_r a = Some NaN
          /\ nth_error (values (prc s)) t = Some row_p
          /\ nth_error row_p a = Some NaN
          /\ nth_error (values (shrout s)) t = Some row_q
          /\ nth_error row_q a = Some NaN.
Proof.
  intros Hdup.
  assert (Hp : forall v, exists df, pivot data v = Ok df).
  { intros v. unfold pivot. rewrite Hdup. eauto. }
  destruct (Hp rec_ret) as (r & Hr).
  destruct (Hp rec_prc) as (p & Hpr).
  destruct (Hp rec_shrout) as (q & Hq).
  exists (mkStockData data r p q (df_mul r q) (get_datetime_index r)).
  split.
  { unfold StockData_init. now rewrite Hr, Hpr, Hq. }
  cbn [ret prc shrout]. intros t a Ht Ha Hmiss.
  destruct (pivot_shape _ _ _ _ _ Hr Hpr) as (Hip & Hcp & _).
  destruct (pivot_shape _ _ _ _ _ Hr Hq) as (Hiq & Hcq & _).
  destruct (pivot_cell _ _ _ t a Hr Ht Ha) as (row_r & Htr & Har).
  destruct (pivot_cell _ _ _ t a Hpr) as (row_p & Htp & Hap);
    [rewrite Hip; exact Ht | rewrite Hcp; exact Ha |].
  destruct (pivot_cell _ _ _ t a Hq) as (row_q & Htq & Haq);
    [rewrite Hiq; exact Ht | rewrite Hcq; exact Ha |].
  exists row_r, row_p, row_q.
  unfold cell in Har, Hap, Haq.
  rewrite Hip, Hcp in Hap. rewrite Hiq, Hcq in Haq.
  rewrite Hmiss in Har, Hap, Haq. auto 10.
Qed.

Lemma construction_fills_missing_cells_witness :
  exists s,
    StockData_init ragged_records = Ok s
    /\ forall t a,
        (t < length (index (ret s)))%nat ->
        (a < length (columns (ret s)))%nat ->
        find (same_key (nth t (index (ret s)) 0%Z)
                       (nth a (columns (ret s)) 0%Z)) ragged_records = None ->
        exists row_r row_p row_q,
          nth_error (values (ret s)) t = Some row_r
          /\ nth_error row_r a = Some NaN
          /\ nth_error (values (prc s)) t = Some row_p
          /\ nth_error row_p a = Some NaN
          /\ nth_error (values (shrout s)) t = Some row_q
          /\ nth_error row_q a = Some NaN.
Proof.
  apply (construction_fills_missing_cells ragged_records). reflexivity.
Defined.

(** ** The optimizer-based solvers *)

(** C3 as stated fails: [capped_minimize] reports [success = False] and
    [converged_minimize] reports [success = True] on every call, yet
    [mean_variance] returns the same value under both, so no flag can be
    read off what it returns. *)
Lemma solver_result_hides_nonconvergence :
  ~ exists flag_of : res vec -> bool,
      flag_of (mean_variance approx_sqrt capped_minimize demo_store 1) = false
      /\ flag_of (mean_variance approx_sqrt converged_minimize demo_store 1)
         = true.
Proof.
  intros (flag_of & Hcapped & Hconverged).
  change (mean_variance approx_sqrt converged_minimize demo_store 1)
    with (mean_variance approx_sqrt capped_minimize demo_store 1)
    in Hconverged.
  congruence.
Qed.

(** The same holds for the other two solvers. *)
Example other_solvers_hide_nonconvergence :
  mean_variance_short_constraint approx_sqrt capped_minimize demo_store 1
  = mean_variance_short_constraint approx_sqrt converged_minimize demo_store 1
  /\ robust_optimization approx_sqrt capped_minimize demo_store 1
     = robust_optimization approx_sqrt converged_minimize demo_store 1.
Proof. split; reflexivity. Qed.

(** C3, amended.  For a cursor within the series each optimizer-based
    solver runs the optimizer on its objective from the equal-weight guess,
    under the budget constraint (and the zero lower bounds for the
    short-sale variant) with the cap of 5000 iterations, and returns the
    field [x] of the result alone: a bare weight vector, whatever the
    [success] field says. *)
Theorem optimizer_solvers_return_bare_iterate
    (np_sqrt : num -> num)
    (minimize : (vec -> num) -> vec -> list constraint -> option vec -> Z
                -> OptimizeResult)
    (data : list record) (s : StockData) (t : Z) :
  StockData_init data = Ok s ->
  (0 <= t < Z.of_nat (length (index (ret s))))%Z ->
  exists window,
    get_ret_til s t = Ok window
    /\ let mu := mean window in
       let C := cov window in
       let e := ones_like mu in
       let w0 := initial_guess e in
       mean_variance np_sqrt minimize s t
       = Ok (x (minimize (fun w => fobj np_sqrt w mu C) w0 cons None 5000%Z))
       /\ mean_variance_short_constraint np_sqrt minimize s t
          = Ok (x (minimize (fun w => fobj np_sqrt w mu C) w0 cons
                     (Some (map (nmul nzero) e)) 5000%Z))
       /\ robust_optimization np_sqrt minimize s t
          = Ok (x (minimize (fun w => fobj_robust np_sqrt window w mu C) w0
                     cons None 5000%Z)).
Proof.
  intros Hinit Ht.
  pose proof (StockData_init_well_formed _ _ Hinit) as Hwf.
  eexists. split; [apply get_ret_til_Ok; assumption|].
  unfold mean_variance, mean_variance_short_constraint, robust_optimization.
  rewrite (get_ret_til_Ok s t Hwf Ht). cbn [bind].
  repeat split.
Qed.

Lemma optimizer_solvers_return_bare_iterate_witness :
  exists window,
    get_ret_til demo_store 1 = Ok window
    /\ let mu := mean window in
       let C := cov window in
       let e := ones_like mu in
       let w0 := initial_guess e in
       mean_variance approx_sqrt capped_minimize demo_store 1
       = Ok (x (capped_minimize (fun w => fobj approx_sqrt w mu C) w0 cons
                  None 5000%Z))
       /\ mean_variance_short_constraint approx_sqrt capped_minimize
            demo_store 1
          = Ok (x (capped_minimize (fun w => fobj approx_sqrt w mu C) w0 cons
                     (Some (map (nmul nzero) e)) 5000%Z))
       /\ robust_optimization approx_sqrt capped_minimize demo_store 1
          = Ok (x (capped_minimize
                     (fun w => fobj_robust approx_sqrt window w mu C) w0
                     cons None 5000%Z)).
Proof.
  apply (optimizer_solvers_return_bare_iterate approx_sqrt capped_minimize
           demo_records demo_store 1).
  - reflexivity.
  - simpl. lia.
Defined.

(** ** The robust objective *)

Lemma qsgn_opp (q : Q) : qsgn (- q) = (- qsgn q)%Z.
Proof. unfold qsgn. destruct q as [[|p|p] d]; reflexivity. Qed.

(** Negating the function the optimizer minimizes gives back the ratio
    without its leading minus sign. *)
Lemma nopp_ndiv_nopp (a s : num) :
  num_eq (nopp (ndiv (nopp a) s)) (ndiv a s).
Proof.
  destruct a as [a| | |], s as [s| | |]; simpl; auto; try reflexivity.
  - destruct (Qeq_bool s 0).
    + rewrite qsgn_opp. now destruct (qsgn a).
    + simpl. unfold Qdiv. ring.
  - destruct (Qeq_bool s 0); simpl; [exact I|].
    unfold qsgn. now destruct (Qnum s).
  - destruct (Qeq_bool s 0); simpl; [exact I|].
    unfold qsgn. now destruct (Qnum s).
Qed.

Lemma budget_constraint_iff (w : vec) :
  num_eq (fcon_budget w) nzero <-> num_eq (nsum w) n_one.
Proof.
  unfold fcon_budget. destruct (nsum w) as [a| | |]; simpl; try tauto.
  split; intros H; lra.
Qed.

(** C7 as stated fails: on the first three months of the small panel, with
    the square root taken to six decimals, the objective of the code is
    about [-0.369] where the claimed one, with the sample standard
    deviation, is about [-0.711]. *)
Lemma robust_objective_is_not_sample_std :
  num_eqb
    (nopp (fobj_robust approx_sqrt demo_window demo_weight
             (mean demo_window) (cov demo_window)))
    (claimed_robust_objective approx_sqrt demo_window demo_weight)
  = false.
Proof. vm_compute. reflexivity. Qed.

(** The two deviations on that window: [numpy.std] divides the squared
    deviations by the number of rows, the sample standard deviation by one
    less. *)
Example std_of_demo_window :
  np_std approx_sqrt demo_window
  = [Fin 0.009428; Fin 0.008164; Fin 0.008164]
  /\ sample_std approx_sqrt demo_window
     = [Fin 0.011547; Fin 0.010000; Fin 0.010000].
Proof. split; vm_compute; reflexivity. Qed.

(** C7, amended.  For a cursor within the series the function that
    [robust_optimization] hands to the optimizer, negated, is
    [(w . mu - sum_a |w_a| sigma_a) / sqrt (w' Sigma w)], where [mu] and
    [Sigma] are the mean and the sample covariance of the expanding window
    and [sigma_a] is the root of the variance of asset [a] with divisor the
    number of rows (numpy's [ddof = 0]); the only constraint is the equality
    [sum w - 1 = 0]. *)
Theorem robust_objective
    (np_sqrt : num -> num)
    (minimize : (vec -> num) -> vec -> list constraint -> option vec -> Z
                -> OptimizeResult)
    (data : list record) (s : StockData) (t : Z) :
  StockData_init data = Ok s ->
  (0 <= t < Z.of_nat (length (index (ret s))))%Z ->
  exists window f budget,
    get_ret_til s t = Ok window
    /\ values window = firstn (Z.to_nat t + 1) (values (ret s))
    /\ robust_optimization np_sqrt minimize s t
       = Ok (x (minimize f (initial_guess (ones_like (mean window)))
                  [mkConstraint eq_constraint budget] None 5000%Z))
    /\ (forall w, num_eq (budget w) nzero <-> num_eq (nsum w) n_one)
    /\ forall w,
         let mu := mean window in
         let Sigma := cov window in
         let sigma := map (fun c => np_sqrt (column_var0 c))
                          (column_vectors window) in
         num_eq (nopp (f w))
                (ndiv (nsub (dot w mu) (dot (map nabs w) sigma))
                      (np_sqrt (dot (vec_mat w Sigma) w))).
Proof.
  intros Hinit Ht.
  pose proof (StockData_init_well_formed _ _ Hinit) as Hwf.
  set (window := mkDataFrame (firstn (Z.to_nat t + 1) (index (ret s)))
                   (columns (ret s))
                   (firstn (Z.to_nat t + 1) (values (ret s)))).
  exists window,
    (fun w => fobj_robust np_sqrt window w (mean window) (cov window)),
    fcon_budget.
  split; [apply get_ret_til_Ok; assumption|].
  split; [reflexivity|].
  split.
  { unfold robust_optimization.
    rewrite (get_ret_til_Ok s t Hwf Ht). cbn [bind]. reflexivity. }
  split; [apply budget_constraint_iff|].
  intros w. cbv zeta. unfold fobj_robust, np_std. apply nopp_ndiv_nopp.
Qed.

Lemma robust_objective_witness :
  exists window f budget,
    get_ret_til demo_store 2 = Ok window
    /\ values window = firstn (Z.to_nat 2 + 1) (values (ret demo_store))
    /\ robust_optimization approx_sqrt capped_minimize demo_store 2
       = Ok (x (capped_minimize f (initial_guess (ones_like (mean window)))
                  [mkConstraint eq_constraint budget] None 5000%Z))
    /\ (forall w, num_eq (budget w) nzero <-> num_eq (nsum w) n_one)
    /\ forall w,
         let mu := mean window in
         let Sigma := cov window in
         let sigma := map (fun c => approx_sqrt (column_var0 c))
                          (column_vectors window) in
         num_eq (nopp (f w))
                (ndiv (nsub (dot w mu) (dot (map nabs w) sigma))
                      (approx_sqrt (dot (vec_mat w Sigma) w))).
Proof.
  apply (robust_objective approx_sqrt capped_minimize demo_records
           demo_store 2).
  - reflexivity.
  - simpl. lia.
Defined.

(** ** Sums and products of rational vectors *)

Lemma fold_Qplus_shift (l : list Q) (a : Q) :
  fold_left Qplus l a == a + fold_left Qplus l 0.
Proof.
  revert a. induction l as [|b l IH]; intros a; simpl.
  - ring.
  - rewrite (IH (a + b)), (IH (0 + b)). ring.
Qed.

Lemma qsum_cons (a : Q) (l : list Q) : qsum (a :: l) == a + qsum l.
Proof.
  unfold qsum. simpl. rewrite fold_Qplus_shift. ring.
Qed.

Lemma qsum_nil : qsum [] == 0.
Proof. reflexivity. Qed.

Lemma qdot_cons (a b : Q) (u v : list Q) :
  qdot (a :: u) (b :: v) == a * b + qdot u v.
Proof. unfold qdot. simpl. apply qsum_cons. Qed.

Lemma qdot_nil_l (v : list Q) : qdot [] v == 0.
Proof. reflexivity. Qed.

Lemma qdot_nil_r (u : list Q) : qdot u [] == 0.
Proof. destruct u; reflexivity. Qed.

Lemma qdot_comm (u v : list Q) : qdot u v == qdot v u.
Proof.
  revert v. induction u as [|a u IH]; intros [|b v];
    try reflexivity.
  rewrite !qdot_cons, IH. ring.
Qed.

Lemma qdot_scale_r (c : Q) (u v : list Q) :
  qdot u (map (Qmult c) v) == c * qdot u v.
Proof.
  revert v. induction u as [|a u IH]; intros v.
  - rewrite !qdot_nil_l. ring.
  - destruct v as [|b v]; cbn [map].
    + rewrite !qdot_nil_r. ring.
    + rewrite !qdot_cons, IH. ring.
Qed.

Lemma qdot_add_r (b u v : list Q) :
  length u = length v ->
  qdot b (qmap2 Qplus u v) == qdot b u + qdot b v.
Proof.
  revert u v. induction b as [|x b IH]; intros u v H.
  - rewrite !qdot_nil_l. ring.
  - destruct u as [|y u], v as [|z v]; cbn [length qmap2] in *;
      try discriminate.
    + rewrite !qdot_nil_r. ring.
    + rewrite !qdot_cons, IH by lia. ring.
Qed.

Lemma qdot_zeros_r (b : list Q) (n : nat) : qdot b (repeat 0 n) == 0.
Proof.
  revert n. induction b as [|x b IH]; intros n.
  - apply qdot_nil_l.
  - destruct n as [|n]; cbn [repeat].
    + apply qdot_nil_r.
    + rewrite qdot_cons, IH. ring.
Qed.

Lemma length_qmap2 (f : Q -> Q -> Q) (u v : list Q) :
  length (qmap2 f u v) = Nat.min (length u) (length v).
Proof.
  revert v. induction u as [|a u IH]; intros [|b v]; simpl; auto.
Qed.

Lemma length_lincomb (n : nat) (x : list Q) (A : list (list Q)) :
  Forall (fun a => length a = n) A -> length (lincomb n x A) = n.
Proof.
  revert A. induction x as [|xi x IH]; intros [|a A] H; simpl;
    try apply repeat_length.
  inversion H; subst.
  rewrite length_qmap2, length_map, IH by assumption. apply Nat.min_id.
Qed.

(** The product with a combination of columns is the combination of the
    products. *)
Lemma qdot_lincomb (n : nat) (b x : list Q) (A : list (list Q)) :
  Forall (fun a => length a = n) A ->
  qdot b (lincomb n x A) == qdot (map (qdot b) A) x.
Proof.
  revert A. induction x as [|xi x IH]; intros A H.
  - destruct A; cbn [lincomb]; now rewrite qdot_zeros_r, qdot_nil_r.
  - destruct A as [|a A]; cbn [lincomb map].
    + now rewrite qdot_zeros_r, qdot_nil_l.
    + inversion H; subst.
      rewrite qdot_add_r by (rewrite length_map, length_lincomb; auto).
      rewrite qdot_scale_r, qdot_cons, IH by assumption. ring.
Qed.

Lemma qdot_self_nonneg (y : list Q) : 0 <= qdot y y.
Proof.
  induction y as [|a y IH]; [rewrite qdot_nil_l; lra|].
  rewrite qdot_cons. nra.
Qed.

Lemma qdot_self_zero (y b : list Q) : qdot y y == 0 -> qdot b y == 0.
Proof.
  revert b. induction y as [|a y IH]; intros b H.
  - apply qdot_nil_r.
  - rewrite qdot_cons in H. pose proof (qdot_self_nonneg y) as Hy.
    assert (Ha : a == 0) by nra.
    assert (Hyy : qdot y y == 0) by nra.
    destruct b as [|c b]; [apply qdot_nil_l|].
    rewrite qdot_cons, (IH b Hyy), Ha. ring.
Qed.

(** ** The sample covariance as a Gram matrix *)

Lemma qcov_center (c1 c2 : list Q) :
  qcov c1 c2
  == qdot (center c1) (center c2) * / (inject_Z (Z.of_nat (length c1)) - 1).
Proof.
  unfold qcov, center, Qdiv.
  generalize (qmean c1) as m1, (qmean c2) as m2,
    (/ (inject_Z (Z.of_nat (length c1)) - 1)) as k.
  intros m1 m2 k. apply Qmult_comp; [|reflexivity].
  revert c2. induction c1 as [|a c1 IH]; intros [|b c2]; cbn [combine map];
    try reflexivity.
  rewrite qsum_cons, qdot_cons, IH. reflexivity.
Qed.

(** Products with a column of scaled entries. *)
Lemma qdot_map_scale {A : Type} (F G : A -> Q) (k : Q) (l : list A)
    (x : list Q) :
  (forall c, In c l -> F c == G c * k) ->
  qdot (map F l) x == qdot (map G l) x * k.
Proof.
  revert x. induction l as [|c l IH]; intros x H; cbn [map].
  - rewrite !qdot_nil_l. ring.
  - destruct x as [|xi x].
    + rewrite !qdot_nil_r. ring.
    + pose proof (IH x (fun c' Hc => H c' (or_intror Hc))) as E.
      pose proof (H c (or_introl eq_refl)) as Ec.
      rewrite !qdot_cons, E, Ec. ring.
Qed.

Section SampleCovariance.

(** The columns of the window, [n] rows each. *)
Variable n : nat.
Variable cols : list (list Q).
Hypothesis cols_length : Forall (fun c => length c = n) cols.

(** The reciprocal of the divisor of the covariance. *)
Let k : Q := / (inject_Z (Z.of_nat n) - 1).

(** The combination of the centred columns with coefficients [x]. *)
Let mix (x : list Q) : list Q := lincomb n x (map center cols).

Lemma centered_length : Forall (fun a => length a = n) (map center cols).
Proof.
  pose proof cols_length as Hl. rewrite Forall_forall in *.
  intros a Ha. apply in_map_iff in Ha.
  destruct Ha as (c & <- & Hc). unfold center. rewrite length_map. auto.
Qed.

(** A row of [Sigma x]: the centred column against the mix. *)
Lemma qcov_row (ci x : list Q) :
  length ci = n ->
  qdot (map (qcov ci) cols) x == qdot (center ci) (mix x) * k.
Proof.
  intros Hci. unfold mix.
  rewrite (qdot_lincomb n _ _ _ centered_length), map_map.
  apply qdot_map_scale. intros cj _. rewrite qcov_center, Hci. reflexivity.
Qed.

(** [x' Sigma x] is the squared length of the mix over [n - 1]. *)
Lemma qcov_quadratic_form (x : list Q) :
  qdot x (qmat_vec (qcov_matrix cols) x) == qdot (mix x) (mix x) * k.
Proof.
  unfold qmat_vec, qcov_matrix. rewrite map_map, qdot_comm.
  rewrite (qdot_map_scale
             (fun ci => qdot (map (fun cj => qcov ci cj) cols) x)
             (fun ci => qdot (mix x) (center ci)) k).
  - assert (E : qdot (mix x) (mix x)
                == qdot (map (qdot (mix x)) (map center cols)) x)
      by exact (qdot_lincomb n (mix x) x (map center cols) centered_length).
    rewrite E, map_map. reflexivity.
  - intros ci Hci. pose proof cols_length as Hl.
    rewrite Forall_forall in Hl.
    rewrite (qcov_row ci x (Hl ci Hci)), qdot_comm. reflexivity.
Qed.

Lemma qdot_ones (x v : list Q) :
  Forall (fun a => a == 1) v -> length x = length v -> qdot x v == qsum x.
Proof.
  intros Hv. revert x. induction Hv as [|a v Ha Hv IH]; intros x Hx.
  - destruct x; [reflexivity | discriminate].
  - destruct x as [|xi x]; [discriminate|].
    rewrite qdot_cons, qsum_cons, Ha, IH by (simpl in Hx; lia). ring.
Qed.

Lemma divisor_positive : (2 <= n)%nat -> 0 < k.
Proof.
  intros Hn. subst k. apply Qinv_lt_0_compat.
  assert (H : 2 <= inject_Z (Z.of_nat n)).
  { unfold Qle, inject_Z. simpl. lia. }
  lra.
Qed.

(** A solution of [Sigma x = 1] has a positive sum: the sum is
    [x' Sigma x], a squared length over [n - 1], and that length cannot be
    zero when a row of [Sigma x] is [1]. *)
Lemma solution_sum_positive (x : list Q) :
  (2 <= n)%nat -> cols <> [] -> length x = length cols ->
  Forall (fun a => a == 1) (qmat_vec (qcov_matrix cols) x) ->
  0 < qsum x.
Proof.
  intros Hn Hne Hlen Hsol.
  pose proof (divisor_positive Hn) as Hk.
  assert (Hs : qsum x == qdot (mix x) (mix x) * k).
  { rewrite <- qcov_quadratic_form. symmetry. apply qdot_ones; [exact Hsol|].
    unfold qmat_vec, qcov_matrix. now rewrite !length_map. }
  pose proof (qdot_self_nonneg (mix x)) as Hnonneg.
  destruct (Qlt_le_dec 0 (qdot (mix x) (mix x))) as [Hpos|Hle].
  - rewrite Hs. nra.
  - exfalso. assert (Hz : qdot (mix x) (mix x) == 0) by lra.
    assert (Hex : exists c0, In c0 cols).
    { revert Hne. generalize cols. intros [|c0 rest] H; [congruence|].
      exists c0. now left. }
    destruct Hex as (c0 & Hin).
    pose proof cols_length as Hl. rewrite Forall_forall in Hl.
    rewrite Forall_forall in Hsol.
    assert (Hrow : qdot (map (fun cj => qcov c0 cj) cols) x == 1).
    { apply Hsol. unfold qmat_vec, qcov_matrix. rewrite map_map.
      apply in_map_iff. exists c0. split; [reflexivity | exact Hin]. }
    rewrite (qcov_row c0 x (Hl c0 Hin)) in Hrow.
    rewrite (qdot_self_zero (mix x) (center c0) Hz) in Hrow. lra.
Qed.

End SampleCovariance.

Lemma qsum_div (x : list Q) (s : Q) :
  qsum (map (fun xi => xi / s) x) == qsum x / s.
Proof.
  induction x as [|a x IH]; cbn [map].
  - rewrite qsum_nil. unfold Qdiv. ring.
  - rewrite !qsum_cons, IH. unfold Qdiv. ring.
Qed.

Lemma qdot_div_r (r x : list Q) (s : Q) :
  qdot r (map (fun xi => xi / s) x) == qdot r x / s.
Proof.
  revert x. induction r as [|a r IH]; intros x.
  - rewrite !qdot_nil_l. unfold Qdiv. ring.
  - destruct x as [|b x]; cbn [map].
    + rewrite !qdot_nil_r. unfold Qdiv. ring.
    + rewrite !qdot_cons, IH. unfold Qdiv. ring.
Qed.

(** ** Finite vectors in the program's arithmetic *)

Lemma fold_nadd_Fin (l : list Q) (a : Q) :
  fold_left nadd (map Fin l) (Fin a) = Fin (fold_left Qplus l a).
Proof.
  revert a. induction l as [|b l IH]; intros a; simpl; [reflexivity|].
  apply IH.
Qed.

Lemma nsum_Fin (l : list Q) : nsum (map Fin l) = Fin (qsum l).
Proof. apply fold_nadd_Fin. Qed.

Lemma nsum_map_Fin {A : Type} (g : A -> Q) (l : list A) :
  nsum (map (fun p => Fin (g p)) l) = Fin (qsum (map g l)).
Proof. rewrite <- (map_map g Fin). apply nsum_Fin. Qed.

Lemma map2_nmul_Fin (u v : list Q) :
  map2 nmul (map Fin u) (map Fin v) = map Fin (qmap2 Qmult u v).
Proof.
  revert v. induction u as [|a u IH]; intros [|b v]; simpl; auto.
  now rewrite IH.
Qed.

Lemma dot_Fin (u v : list Q) : dot (map Fin u) (map Fin v) = Fin (qdot u v).
Proof. unfold dot. now rewrite map2_nmul_Fin, nsum_Fin. Qed.

Lemma mat_vec_Fin (C : list (list Q)) (x : list Q) :
  mat_vec (map (map Fin) C) (map Fin x) = map Fin (qmat_vec C x).
Proof.
  unfold mat_vec, qmat_vec. rewrite !map_map.
  apply map_ext. intros r. apply dot_Fin.
Qed.

Lemma finite_vec (v : vec) :
  Forall (fun a => is_fin a = true) v -> v = map Fin (map to_Q v).
Proof.
  induction 1 as [|a v Ha Hv IH]; simpl; [reflexivity|].
  rewrite <- IH. destruct a; try discriminate. reflexivity.
Qed.

Lemma ndiv_Fin (a b : Q) :
  Qeq_bool b 0 = false -> ndiv (Fin a) (Fin b) = Fin (a / b).
Proof. intros H. simpl. now rewrite H. Qed.

Lemma Qeq_bool_pos (q : Q) : 0 < q -> Qeq_bool q 0 = false.
Proof.
  intros H. destruct (Qeq_bool q 0) eqn:E; [|reflexivity].
  apply Qeq_bool_iff in E. lra.
Qed.

Lemma inject_nat_pos (n : nat) : (1 <= n)%nat -> 0 < inject_Z (Z.of_nat n).
Proof. intros H. unfold Qlt, inject_Z. simpl. lia. Qed.

Lemma inject_nat_pred_pos (n : nat) :
  (2 <= n)%nat -> 0 < inject_Z (Z.of_nat n) + - (1).
Proof.
  intros H. assert (2 <= inject_Z (Z.of_nat n)).
  { unfold Qle, inject_Z. simpl. lia. }
  lra.
Qed.

Lemma pairwise_complete_Fin (c1 c2 : list Q) :
  pairwise_complete (map Fin c1) (map Fin c2)
  = map (fun p => (Fin (fst p), Fin (snd p))) (combine c1 c2).
Proof.
  revert c2. induction c1 as [|a c1 IH]; intros [|b c2]; simpl; auto.
  now rewrite IH.
Qed.

Lemma map_fst_combine {A B : Type} (l1 : list A) (l2 : list B) :
  length l1 = length l2 -> map fst (combine l1 l2) = l1.
Proof.
  revert l2. induction l1 as [|a l1 IH]; intros [|b l2] H; simpl in *;
    try discriminate; auto.
  now rewrite IH by lia.
Qed.

Lemma map_snd_combine {A B : Type} (l1 : list A) (l2 : list B) :
  length l1 = length l2 -> map snd (combine l1 l2) = l2.
Proof.
  revert l2. induction l1 as [|a l1 IH]; intros [|b l2] H; simpl in *;
    try discriminate; auto.
  now rewrite IH by lia.
Qed.

(** On two finite columns of the same length, at least two, the entry of
    [DataFrame.cov] is the rational covariance. *)
Lemma column_cov_Fin (c1 c2 : list Q) :
  length c1 = length c2 -> (2 <= length c1)%nat ->
  column_cov (map Fin c1) (map Fin c2) = Fin (qcov c1 c2).
Proof.
  intros Hlen Hn. unfold column_cov.
  rewrite pairwise_complete_Fin.
  rewrite !length_map, length_combine, <- Hlen, Nat.min_id.
  destruct (Nat.eqb_spec (length c1) 0); [lia|].
  rewrite !map_map. cbn [fst snd].
  rewrite <- (map_map fst Fin), <- (map_map snd Fin).
  rewrite map_fst_combine, map_snd_combine by exact Hlen.
  rewrite !nsum_Fin. unfold of_nat.
  rewrite !ndiv_Fin by (apply Qeq_bool_pos, inject_nat_pos; lia).
  unfold qcov, qmean. rewrite <- Hlen.
  cbn [nsub nopp nadd nmul n_one].
  rewrite (nsum_map_Fin
             (fun p => (fst p - qsum c1 / inject_Z (Z.of_nat (length c1)))
                       * (snd p - qsum c2 / inject_Z (Z.of_nat (length c1))))).
  rewrite ndiv_Fin by (apply Qeq_bool_pos, inject_nat_pred_pos; lia).
  reflexivity.
Qed.

Lemma In_firstn_In {A : Type} (k : nat) (l : list A) (a : A) :
  In a (firstn k l) -> In a l.
Proof.
  revert l. induction k as [|k IH]; intros [|b l] H; simpl in *;
    try contradiction.
  destruct H as [H|H]; auto.
Qed.

Lemma column_finite (rows : list vec) (N j : nat) :
  all_finite rows -> Forall (fun r => length r = N) rows -> (j < N)%nat ->
  Forall (fun a => is_fin a = true) (column rows j)
  /\ length (column rows j) = length rows.
Proof.
  intros Hfin Hlen Hj. unfold column, all_finite in *.
  split; [|apply length_map].
  rewrite Forall_forall in *. intros a Ha. apply in_map_iff in Ha.
  destruct Ha as (r & <- & Hr).
  specialize (Hfin r Hr). rewrite Forall_forall in Hfin.
  apply Hfin. apply nth_In. rewrite (Hlen r Hr). exact Hj.
Qed.

(** On a window of finite cells with at least two rows, [DataFrame.cov] is
    the rational covariance matrix of its columns. *)
Lemma cov_Fin (df : DataFrame) (n : nat) :
  (2 <= n)%nat ->
  Forall (fun c => Forall (fun a => is_fin a = true) c /\ length c = n)
         (column_vectors df) ->
  cov df = map (map Fin) (qcov_matrix (map (map to_Q) (column_vectors df))).
Proof.
  intros Hn Hcs. unfold cov, qcov_matrix.
  set (cs := column_vectors df) in *.
  assert (Hfin : Forall (fun c => c = map Fin (map to_Q c)) cs).
  { rewrite Forall_forall in *. intros c Hc. apply finite_vec.
    apply (Hcs c Hc). }
  assert (Hlen : Forall (fun c => length (map to_Q c) = n) cs).
  { rewrite Forall_forall in *. intros c Hc. rewrite length_map.
    apply (Hcs c Hc). }
  rewrite !map_map. apply map_ext_in. intros ci Hci.
  rewrite !map_map. apply map_ext_in. intros cj Hcj.
  rewrite Forall_forall in Hfin, Hlen.
  rewrite (Hfin ci Hci) at 1. rewrite (Hfin cj Hcj) at 1.
  apply column_cov_Fin.
  - now rewrite (Hlen ci Hci), (Hlen cj Hcj).
  - now rewrite (Hlen ci Hci).
Qed.

Lemma ones_solution (u : list Q) (l : vec) :
  Forall2 num_eq (map Fin u) (ones_like l) -> Forall (fun a => a == 1) u.
Proof.
  revert l. induction u as [|a u IH]; intros l H; [constructor|].
  destruct l as [|b l]; simpl in H; inversion H; subst.
  constructor; [assumption | eapply IH; eassumption].
Qed.

Lemma constant_vector (u : list Q) (c : Q) (l : vec) :
  Forall (fun a => a == c) u -> length u = length l ->
  Forall2 num_eq (map Fin u) (map (fun _ => Fin c) l).
Proof.
  intros Hu. revert l. induction Hu as [|a u Ha Hu IH]; intros [|b l] Hl;
    simpl in *; try discriminate; constructor; auto.
Qed.

(** ** The minimum-variance solver *)

(** When the linear solve returns the solution [xs] of [Sigma x = 1] for
    the sample covariance of a finite window with at least two rows,
    [min_var] returns [xs] divided by its sum, and the sum is not zero. *)
Lemma min_var_of_solution
    (linalg_solve : list vec -> vec -> res vec)
    (data : list record) (s : StockData) (t : Z) (window : DataFrame)
    (xs : list Q) :
  StockData_init data = Ok s ->
  (1 <= t < Z.of_nat (length (index (ret s))))%Z ->
  (0 < length (columns (ret s)))%nat ->
  get_ret_til s t = Ok window ->
  all_finite (values window) ->
  linalg_solve (cov window) (ones_like (mean window)) = Ok (map Fin xs) ->
  length xs = length (columns (ret s)) ->
  Forall2 num_eq (mat_vec (cov window) (map Fin xs))
          (ones_like (mean window)) ->
  exists w c,
    min_var linalg_solve s t = Ok w
    /\ w = map (fun xi => ndiv xi (nsum (map Fin xs))) (map Fin xs)
    /\ num_eq (nsum w) (Fin 1)
    /\ Forall2 num_eq (mat_vec (cov window) w) (map (fun _ => Fin c) w).
Proof.
  intros Hinit Ht HN Hwin Hfin Hsolve Hlen Hsol.
  pose proof (StockData_init_well_formed _ _ Hinit) as Hwf.
  pose proof Hwf as (Hnd & Hdi & Hrows & Hall).
  rewrite (get_ret_til_Ok s t Hwf) in Hwin by lia.
  injection Hwin as Hwin.
  set (n := (Z.to_nat t + 1)%nat) in *.
  set (qcols := map (map to_Q) (column_vectors window)).
  assert (Hcs : Forall (fun c => Forall (fun a => is_fin a = true) c
                                 /\ length c = n) (column_vectors window)).
  { unfold column_vectors. rewrite Forall_forall. intros c Hc.
    apply in_map_iff in Hc. destruct Hc as (j & <- & Hj). apply in_seq in Hj.
    destruct (column_finite (values window) (length (columns window)) j Hfin)
      as [Hf Hl]; [| lia |].
    - subst window. cbn [values columns]. rewrite Forall_forall in *.
      intros r Hr. apply Hall. eapply In_firstn_In; exact Hr.
    - split; [exact Hf|]. rewrite Hl. subst window. cbn [values].
      rewrite length_firstn. lia. }
  assert (Hcov : cov window = map (map Fin) (qcov_matrix qcols)).
  { apply (cov_Fin window n); [lia | exact Hcs]. }
  assert (Hqlen : Forall (fun c => length c = n) qcols).
  { subst qcols. rewrite Forall_forall in *. intros c Hc.
    apply in_map_iff in Hc. destruct Hc as (c' & <- & Hc').
    rewrite length_map. apply (Hcs c' Hc'). }
  assert (HNq : length qcols = length (columns (ret s))).
  { subst qcols. unfold column_vectors. rewrite !length_map, length_seq.
    subst window. reflexivity. }
  assert (Hne : qcols <> []).
  { intros E. rewrite E in HNq. simpl in HNq. lia. }
  rewrite Hcov, mat_vec_Fin in Hsol. apply ones_solution in Hsol.
  assert (Hpos : 0 < qsum xs).
  { apply (solution_sum_positive n qcols Hqlen xs); auto; lia. }
  set (w' := map (fun xi => xi / qsum xs) xs).
  assert (Hw : map (fun xi => ndiv xi (nsum (map Fin xs))) (map Fin xs)
               = map Fin w').
  { subst w'. rewrite nsum_Fin, !map_map. apply map_ext. intros a.
    apply ndiv_Fin, Qeq_bool_pos, Hpos. }
  exists (map Fin w'), (1 / qsum xs).
  split.
  { unfold min_var. rewrite (get_ret_til_Ok s t Hwf) by lia. cbn [bind].
    fold n. rewrite Hwin, Hsolve. cbn [bind]. now rewrite Hw. }
  split; [now rewrite Hw|].
  split.
  { rewrite nsum_Fin. simpl. subst w'. rewrite qsum_div. field. lra. }
  rewrite Hcov, mat_vec_Fin. apply constant_vector.
  - unfold qmat_vec. rewrite Forall_forall. intros a Ha.
    apply in_map_iff in Ha. destruct Ha as (r & <- & Hr).
    subst w'. rewrite qdot_div_r.
    rewrite Forall_forall in Hsol.
    rewrite (Hsol (qdot r xs)); [reflexivity|].
    unfold qmat_vec. apply in_map_iff. eauto.
  - unfold qmat_vec, qcov_matrix. subst w'. rewrite !length_map. lia.
Qed.

(** C5.  At a cursor where the sample covariance [Sigma] of the expanding
    window (finite returns, at least two rows, at least one asset) is
    nonsingular, with [numpy.linalg.solve] exact on that system, [min_var]
    returns the solution of [Sigma x = 1] divided by its sum: the weights
    sum to one and [Sigma w] is a constant vector.  No optimizer takes
    part: the solver's only parameter is the linear solve. *)
Theorem min_var_closed_form
    (linalg_solve : list vec -> vec -> res vec)
    (data : list record) (s : StockData) (t : Z) (window : DataFrame) :
  StockData_init data = Ok s ->
  (1 <= t < Z.of_nat (length (index (ret s))))%Z ->
  (0 < length (columns (ret s)))%nat ->
  get_ret_til s t = Ok window ->
  all_finite (values window) ->
  nonsingular (cov window) ->
  solves_exactly linalg_solve (cov window) (ones_like (mean window)) ->
  exists xs w c,
    linalg_solve (cov window) (ones_like (mean window)) = Ok xs
    /\ min_var linalg_solve s t = Ok w
    /\ w = map (fun xi => ndiv xi (nsum xs)) xs
    /\ num_eq (nsum w) (Fin 1)
    /\ Forall2 num_eq (mat_vec (cov window) w) (map (fun _ => Fin c) w).
Proof.
  intros Hinit Ht HN Hwin Hfin Hns Hexact.
  destruct (Hexact Hns) as (xs & Hsolve & Hlen & Hsol).
  assert (HlenN : length xs = length (columns (ret s))).
  { rewrite Hlen. unfold ones_like, mean, column_vectors.
    rewrite !length_map, length_seq.
    pose proof (StockData_init_well_formed _ _ Hinit) as Hwf.
    rewrite (get_ret_til_Ok s t Hwf) in Hwin by lia.
    injection Hwin as <-. reflexivity. }
  destruct (min_var_of_solution linalg_solve data s t window xs
              Hinit Ht HN Hwin Hfin Hsolve HlenN Hsol)
    as (w & c & Hw & Hweq & Hsum & Hconst).
  exists (map Fin xs), w, c. auto.
Qed.

(** The covariance of the whole small panel is nonsingular. *)
Lemma demo_covariance_nonsingular : nonsingular (cov demo_panel).
Proof.
  split; [vm_compute; repeat constructor|].
  intros y Hlen H.
  destruct y as [|y1 [|y2 [|y3 [|y4 y]]]]; try discriminate Hlen.
  set (C := cov demo_panel) in H. vm_compute in C. subst C.
  cbn [mat_vec map dot map2 nsum fold_left nadd nmul nzero] in H.
  inversion H as [|? ? ? ? H1 H']; subst.
  inversion H' as [|? ? ? ? H2 H'']; subst.
  inversion H'' as [|? ? ? ? H3 _]; subst.
  cbv beta iota delta [num_eq nzero] in H1, H2, H3.
  repeat constructor; lra.
Qed.

Lemma min_var_closed_form_witness :
  exists xs w c,
    exact_solve (cov demo_panel) (ones_like (mean demo_panel)) = Ok xs
    /\ min_var exact_solve demo_store 3 = Ok w
    /\ w = map (fun xi => ndiv xi (nsum xs)) xs
    /\ num_eq (nsum w) (Fin 1)
    /\ Forall2 num_eq (mat_vec (cov demo_panel) w) (map (fun _ => Fin c) w).
Proof.
  apply (min_var_closed_form exact_solve demo_records demo_store 3
           demo_panel).
  - reflexivity.
  - simpl. lia.
  - simpl. lia.
  - vm_compute. reflexivity.
  - repeat constructor.
  - exact demo_covariance_nonsingular.
  - intros _. exists demo_solution. split; [vm_compute; reflexivity|].
    split; [reflexivity|]. vm_compute. repeat constructor.
Defined.

(** The minimum-variance weights of the whole small panel. *)
Example min_var_of_demo :
  returns_vec (min_var exact_solve demo_store 3)
    [Fin (-1 # 2); Fin 1; Fin (1 # 2)] = true.
Proof. vm_compute. reflexivity. Qed.

(** ** The closed-form solvers always answer *)

Lemma equal_weight_ready (data : list record) (s : StockData) (start : Z) :
  StockData_init data = Ok s -> solver_ready s (equal_weight s) start.
Proof.
  intros Hinit t Ht Hact.
  pose proof (StockData_init_well_formed _ _ Hinit) as Hwf.
  pose proof Hwf as (Hnd & Hdi & Hlen & Hall).
  assert (Ht0 : (0 < t)%nat).
  { unfold active in Hact. destruct (Nat.eqb_spec t 0); [discriminate|lia]. }
  assert (Hk : (t - 1 < length (index (ret s)))%nat) by lia.
  eexists. split.
  - unfold equal_weight. rewrite Hdi.
    replace (Z.of_nat t - 1)%Z with (Z.of_nat (t - 1)) by lia.
    rewrite (py_index_nat _ _ _ (nth_error_label_at s _ Hk)). cbn [bind].
    rewrite (loc_nth_error (ret s) (t - 1) _ (row_at s (t - 1)) Hnd
               (nth_error_label_at s _ Hk)
               ltac:(apply nth_error_row_at; lia)).
    cbn [bind]. reflexivity.
  - unfold ones_like. rewrite !length_map. now apply length_row_at.
Qed.

Lemma value_weight_ready (data : list record) (s : StockData) (start : Z) :
  StockData_init data = Ok s -> solver_ready s (value_weight s) start.
Proof.
  intros Hinit t Ht Hact.
  pose proof (StockData_init_well_formed _ _ Hinit) as Hwf.
  pose proof Hwf as (Hnd & Hdi & Hlen & Hall).
  pose proof (StockData_init_Ok _ _ Hinit) as (_ & Hr & _ & Hq & Hm & _).
  destruct (pivot_shape _ _ _ _ _ Hr Hq) as (Hiq & Hcq & Hlq).
  assert (Ht0 : (0 < t)%nat).
  { unfold active in Hact. destruct (Nat.eqb_spec t 0); [discriminate|lia]. }
  assert (Hk : (t - 1 < length (index (ret s)))%nat) by lia.
  destruct (nth_error (values (shrout s)) (t - 1)) as [row_q|] eqn:Htq;
    [|apply nth_error_None in Htq; lia].
  assert (Hlq' : length row_q = length (columns (ret s))).
  { apply pivot_Ok in Hq. destruct Hq as [_ Hq]. rewrite Hq in Htq.
    simpl in Htq. rewrite nth_error_map in Htq.
    destruct (nth_error _ (t - 1)); [|discriminate].
    injection Htq as <-. rewrite length_map.
    apply pivot_Ok in Hr. destruct Hr as [_ Hr]. now rewrite Hr. }
  exists (map (fun c => ndiv c (psum (map2 nmul (row_at s (t - 1)) row_q)))
              (map2 nmul (row_at s (t - 1)) row_q)).
  split.
  - unfold value_weight. rewrite Hdi.
    replace (Z.of_nat t - 1)%Z with (Z.of_nat (t - 1)) by lia.
    rewrite (py_index_nat _ _ _ (nth_error_label_at s _ Hk)). cbn [bind].
    rewrite (loc_nth_error (mktcap s) (t - 1) _
               (map2 nmul (row_at s (t - 1)) row_q)); cbn [bind]; auto.
    + rewrite Hm. exact Hnd.
    + rewrite Hm. simpl. now apply nth_error_label_at.
    + rewrite Hm. simpl. apply nth_error_map2_rows; [|exact Htq].
      apply nth_error_row_at. lia.
  - rewrite length_map, length_map2, Hlq', (length_row_at s (t - 1) Hwf Hk).
    apply Nat.min_id.
Qed.

(** ** The worked example *)

(** Equal weights on the small panel from the cutoff at the second date,
    with no transaction cost: the series returned holds the third and the
    fourth date, each with the plain average of the three returns of that
    date. *)
Example equal_weight_backtest :
  match rebalance demo_store (equal_weight demo_store) 2 (Fin 0) with
  | Ok [(d3, r3); (d4, r4)] =>
      ((d3 =? 3)%Z && (d4 =? 4)%Z
       && num_eqb r3 (Fin (1 # 300)) && num_eqb r4 (Fin (2 # 100)))%bool
  | _ => false
  end = true.
Proof. vm_compute. reflexivity. Qed.

(** ** The two deviations *)

Lemma dropna_Fin (c : list Q) : dropna (map Fin c) = map Fin c.
Proof.
  unfold dropna. induction c as [|a c IH]; simpl; [reflexivity|].
  now rewrite IH.
Qed.

Lemma squared_deviations (c : list Q) (m : Q) :
  qsum (map (fun x => (m - x) * (m - x)) c)
  == qsum (map (fun p => (fst p - m) * (snd p - m)) (combine c c)).
Proof.
  induction c as [|a c IH]; cbn [map combine]; [reflexivity|].
  rewrite !qsum_cons, IH. cbn [fst snd]. ring.
Qed.

(** On a finite column of [n >= 2] entries the variance that [numpy.std]
    takes the root of and the sample variance (the diagonal entry of the
    covariance) are the same sum of squared deviations divided by [n] and
    by [n - 1]: they differ as soon as the column is not constant. *)
Lemma var0_and_sample_variance (c : list Q) :
  (2 <= length c)%nat ->
  exists v0 v1,
    column_var0 (map Fin c) = Fin v0
    /\ column_cov (map Fin c) (map Fin c) = Fin v1
    /\ v0 * inject_Z (Z.of_nat (length c))
       == v1 * (inject_Z (Z.of_nat (length c)) - 1).
Proof.
  intros Hn.
  pose proof (inject_nat_pos (length c) ltac:(lia)) as Hpos.
  pose proof (inject_nat_pred_pos (length c) Hn) as Hpred.
  do 2 eexists. split; [|split].
  - unfold column_var0. rewrite dropna_Fin, length_map, nsum_Fin.
    unfold of_nat. rewrite ndiv_Fin by (apply Qeq_bool_pos, Hpos).
    rewrite map_map. cbn [nsub nopp nadd nmul].
    rewrite (nsum_map_Fin
               (fun x => (qsum c / inject_Z (Z.of_nat (length c)) - x)
                         * (qsum c / inject_Z (Z.of_nat (length c)) - x))).
    rewrite ndiv_Fin by (apply Qeq_bool_pos, Hpos). reflexivity.
  - apply column_cov_Fin; [reflexivity | exact Hn].
  - unfold qcov, qmean. rewrite squared_deviations. field. lra.
Qed.

(** * Further properties of the code *)

(** ** Cursors *)

Lemma py_index_out_of_range {A : Type} (l : list A) (i : Z) :
  (i < - Z.of_nat (length l) \/ Z.of_nat (length l) <= i)%Z ->
  py_index l i = Raise IndexError.
Proof.
  intros H. unfold py_index.
  destruct (Z.ltb_spec i 0).
  - destruct (Z.leb_spec 0 (Z.of_nat (length l) + i)); [lia|reflexivity].
  - destruct (Z.leb_spec 0 i); [|lia].
    destruct (Z.ltb_spec i (Z.of_nat (length l))); [lia|reflexivity].
Qed.

Lemma py_index_negative {A : Type} (l : list A) (i : Z) :
  (- Z.of_nat (length l) <= i < 0)%Z ->
  py_index l i = py_index l (Z.of_nat (length l) + i).
Proof.
  intros H. unfold py_index.
  destruct (Z.ltb_spec i 0); [|lia].
  destruct (Z.ltb_spec (Z.of_nat (length l) + i) 0); [lia|reflexivity].
Qed.

(** X1.  A cursor outside [-n, n), for [n] dates, makes the window
    accessor and each of the six solvers raise [IndexError], before any
    library call is made. *)
Theorem cursor_out_of_range
    (np_sqrt : num -> num) (linalg_solve : list vec -> vec -> res vec)
    (minimize : (vec -> num) -> vec -> list constraint -> option vec -> Z
                -> OptimizeResult)
    (s : StockData) (t : Z) :
  (t < - Z.of_nat (length (date_index s))
   \/ Z.of_nat (length (date_index s)) <= t)%Z ->
  get_ret_til s t = Raise IndexError
  /\ value_weight s t = Raise IndexError
  /\ equal_weight s t = Raise IndexError
  /\ mean_variance np_sqrt minimize s t = Raise IndexError
  /\ mean_variance_short_constraint np_sqrt minimize s t = Raise IndexError
  /\ min_var linalg_solve s t = Raise IndexError
  /\ robust_optimization np_sqrt minimize s t = Raise IndexError.
Proof.
  intros H.
  assert (Hw : get_ret_til s t = Raise IndexError).
  { unfold get_ret_til. now rewrite (py_index_out_of_range _ _ H). }
  unfold value_weight, equal_weight, mean_variance,
    mean_variance_short_constraint, min_var, robust_optimization.
  rewrite Hw, (py_index_out_of_range _ _ H). cbn [bind]. auto 10.
Qed.

Lemma cursor_out_of_range_witness :
  get_ret_til demo_store 4 = Raise IndexError
  /\ value_weight demo_store 4 = Raise IndexError
  /\ equal_weight demo_store 4 = Raise IndexError
  /\ mean_variance approx_sqrt capped_minimize demo_store 4 = Raise IndexError
  /\ mean_variance_short_constraint approx_sqrt capped_minimize demo_store 4
     = Raise IndexError
  /\ min_var exact_solve demo_store 4 = Raise IndexError
  /\ robust_optimization approx_sqrt capped_minimize demo_store 4
     = Raise IndexError.
Proof.
  apply (cursor_out_of_range approx_sqrt exact_solve capped_minimize
           demo_store 4).
  right. simpl. lia.
Defined.

(** X2.  A negative cursor in [-n, 0) counts from the end, as Python list
    indexing does: the accessor and the solvers behave as at cursor
    [n + t]; in particular cursor [-1] gives the whole return panel as the
    window. *)
Theorem negative_cursor_wraps
    (np_sqrt : num -> num) (linalg_solve : list vec -> vec -> res vec)
    (minimize : (vec -> num) -> vec -> list constraint -> option vec -> Z
                -> OptimizeResult)
    (data : list record) (s : StockData) (t : Z) :
  StockData_init data = Ok s ->
  (- Z.of_nat (length (index (ret s))) <= t < 0)%Z ->
  let u := (Z.of_nat (length (index (ret s))) + t)%Z in
  get_ret_til s t = get_ret_til s u
  /\ value_weight s t = value_weight s u
  /\ equal_weight s t = equal_weight s u
  /\ mean_variance np_sqrt minimize s t = mean_variance np_sqrt minimize s u
  /\ mean_variance_short_constraint np_sqrt minimize s t
     = mean_variance_short_constraint np_sqrt minimize s u
  /\ min_var linalg_solve s t = min_var linalg_solve s u
  /\ robust_optimization np_sqrt minimize s t
     = robust_optimization np_sqrt minimize s u
  /\ get_ret_til s (-1) = Ok (ret s).
Proof.
  intros Hinit Ht u.
  pose proof (StockData_init_well_formed _ _ Hinit) as Hwf.
  pose proof Hwf as (Hnd & Hdi & Hlen & Hall).
  assert (Hpy : py_index (date_index s) t = py_index (date_index s) u).
  { subst u. rewrite <- Hdi. apply py_index_negative. rewrite Hdi. exact Ht. }
  assert (Hw : get_ret_til s t = get_ret_til s u).
  { unfold get_ret_til. now rewrite Hpy. }
  unfold value_weight, equal_weight, mean_variance,
    mean_variance_short_constraint, min_var, robust_optimization.
  rewrite Hw, Hpy. repeat (split; [reflexivity|]).
  assert (Hlast : get_ret_til s (-1)
                  = get_ret_til s (Z.of_nat (length (index (ret s))) + -1)).
  { unfold get_ret_til. rewrite <- Hdi at 1.
    rewrite <- py_index_negative; [reflexivity | rewrite Hdi; lia]. }
  rewrite Hlast, (get_ret_til_Ok s _ Hwf) by lia.
  replace (Z.to_nat (Z.of_nat (length (index (ret s))) + -1) + 1)%nat
    with (length (index (ret s))) by lia.
  rewrite firstn_all. rewrite <- Hlen, firstn_all.
  now destruct (ret s).
Qed.

Lemma negative_cursor_wraps_witness :
  let u := (Z.of_nat (length (index (ret demo_store))) + -2)%Z in
  get_ret_til demo_store (-2) = get_ret_til demo_store u
  /\ value_weight demo_store (-2) = value_weight demo_store u
  /\ equal_weight demo_store (-2) = equal_weight demo_store u
  /\ mean_variance approx_sqrt capped_minimize demo_store (-2)
     = mean_variance approx_sqrt capped_minimize demo_store u
  /\ mean_variance_short_constraint approx_sqrt capped_minimize demo_store (-2)
     = mean_variance_short_constraint approx_sqrt capped_minimize demo_store u
  /\ min_var exact_solve demo_store (-2) = min_var exact_solve demo_store u
  /\ robust_optimization approx_sqrt capped_minimize demo_store (-2)
     = robust_optimization approx_sqrt capped_minimize demo_store u
  /\ get_ret_til demo_store (-1) = Ok (ret demo_store).
Proof.
  apply (negative_cursor_wraps approx_sqrt exact_solve capped_minimize
           demo_records demo_store (-2)).
  - reflexivity.
  - simpl. lia.
Defined.

(** ** Which cursors the loop asks for *)

Lemma In_enumerate_from {A : Type} (l : list A) (k cnt : nat) (a : A) :
  In (cnt, a) (enumerate_from k l) ->
  (k <= cnt)%nat /\ nth_error l (cnt - k) = Some a.
Proof.
  revert k. induction l as [|b l IH]; intros k H; simpl in H; [contradiction|].
  destruct H as [H|H].
  - injection H as <- <-. rewrite Nat.sub_diag. split; [lia | reflexivity].
  - apply IH in H. destruct H as [Hk Hn]. split; [lia|].
    replace (cnt - k)%nat with (S (cnt - S k)) by lia. exact Hn.
Qed.

Lemma for_each_ext {S A : Type} (f g : S -> A -> res S) (l : list A) (st : S) :
  (forall st' a, In a l -> f st' a = g st' a) ->
  for_each f l st = for_each g l st.
Proof.
  revert st. induction l as [|a l IH]; intros st H; simpl; [reflexivity|].
  rewrite (H st a) by (now left).
  destruct (g st a); simpl; [|reflexivity].
  apply IH. intros st' b Hb. apply H. now right.
Qed.

(** Two solvers that agree where the loop asks give the same run. *)
Lemma rebalance_solver_cursors_aux (s : StockData) (pf pf' : Z -> res vec)
    (start : Z) (tc : num) :
  (forall t, (0 < t < length (index (ret s)))%nat ->
             (start <= label_at s t)%Z ->
             pf (Z.of_nat t - 1)%Z = pf' (Z.of_nat t - 1)%Z) ->
  rebalance s pf start tc = rebalance s pf' start tc.
Proof.
  intros H. unfold rebalance, rebalance_tables. f_equal.
  apply for_each_ext. intros st [cnt idx] Hin.
  apply In_enumerate_from in Hin. destruct Hin as [_ Hn].
  rewrite Nat.sub_0_r in Hn.
  assert (Hlt : (cnt < length (index (ret s)))%nat).
  { apply nth_error_Some. congruence. }
  assert (Hlab : label_at s cnt = idx).
  { unfold label_at. now apply nth_error_nth. }
  unfold rebalance_body.
  destruct (Nat.eqb_spec cnt 0); [reflexivity|].
  destruct (Z.ltb_spec idx start); [reflexivity|].
  rewrite (H cnt) by (rewrite ?Hlab; lia). reflexivity.
Qed.

(** X3.  The loop of [rebalance] asks the solver only for the cursors
    [t - 1] of the positions [t >= 1] dated at or after the cutoff: two
    solvers that agree there give the same result, series or exception.
    So the solver is never asked for a negative cursor, nor for the last
    one. *)
Theorem rebalance_solver_cursors (s : StockData) (pf pf' : Z -> res vec)
    (start : Z) (tc : num) :
  (forall t, (0 < t < length (index (ret s)))%nat ->
             (start <= label_at s t)%Z ->
             pf (Z.of_nat t - 1)%Z = pf' (Z.of_nat t - 1)%Z) ->
  rebalance s pf start tc = rebalance s pf' start tc.
Proof. apply rebalance_solver_cursors_aux. Qed.

Lemma rebalance_solver_cursors_witness :
  rebalance demo_store (equal_weight demo_store) 2 (Fin 0.01)
  = rebalance demo_store guarded_solver 2 (Fin 0.01).
Proof.
  apply (rebalance_solver_cursors demo_store (equal_weight demo_store)
           guarded_solver 2 (Fin 0.01)).
  intros t Ht Hs.
  do 4 (destruct t as [|t]; [first [lia | reflexivity]|]).
  simpl in Ht. lia.
Defined.

(** ** The loop before the cutoff, and when the solver fails *)

Lemma for_each_app {S A : Type} (f : S -> A -> res S) (l1 l2 : list A) (st : S) :
  for_each f (l1 ++ l2) st = bind (for_each f l1 st) (for_each f l2).
Proof.
  revert st. induction l1 as [|a l1 IH]; intros st; simpl; [reflexivity|].
  destruct (f st a); simpl; [apply IH | reflexivity].
Qed.

Lemma enumerate_from_app {A : Type} (k : nat) (l1 l2 : list A) :
  enumerate_from k (l1 ++ l2)
  = enumerate_from k l1 ++ enumerate_from (k + length l1) l2.
Proof.
  revert k. induction l1 as [|a l1 IH]; intros k; simpl.
  - now rewrite Nat.add_0_r.
  - rewrite IH. do 3 f_equal. lia.
Qed.

Lemma firstn_S_nth {A : Type} (l : list A) (k : nat) (d : A) :
  (k < length l)%nat -> firstn (S k) l = firstn k l ++ [nth k l d].
Proof.
  revert k. induction l as [|a l IH]; intros [|k] H; simpl in *; try lia;
    auto.
  f_equal. apply IH. lia.
Qed.

Lemma tables_after_0 (s : StockData) (pf : Z -> res vec) (start : Z) (tc : num) :
  tables_after s pf start tc 0
  = mkTables (gen_weight_zeros s) (gen_return_zeros s).
Proof.
  unfold tables_after, return_rows, weight_rows, gen_return_zeros,
    gen_weight_zeros.
  now rewrite Nat.sub_0_r.
Qed.

(** The first [k] iterations of the loop, for a solver that answers. *)
Lemma rebalance_prefix (s : StockData) (pf : Z -> res vec) (start : Z)
    (tc : num) (k : nat) :
  well_formed s -> solver_ready s pf start ->
  (k <= length (index (ret s)))%nat ->
  for_each (rebalance_body s pf start tc)
    (enumerate_from 0 (firstn k (index (ret s))))
    (tables_after s pf start tc 0)
  = Ok (tables_after s pf start tc k).
Proof.
  intros Hwf Hready. induction k as [|k IH]; intros Hk; [reflexivity|].
  rewrite (firstn_S_nth _ _ 0%Z) by lia.
  rewrite enumerate_from_app, for_each_app, IH by lia.
  cbn [bind enumerate_from for_each].
  rewrite length_firstn, Nat.min_l by lia. cbn [Nat.add].
  fold (label_at s k).
  rewrite rebalance_body_step by (auto; lia). reflexivity.
Qed.

Lemma filter_none {A : Type} (f : A -> bool) (l : list A) :
  (forall a, In a l -> f a = false) -> filter f l = [].
Proof.
  induction l as [|a l IH]; intros H; simpl; [reflexivity|].
  rewrite (H a) by (now left). apply IH. intros b Hb. apply H. now right.
Qed.

Lemma index_as_labels (s : StockData) :
  index (ret s) = map (label_at s) (seq 0 (length (index (ret s)))).
Proof.
  unfold label_at. generalize (index (ret s)) as l. intros l.
  induction l as [|a l IH]; [reflexivity|].
  cbn [length seq map nth]. f_equal.
  rewrite <- seq_shift, map_map. exact IH.
Qed.

(** X4.  When no position after the first is dated at or after the
    cutoff, [rebalance] never touches the solver: whatever the solver is,
    also one that always raises, the result is the rows dated after the
    cutoff with the zeros they started with; with two rows or more that
    is the empty series. *)
Theorem rebalance_without_active_step (data : list record) (s : StockData)
    (pf : Z -> res vec) (start : Z) (tc : num) :
  StockData_init data = Ok s ->
  (forall t, (0 < t < length (index (ret s)))%nat ->
             (label_at s t < start)%Z) ->
  rebalance s pf start tc
  = Ok (map (fun d => (d, nzero))
            (filter (fun d => (start <? d)%Z) (index (ret s))))
  /\ ((2 <= length (index (ret s)))%nat -> rebalance s pf start tc = Ok []).
Proof.
  intros Hinit Hbefore.
  pose proof (StockData_init_well_formed _ _ Hinit) as Hwf.
  pose proof (StockData_init_sorted _ _ Hinit) as Hsorted.
  set (pf' := fun _ : Z => Ok (repeat nzero (length (columns (ret s))))
              : res vec).
  assert (Hready : solver_ready s pf' start).
  { intros t Ht Hact. exfalso. unfold active in Hact.
    destruct (Nat.eqb_spec t 0); [discriminate|]. simpl in Hact.
    apply negb_true_iff, Z.ltb_ge in Hact.
    specialize (Hbefore t ltac:(lia)). lia. }
  assert (Hsame : rebalance s pf start tc = rebalance s pf' start tc).
  { apply rebalance_solver_cursors_aux. intros t Ht Hs.
    specialize (Hbefore t Ht). lia. }
  assert (Hout : rebalance s pf start tc
                 = Ok (map (fun d => (d, nzero))
                         (filter (fun d => (start <? d)%Z) (index (ret s))))).
  { rewrite Hsame, (rebalance_closed_form s pf' start tc Hwf Hready).
    assert (E : filter (fun d => (start <? d)%Z) (index (ret s))
                = map (label_at s)
                    (filter (fun t => (start <? label_at s t)%Z)
                            (seq 0 (length (index (ret s)))))).
    { rewrite <- filter_map_comm, <- index_as_labels. reflexivity. }
    rewrite E, map_map.
    f_equal. apply map_ext_in. intros t Ht. apply filter_In in Ht.
    destruct Ht as [Ht _]. apply in_seq in Ht. f_equal.
    unfold step_return.
    destruct (active s start t) eqn:Hact; [|reflexivity].
    exfalso. unfold active in Hact.
    destruct (Nat.eqb_spec t 0); [discriminate|]. simpl in Hact.
    apply negb_true_iff, Z.ltb_ge in Hact.
    specialize (Hbefore t ltac:(lia)). lia. }
  split; [exact Hout|].
  intros Hn. rewrite Hout. f_equal.
  rewrite filter_none; [reflexivity|].
  intros d Hd. apply Z.ltb_ge.
  apply In_nth with (d := 0%Z) in Hd. destruct Hd as (t & Ht & <-).
  destruct t as [|t].
  - pose proof (sorted_nth (index (ret s)) 0 1 Hsorted ltac:(lia)) as Hlt.
    specialize (Hbefore 1%nat ltac:(lia)). unfold label_at in Hbefore. lia.
  - specialize (Hbefore (S t) ltac:(lia)). unfold label_at in Hbefore. lia.
Qed.

Lemma rebalance_without_active_step_witness :
  rebalance demo_store failing_solver 10 (Fin 0.01)
  = Ok (map (fun d => (d, nzero))
            (filter (fun d => (10 <? d)%Z) (index (ret demo_store))))
  /\ ((2 <= length (index (ret demo_store)))%nat ->
      rebalance demo_store failing_solver 10 (Fin 0.01) = Ok []).
Proof.
  apply (rebalance_without_active_step demo_records demo_store
           failing_solver 10 (Fin 0.01)).
  - reflexivity.
  - intros t Ht.
    do 4 (destruct t as [|t]; [first [lia | reflexivity]|]).
    simpl in Ht. lia.
Defined.

(** X5.  An exception of the solver ends the backtest: when the solver
    answers at the active steps before [t1] and raises [e] at the active
    step [t1], [rebalance] raises [e] and returns no series. *)
Theorem rebalance_propagates_solver_error (data : list record)
    (s : StockData) (pf : Z -> res vec) (start : Z) (tc : num) (t1 : nat)
    (e : exn) :
  StockData_init data = Ok s ->
  (0 < t1 < length (index (ret s)))%nat ->
  (start <= label_at s t1)%Z ->
  (forall t, (t < t1)%nat -> active s start t = true ->
     exists w, pf (Z.of_nat t - 1)%Z = Ok w
               /\ length w = length (columns (ret s))) ->
  pf (Z.of_nat t1 - 1)%Z = Raise e ->
  rebalance s pf start tc = Raise e.
Proof.
  intros Hinit [Ht0 Htn] Hs Hbefore Hfail.
  pose proof (StockData_init_well_formed _ _ Hinit) as Hwf.
  set (pf' := fun c : Z =>
                if (c <? Z.of_nat t1 - 1)%Z then pf c
                else Ok (repeat nzero (length (columns (ret s))))).
  assert (Hready : solver_ready s pf' start).
  { intros t Ht Hact. unfold pf'.
    destruct (Z.ltb_spec (Z.of_nat t - 1) (Z.of_nat t1 - 1)).
    - apply Hbefore; [lia | exact Hact].
    - eexists. split; [reflexivity | apply repeat_length]. }
  assert (Htab : rebalance_tables s pf start tc = Raise e);
    [|unfold rebalance; now rewrite Htab].
  unfold rebalance_tables, enumerate.
  replace (enumerate_from 0 (index (ret s)))
    with (enumerate_from 0 (firstn t1 (index (ret s))
                            ++ nth t1 (index (ret s)) 0%Z
                               :: skipn (S t1) (index (ret s))))
    by (now rewrite <- (skipn_nth _ _ 0%Z Htn), firstn_skipn).
  rewrite enumerate_from_app, for_each_app, <- tables_after_0
    with (pf := pf') (start := start) (tc := tc).
  rewrite (for_each_ext (rebalance_body s pf start tc)
             (rebalance_body s pf' start tc)).
  - rewrite (rebalance_prefix s pf' start tc t1 Hwf Hready) by lia.
    cbn [bind enumerate_from for_each].
    rewrite length_firstn, Nat.min_l by lia. cbn [Nat.add].
    fold (label_at s t1). unfold rebalance_body at 1.
    destruct (Nat.eqb_spec t1 0); [lia|].
    destruct (Z.ltb_spec (label_at s t1) start); [lia|].
    rewrite Hfail. reflexivity.
  - intros st [cnt idx] Hin.
    apply In_enumerate_from in Hin. destruct Hin as [_ Hn].
    rewrite Nat.sub_0_r in Hn.
    assert (Hlt : (cnt < t1)%nat).
    { assert (cnt < length (firstn t1 (index (ret s))))%nat
        by (apply nth_error_Some; congruence).
      rewrite length_firstn in H. lia. }
    unfold rebalance_body.
    destruct (Nat.eqb_spec cnt 0); [reflexivity|].
    destruct (Z.ltb_spec idx start); [reflexivity|].
    unfold pf' at 1.
    destruct (Z.ltb_spec (Z.of_nat cnt - 1) (Z.of_nat t1 - 1)); [|lia].
    reflexivity.
Qed.

Lemma rebalance_propagates_solver_error_witness :
  rebalance demo_store faulty_solver 2 (Fin 0.01) = Raise LinAlgError.
Proof.
  apply (rebalance_propagates_solver_error demo_records demo_store
           faulty_solver 2 (Fin 0.01) 3 LinAlgError).
  - reflexivity.
  - simpl. lia.
  - vm_compute. discriminate.
  - intros t Ht Hact.
    do 3 (destruct t as [|t];
          [ first [ discriminate Hact
                  | eexists; split; [vm_compute; reflexivity | reflexivity] ]
          | ]).
    lia.
  - reflexivity.
Defined.

(** X6.  Skip phase: every row dated before the cutoff keeps, when the loop
    ends, the zeros both tables start with. *)
Theorem rows_before_cutoff_stay_zero (data : list record) (s : StockData)
    (pf : Z -> res vec) (start : Z) (tc : num) :
  StockData_init data = Ok s ->
  solver_ready s pf start ->
  exists st,
    rebalance_tables s pf start tc = Ok st
    /\ forall t r,
         nth_error (values (ret s)) t = Some r ->
         (label_at s t < start)%Z ->
         nth_error (values (df_weight st)) t = Some (map (fun _ => nzero) r)
         /\ nth_error (pf_value (pf_ret st)) t = Some nzero.
Proof.
  intros Hinit Hready.
  pose proof (StockData_init_well_formed _ _ Hinit) as Hwf.
  pose proof Hwf as (Hnd & Hdi & Hlen & Hall).
  eexists. split; [apply rebalance_tables_closed_form; assumption|].
  cbn [df_weight pf_ret values pf_value]. intros t r Hr Hlt.
  assert (Ht : (t < length (index (ret s)))%nat).
  { rewrite <- Hlen. apply nth_error_Some. congruence. }
  assert (Hact : active s start t = false).
  { unfold active. apply andb_false_iff. right.
    apply negb_false_iff, Z.ltb_lt, Hlt. }
  rewrite !nth_error_map_seq by exact Ht.
  unfold stored_weight, step_return. rewrite Hact.
  unfold row_at. rewrite (nth_error_nth _ _ _ Hr). auto.
Qed.

Lemma rows_before_cutoff_stay_zero_witness :
  exists st,
    rebalance_tables demo_store (value_weight demo_store) 3 (Fin 0.01) = Ok st
    /\ forall t r,
         nth_error (values (ret demo_store)) t = Some r ->
         (label_at demo_store t < 3)%Z ->
         nth_error (values (df_weight st)) t = Some (map (fun _ => nzero) r)
         /\ nth_error (pf_value (pf_ret st)) t = Some nzero.
Proof.
  apply (rows_before_cutoff_stay_zero demo_records demo_store
           (value_weight demo_store) 3 (Fin 0.01)).
  - reflexivity.
  - solve_ready.
Defined.

Lemma nsub_nan_r (g : num) : nsub g NaN = NaN.
Proof. now destruct g. Qed.

(** X7.  With a transaction cost of zero the entry recorded at an active
    step is the weighted return of the target weight when the turnover is
    a finite number; when the turnover is infinite the product
    [inf * 0] is NaN and so is the entry. *)
Theorem zero_cost_entry (data : list record) (s : StockData)
    (pf : Z -> res vec) (start : Z) (t : nat) :
  StockData_init data = Ok s ->
  solver_ready s pf start ->
  (0 < t < length (index (ret s)))%nat ->
  (start <= label_at s t)%Z ->
  exists st target ret_t v,
    rebalance_tables s pf start (Fin 0) = Ok st
    /\ pf (Z.of_nat t - 1)%Z = Ok target
    /\ nth_error (values (ret s)) t = Some ret_t
    /\ nth_error (pf_value (pf_ret st)) t = Some v
    /\ (is_fin (turnover_at s pf start t) = true ->
        num_eq v (psum (map2 nmul ret_t target)))
    /\ (turnover_at s pf start t = PInf -> v = NaN).
Proof.
  intros Hinit Hready [Ht0 Htn] Hs.
  pose proof (StockData_init_well_formed _ _ Hinit) as Hwf.
  pose proof (active_true s start t Ht0 Hs) as Hact.
  destruct (Hready t Htn Hact) as (w & Hw & Hlw).
  eexists. exists w, (row_at s t), (step_return s pf start (Fin 0) t).
  split; [apply rebalance_tables_closed_form; assumption|].
  cbn [pf_ret pf_value].
  split; [exact Hw|].
  split; [apply nth_error_row_at; destruct Hwf as (_ & _ & -> & _); lia|].
  split; [apply nth_error_map_seq; lia|].
  unfold step_return, gross_at, target_at. rewrite Hact, Hw.
  split.
  - intros Hfin. destruct (turnover_at s pf start t) as [b| | |];
      try discriminate.
    destruct (psum (map2 nmul (row_at s t) w)) as [a| | |]; simpl; auto.
    ring.
  - intros ->. simpl. apply nsub_nan_r.
Qed.

Lemma zero_cost_entry_witness :
  exists st target ret_t v,
    rebalance_tables demo_store (value_weight demo_store) 2 (Fin 0) = Ok st
    /\ value_weight demo_store (Z.of_nat 3 - 1)%Z = Ok target
    /\ nth_error (values (ret demo_store)) 3 = Some ret_t
    /\ nth_error (pf_value (pf_ret st)) 3 = Some v
    /\ (is_fin (turnover_at demo_store (value_weight demo_store) 2 3) = true ->
        num_eq v (psum (map2 nmul ret_t target)))
    /\ (turnover_at demo_store (value_weight demo_store) 2 3 = PInf ->
        v = NaN).
Proof.
  apply (zero_cost_entry demo_records demo_store (value_weight demo_store)
           2 3).
  - reflexivity.
  - solve_ready.
  - simpl. lia.
  - vm_compute. discriminate.
Defined.

Lemma filter_sorted (f : Z -> bool) (l : list Z) :
  StronglySorted Z.lt l -> StronglySorted Z.lt (filter f l).
Proof.
  induction 1 as [|a l Hs IH Hall]; simpl; [constructor|].
  destruct (f a); [|exact IH].
  constructor; [exact IH|].
  rewrite Forall_forall in *. intros d Hd. apply filter_In in Hd.
  apply Hall, Hd.
Qed.

(** X8.  The series returned carries exactly the dates of the panel that
    are after the cutoff, in increasing order and without repetition, one
    entry for each. *)
Theorem returned_dates (data : list record) (s : StockData)
    (pf : Z -> res vec) (start : Z) (tc : num) :
  StockData_init data = Ok s ->
  solver_ready s pf start ->
  exists out,
    rebalance s pf start tc = Ok out
    /\ map fst out = filter (fun d => (start <? d)%Z) (index (ret s))
    /\ StronglySorted Z.lt (map fst out)
    /\ forall d, In d (map fst out)
         <-> (start < d)%Z /\ exists r, In r data /\ rec_date r = d.
Proof.
  intros Hinit Hready.
  pose proof (StockData_init_well_formed _ _ Hinit) as Hwf.
  pose proof (StockData_init_sorted _ _ Hinit) as Hsorted.
  assert (Hidx : index (ret s) = sort_uniq (map rec_date data)).
  { apply StockData_init_Ok in Hinit. destruct Hinit as (_ & Hr & _).
    apply pivot_Ok in Hr. destruct Hr as [_ ->]. reflexivity. }
  eexists. split; [apply rebalance_closed_form; assumption|].
  assert (E : map fst
                (map (fun t => (label_at s t, step_return s pf start tc t))
                   (filter (fun t => (start <? label_at s t)%Z)
                      (seq 0 (length (index (ret s))))))
              = filter (fun d => (start <? d)%Z) (index (ret s))).
  { rewrite map_map. cbn [fst].
    rewrite (index_as_labels s) at 2. now rewrite filter_map_comm. }
  rewrite E. split; [reflexivity|].
  split; [now apply filter_sorted|].
  intros d. rewrite filter_In, Hidx, In_sort_uniq, in_map_iff, Z.ltb_lt.
  split.
  - intros [(r & Hr & Hin) Hlt]. split; [exact Hlt|]. exists r. auto.
  - intros [Hlt (r & Hin & Hr)]. split; [|exact Hlt]. exists r. auto.
Qed.

Lemma returned_dates_witness :
  exists out,
    rebalance demo_store (equal_weight demo_store) 2 (Fin 0.01) = Ok out
    /\ map fst out = filter (fun d => (2 <? d)%Z) (index (ret demo_store))
    /\ StronglySorted Z.lt (map fst out)
    /\ forall d, In d (map fst out)
         <-> (2 < d)%Z /\ exists r, In r demo_records /\ rec_date r = d.
Proof.
  apply (returned_dates demo_records demo_store (equal_weight demo_store)
           2 (Fin 0.01)).
  - reflexivity.
  - solve_ready.
Defined.

(** A long-short target on the small panel: at the third date the grown
    holdings cancel out, the division by their zero sum gives infinite
    drifted weights and an infinite turnover, and at cost zero the entry
    is NaN. *)
Example long_short_turnover_is_infinite :
  turnover_at demo_store long_short_solver 2 2 = PInf
  /\ step_return demo_store long_short_solver 2 (Fin 0) 2 = NaN.
Proof. split; vm_compute; reflexivity. Qed.

(** ** The drifted weight *)

Lemma map_nadd_one_Fin (r : list Q) :
  map (nadd n_one) (map Fin r) = map Fin (map (Qplus 1) r).
Proof. rewrite !map_map. reflexivity. Qed.

Lemma Qeq_bool_nonzero (q : Q) : ~ q == 0 -> Qeq_bool q 0 = false.
Proof.
  intros H. destruct (Qeq_bool q 0) eqn:E; [|reflexivity].
  apply Qeq_bool_iff in E. contradiction.
Qed.

Lemma psum_Fin (l : list Q) : psum (map Fin l) = Fin (qsum l).
Proof. unfold psum. now rewrite dropna_Fin, nsum_Fin. Qed.

(** The drift of finite holdings whose grown total is not zero. *)
Lemma drift_Fin (r w : list Q) :
  ~ qsum (qmap2 Qmult (map (Qplus 1) r) w) == 0 ->
  drift (map Fin r) (map Fin w)
  = map Fin (map (fun g => g / qsum (qmap2 Qmult (map (Qplus 1) r) w))
                 (qmap2 Qmult (map (Qplus 1) r) w)).
Proof.
  intros HS. unfold drift.
  rewrite map_nadd_one_Fin, map2_nmul_Fin, psum_Fin, !map_map.
  apply map_ext. intros g. apply ndiv_Fin, Qeq_bool_nonzero, HS.
Qed.

(** X9.  Drifted weights are renormalised: for finite returns and finite
    stored weights whose grown total [sum (1 + r_a) w_a] is not zero, the
    drifted weight has one entry per asset and its entries sum to one. *)
Theorem drift_sums_to_one (r w : list Q) :
  length r = length w ->
  ~ qsum (qmap2 Qmult (map (Qplus 1) r) w) == 0 ->
  length (drift (map Fin r) (map Fin w)) = length w
  /\ num_eq (psum (drift (map Fin r) (map Fin w))) (Fin 1)
  /\ num_eq (nsum (drift (map Fin r) (map Fin w))) (Fin 1).
Proof.
  intros Hlen HS. rewrite (drift_Fin r w HS).
  split.
  - rewrite !length_map, length_qmap2, length_map, Hlen. apply Nat.min_id.
  - rewrite psum_Fin, nsum_Fin. simpl. rewrite qsum_div.
    split; field; exact HS.
Qed.

Lemma drift_sums_to_one_witness :
  length (drift (map Fin [0.01; 0.02; 0.00]) (map Fin [0.5; 0.25; 0.25]))
  = length [0.5; 0.25; 0.25]
  /\ num_eq (psum (drift (map Fin [0.01; 0.02; 0.00])
                         (map Fin [0.5; 0.25; 0.25]))) (Fin 1)
  /\ num_eq (nsum (drift (map Fin [0.01; 0.02; 0.00])
                         (map Fin [0.5; 0.25; 0.25]))) (Fin 1).
Proof.
  apply (drift_sums_to_one [0.01; 0.02; 0.00] [0.5; 0.25; 0.25]).
  - reflexivity.
  - vm_compute. discriminate.
Defined.

Lemma grown_uniform (r w : list Q) (rho : Q) :
  Forall (fun x => x == rho) r -> length r = length w ->
  qsum (qmap2 Qmult (map (Qplus 1) r) w) == (1 + rho) * qsum w.
Proof.
  intros Hr. revert w. induction Hr as [|x r Hx Hr IH]; intros [|a w] Hlen;
    simpl in Hlen; try discriminate; cbn [map qmap2].
  - rewrite qsum_nil. ring.
  - rewrite !qsum_cons, IH, Hx by lia. ring.
Qed.

(** X10.  When every asset earned the same return over the period (not a
    total loss) and the stored weights sum to one, the portfolio does not
    drift: the drifted weight is the stored weight. *)
Theorem uniform_return_no_drift (r w : list Q) (rho : Q) :
  Forall (fun x => x == rho) r -> length r = length w ->
  ~ 1 + rho == 0 -> qsum w == 1 ->
  Forall2 num_eq (drift (map Fin r) (map Fin w)) (map Fin w).
Proof.
  intros Hr Hlen Hrho Hw.
  pose proof (grown_uniform r w rho Hr Hlen) as HS.
  assert (HS0 : ~ qsum (qmap2 Qmult (map (Qplus 1) r) w) == 0).
  { rewrite HS, Hw. intros E. apply Hrho. rewrite <- E. ring. }
  rewrite (drift_Fin r w HS0).
  assert (HSv : qsum (qmap2 Qmult (map (Qplus 1) r) w) == 1 + rho)
    by (rewrite HS, Hw; ring).
  revert HS0 HSv.
  generalize (qsum (qmap2 Qmult (map (Qplus 1) r) w)) as S. intros S HS0 HSv.
  clear HS Hw. revert w Hlen.
  induction Hr as [|x r Hx Hr IH]; intros [|a w] Hlen; simpl in Hlen;
    try discriminate; cbn [map qmap2]; constructor.
  - simpl. rewrite Hx, HSv. field. exact Hrho.
  - apply IH. lia.
Qed.

Lemma uniform_return_no_drift_witness :
  Forall2 num_eq
    (drift (map Fin [0.01; 0.01; 0.01]) (map Fin [0.5; 0.25; 0.25]))
    (map Fin [0.5; 0.25; 0.25]).
Proof.
  apply (uniform_return_no_drift [0.01; 0.01; 0.01] [0.5; 0.25; 0.25] 0.01).
  - repeat constructor.
  - reflexivity.
  - vm_compute. discriminate.
  - vm_compute. reflexivity.
Defined.

(** ** The closed-form weights *)

Lemma qsum_constant {A : Type} (c : Q) (l : list A) :
  qsum (map (fun _ => c) l) == inject_Z (Z.of_nat (length l)) * c.
Proof.
  induction l as [|a l IH]; cbn [map length].
  - rewrite qsum_nil. simpl. ring.
  - rewrite qsum_cons, IH, Nat2Z.inj_succ. unfold Z.succ.
    rewrite inject_Z_plus. ring.
Qed.

Lemma sort_uniq_nonempty (l : list Z) : l <> [] -> sort_uniq l <> [].
Proof.
  destruct l as [|a l]; [congruence|]. intros _ E.
  assert (H : In a (sort_uniq (a :: l))) by (apply In_sort_uniq; now left).
  rewrite E in H. contradiction.
Qed.

(** A panel with a row has a column. *)
Lemma columns_nonempty (data : list record) (s : StockData) :
  StockData_init data = Ok s ->
  (0 < length (index (ret s)))%nat -> (0 < length (columns (ret s)))%nat.
Proof.
  intros Hinit Hn. apply StockData_init_Ok in Hinit.
  destruct Hinit as (_ & Hr & _). apply pivot_Ok in Hr. destruct Hr as [_ Hr].
  rewrite Hr in *. simpl in *.
  destruct data as [|r data]; [simpl in Hn; lia|].
  destruct (sort_uniq (map rec_permno (r :: data))) eqn:E; [|simpl; lia].
  exfalso. revert E. apply sort_uniq_nonempty. discriminate.
Qed.

(** The equal-weight vector over [N >= 1] places: [1/N] everywhere, of sum
    one. *)
Lemma equal_weights_sum {A : Type} (l : list A) :
  (0 < length l)%nat ->
  map (fun o => ndiv o (of_nat (length l))) (map (fun _ => n_one) l)
  = map (fun _ => Fin (1 / inject_Z (Z.of_nat (length l)))) l
  /\ num_eq (nsum (map (fun _ => Fin (1 / inject_Z (Z.of_nat (length l)))) l))
            (Fin 1).
Proof.
  intros HN.
  pose proof (inject_nat_pos (length l) HN) as Hpos.
  split.
  - rewrite map_map. apply map_ext. intros _. unfold n_one, of_nat.
    apply ndiv_Fin, Qeq_bool_pos, Hpos.
  - rewrite (nsum_map_Fin (fun _ => 1 / inject_Z (Z.of_nat (length l)))).
    simpl. rewrite qsum_constant. field. lra.
Qed.

(** X11.  For a cursor within the series [equal_weight] returns one weight
    per asset, each [1/N], and the weights sum to one. *)
Theorem equal_weight_sums_to_one (data : list record) (s : StockData)
    (t : Z) :
  StockData_init data = Ok s ->
  (0 <= t < Z.of_nat (length (index (ret s))))%Z ->
  exists w,
    equal_weight s t = Ok w
    /\ length w = length (columns (ret s))
    /\ Forall (fun x =>
         x = Fin (1 / inject_Z (Z.of_nat (length (columns (ret s)))))) w
    /\ num_eq (nsum w) (Fin 1).
Proof.
  intros Hinit Ht.
  pose proof (StockData_init_well_formed _ _ Hinit) as Hwf.
  pose proof Hwf as (Hnd & Hdi & Hlen & Hall).
  pose proof (columns_nonempty _ _ Hinit ltac:(lia)) as HN.
  assert (Hk : (Z.to_nat t < length (index (ret s)))%nat) by lia.
  pose proof (length_row_at s _ Hwf Hk) as Hrow.
  assert (HN' : (0 < length (row_at s (Z.to_nat t)))%nat) by lia.
  destruct (equal_weights_sum (row_at s (Z.to_nat t)) HN') as [Hw Hsum].
  rewrite Hrow in Hw, Hsum.
  exists (map (fun _ => Fin (1 / inject_Z (Z.of_nat (length (columns (ret s))))))
              (row_at s (Z.to_nat t))).
  split.
  { unfold equal_weight. rewrite Hdi.
    replace t with (Z.of_nat (Z.to_nat t)) at 1 by lia.
    rewrite (py_index_nat _ _ _ (nth_error_label_at s _ Hk)). cbn [bind].
    rewrite (loc_nth_error (ret s) (Z.to_nat t) _ (row_at s (Z.to_nat t)) Hnd
               (nth_error_label_at s _ Hk)
               ltac:(apply nth_error_row_at; lia)).
    cbn [bind]. unfold ones_like. now rewrite Hw. }
  split; [now rewrite length_map|].
  split; [|exact Hsum].
  rewrite Forall_forall. intros x Hx. apply in_map_iff in Hx.
  now destruct Hx as (_ & <- & _).
Qed.

Lemma equal_weight_sums_to_one_witness :
  exists w,
    equal_weight demo_store 2 = Ok w
    /\ length w = length (columns (ret demo_store))
    /\ Forall (fun x =>
         x = Fin (1 / inject_Z
                        (Z.of_nat (length (columns (ret demo_store)))))) w
    /\ num_eq (nsum w) (Fin 1).
Proof.
  apply (equal_weight_sums_to_one demo_records demo_store 2).
  - reflexivity.
  - simpl. lia.
Defined.

(** X12.  The optimizer-based solvers start the optimizer from a feasible
    point: for a cursor within the series the initial guess has one entry
    [1/N] per asset, the budget constraint [fcon_budget] is zero at it, and
    it meets the zero lower bounds of the short-sale variant. *)
Theorem initial_guess_feasible (data : list record) (s : StockData) (t : Z) :
  StockData_init data = Ok s ->
  (0 <= t < Z.of_nat (length (index (ret s))))%Z ->
  exists window,
    get_ret_til s t = Ok window
    /\ let e := ones_like (mean window) in
       let w0 := initial_guess e in
       length w0 = length (columns (ret s))
       /\ num_eq (fcon_budget w0) nzero
       /\ Forall2 num_le (map (nmul nzero) e) w0.
Proof.
  intros Hinit Ht.
  pose proof (StockData_init_well_formed _ _ Hinit) as Hwf.
  pose proof (columns_nonempty _ _ Hinit ltac:(lia)) as HN.
  eexists. split; [apply get_ret_til_Ok; assumption|].
  cbv zeta. unfold initial_guess, ones_like, mean, column_vectors.
  cbn [columns values]. rewrite !length_map, length_seq.
  set (l := map column_mean
              (map (column (firstn (Z.to_nat t + 1) (values (ret s))))
                   (seq 0 (length (columns (ret s)))))).
  assert (Hl : length l = length (columns (ret s))).
  { subst l. now rewrite !length_map, length_seq. }
  rewrite <- Hl.
  destruct (equal_weights_sum l ltac:(lia)) as [Hw Hsum].
  rewrite Hw. split; [reflexivity|].
  split.
  - apply budget_constraint_iff. exact Hsum.
  - rewrite map_map.
    pose proof (inject_nat_pos (length l) ltac:(lia)) as Hpos.
    set (c := 1 / inject_Z (Z.of_nat (length l))).
    assert (Hc : 0 <= c).
    { subst c. apply Qlt_le_weak.
      assert (0 < / inject_Z (Z.of_nat (length l)))
        by (apply Qinv_lt_0_compat, Hpos).
      unfold Qdiv. lra. }
    clearbody c. clear Hw Hsum Hpos Hl.
    induction l as [|a l' IH]; simpl; constructor; auto.
Qed.

Lemma initial_guess_feasible_witness :
  exists window,
    get_ret_til demo_store 2 = Ok window
    /\ let e := ones_like (mean window) in
       let w0 := initial_guess e in
       length w0 = length (columns (ret demo_store))
       /\ num_eq (fcon_budget w0) nzero
       /\ Forall2 num_le (map (nmul nzero) e) w0.
Proof.
  apply (initial_guess_feasible demo_records demo_store 2).
  - reflexivity.
  - simpl. lia.
Defined.

Lemma value_weight_Ok (data : list record) (s : StockData) (t : nat)
    (caps : vec) :
  StockData_init data = Ok s ->
  nth_error (values (mktcap s)) t = Some caps ->
  value_weight s (Z.of_nat t) = Ok (map (fun c => ndiv c (psum caps)) caps).
Proof.
  intros Hinit Hcaps.
  pose proof (StockData_init_well_formed _ _ Hinit) as Hwf.
  pose proof Hwf as (Hnd & Hdi & Hlen & _).
  pose proof (StockData_init_Ok _ _ Hinit) as (_ & Hr & _ & Hq & Hm & _).
  assert (Ht : (t < length (index (ret s)))%nat).
  { assert (H : (t < length (values (mktcap s)))%nat)
      by (apply nth_error_Some; congruence).
    rewrite Hm in H. simpl in H.
    assert (Hle : forall A B : list vec,
              (length (map2_rows nmul A B) <= length A)%nat).
    { induction A as [|a A IH]; intros [|b B]; simpl; auto with arith. }
    specialize (Hle (values (ret s)) (values (shrout s))). lia. }
  unfold value_weight. rewrite Hdi.
  rewrite (py_index_nat _ _ _ (nth_error_label_at s t Ht)). cbn [bind].
  rewrite (loc_nth_error (mktcap s) t (label_at s t) caps); cbn [bind]; auto.
  - rewrite Hm. exact Hnd.
  - rewrite Hm. simpl. now apply nth_error_label_at.
Qed.

(** X13.  When the market caps of row [t] are finite and their total is not
    zero, the value weights are the caps over the total and sum to one,
    whatever the signs of the caps. *)
Theorem value_weight_sums_to_one (data : list record) (s : StockData)
    (t : nat) (caps : list Q) :
  StockData_init data = Ok s ->
  nth_error (values (mktcap s)) t = Some (map Fin caps) ->
  ~ qsum caps == 0 ->
  exists w,
    value_weight s (Z.of_nat t) = Ok w
    /\ w = map Fin (map (fun c => c / qsum caps) caps)
    /\ num_eq (nsum w) (Fin 1).
Proof.
  intros Hinit Hcaps HS.
  eexists. split; [apply (value_weight_Ok data s t _ Hinit Hcaps)|].
  rewrite psum_Fin, !map_map.
  assert (E : map (fun c => ndiv (Fin c) (Fin (qsum caps))) caps
              = map (fun c => Fin (c / qsum caps)) caps).
  { apply map_ext. intros c. apply ndiv_Fin, Qeq_bool_nonzero, HS. }
  rewrite E. split; [reflexivity|].
  rewrite (nsum_map_Fin (fun c => c / qsum caps)). simpl.
  rewrite qsum_div. field. exact HS.
Qed.

Lemma value_weight_sums_to_one_witness :
  exists w,
    value_weight demo_store (Z.of_nat 2) = Ok w
    /\ w = map Fin (map (fun c => c / qsum demo_caps) demo_caps)
    /\ num_eq (nsum w) (Fin 1).
Proof.
  apply (value_weight_sums_to_one demo_records demo_store 2 demo_caps).
  - reflexivity.
  - reflexivity.
  - vm_compute. discriminate.
Defined.

(** X14.  When the market caps of row [t] are finite and cancel out, no
    value weight is a finite number: a positive cap gets [+inf], a negative
    one [-inf] and a zero one NaN; nothing is raised. *)
Theorem value_weight_zero_total (data : list record) (s : StockData)
    (t : nat) (caps : list Q) :
  StockData_init data = Ok s ->
  nth_error (values (mktcap s)) t = Some (map Fin caps) ->
  qsum caps == 0 ->
  exists w,
    value_weight s (Z.of_nat t) = Ok w
    /\ w = map (fun c => inf_of_sign (qsgn c)) caps
    /\ Forall (fun x => is_fin x = false) w.
Proof.
  intros Hinit Hcaps HS.
  eexists. split; [apply (value_weight_Ok data s t _ Hinit Hcaps)|].
  rewrite psum_Fin, !map_map.
  assert (E : map (fun c => ndiv (Fin c) (Fin (qsum caps))) caps
              = map (fun c => inf_of_sign (qsgn c)) caps).
  { apply map_ext. intros c. simpl.
    apply Qeq_bool_iff in HS. now rewrite HS. }
  rewrite E. split; [reflexivity|].
  rewrite Forall_forall. intros x Hx. apply in_map_iff in Hx.
  destruct Hx as (c & <- & _). now destruct (qsgn c).
Qed.

Lemma value_weight_zero_total_witness :
  exists w,
    value_weight hedged_store (Z.of_nat 0) = Ok w
    /\ w = map (fun c => inf_of_sign (qsgn c)) hedged_caps
    /\ Forall (fun x => is_fin x = false) w.
Proof.
  apply (value_weight_zero_total hedged_records hedged_store 0 hedged_caps).
  - reflexivity.
  - reflexivity.
  - reflexivity.
Defined.

(** X15.  An asset whose record is missing at date [t] has a NaN market cap
    there and gets a NaN value weight; the total the other caps are divided
    by ignores it. *)
Theorem value_weight_of_missing_cell (data : list record) (s : StockData)
    (t a : nat) :
  StockData_init data = Ok s ->
  (t < length (index (ret s)))%nat ->
  (a < length (columns (ret s)))%nat ->
  find (same_key (nth t (index (ret s)) 0%Z)
                 (nth a (columns (ret s)) 0%Z)) data = None ->
  exists caps w,
    nth_error (values (mktcap s)) t = Some caps
    /\ nth_error caps a = Some NaN
    /\ value_weight s (Z.of_nat t) = Ok w
    /\ nth_error w a = Some NaN
    /\ w = map (fun c => ndiv c (nsum (dropna caps))) caps.
Proof.
  intros Hinit Ht Ha Hmiss.
  pose proof (StockData_init_Ok _ _ Hinit) as (_ & Hr & _ & Hq & Hm & _).
  destruct (pivot_shape _ _ _ _ _ Hr Hq) as (Hiq & Hcq & _).
  destruct (pivot_cell _ _ _ t a Hr Ht Ha) as (row_r & Htr & Har).
  destruct (pivot_cell _ _ _ t a Hq) as (row_q & Htq & Haq);
    [rewrite Hiq; exact Ht | rewrite Hcq; exact Ha |].
  unfold cell in Har. rewrite Hmiss in Har.
  assert (Hcaps : nth_error (values (mktcap s)) t
                  = Some (map2 nmul row_r row_q)).
  { rewrite Hm. simpl. now apply nth_error_map2_rows. }
  assert (Hcell : nth_error (map2 nmul row_r row_q) a = Some NaN).
  { rewrite (nth_error_map2 nmul row_r row_q a NaN _ Har Haq). reflexivity. }
  exists (map2 nmul row_r row_q). eexists.
  split; [exact Hcaps|]. split; [exact Hcell|].
  split; [apply (value_weight_Ok data s t _ Hinit Hcaps)|].
  split; [|reflexivity].
  rewrite nth_error_map, Hcell. reflexivity.
Qed.

Lemma value_weight_of_missing_cell_witness :
  exists caps w,
    nth_error (values (mktcap ragged_store)) 1 = Some caps
    /\ nth_error caps 1 = Some NaN
    /\ value_weight ragged_store (Z.of_nat 1) = Ok w
    /\ nth_error w 1 = Some NaN
    /\ w = map (fun c => ndiv c (nsum (dropna caps))) caps.
Proof.
  apply (value_weight_of_missing_cell ragged_records ragged_store 1 1).
  - reflexivity.
  - simpl. lia.
  - simpl. lia.
  - reflexivity.
Defined.

(** ** What the constructor builds *)

Lemma pivot_rectangular (data : list record) (v : record -> num)
    (df : DataFrame) :
  pivot data v = Ok df -> rectangular df.
Proof.
  intros H. apply pivot_Ok in H. destruct H as [_ ->]. split; simpl.
  - now rewrite length_map.
  - rewrite Forall_forall. intros r Hr. apply in_map_iff in Hr.
    destruct Hr as (d & <- & _). now rewrite length_map.
Qed.

Lemma map2_rows_rectangular (A B : list vec) (N : nat) :
  length A = length B ->
  Forall (fun r => length r = N) A -> Forall (fun r => length r = N) B ->
  length (map2_rows nmul A B) = length A
  /\ Forall (fun r => length r = N) (map2_rows nmul A B).
Proof.
  revert B. induction A as [|a A IH]; intros [|b B] Hl HA HB; simpl in *;
    try discriminate; [split; [reflexivity | constructor]|].
  inversion HA as [|? ? Ha HA']; inversion HB as [|? ? Hb HB']; subst.
  destruct (IH B) as [IH1 IH2]; auto.
  split; [now rewrite IH1|].
  constructor; [|exact IH2].
  rewrite length_map2, Hb. apply Nat.min_id.
Qed.

(** X16.  The constructor lists in [date_index] exactly the dates of the
    records, each once and in increasing order, and the columns are
    exactly their asset ids, in increasing order; the return, price,
    shares and market-cap panels carry the same row and column labels and
    are full rectangles. *)
Theorem constructor_labels (data : list record) (s : StockData) :
  StockData_init data = Ok s ->
  date_index s = index (ret s)
  /\ StronglySorted Z.lt (date_index s)
  /\ (forall d, In d (date_index s) <-> exists r, In r data /\ rec_date r = d)
  /\ StronglySorted Z.lt (columns (ret s))
  /\ (forall p, In p (columns (ret s))
        <-> exists r, In r data /\ rec_permno r = p)
  /\ (forall df, In df [prc s; shrout s; mktcap s] ->
        index df = index (ret s) /\ columns df = columns (ret s))
  /\ (forall df, In df [ret s; prc s; shrout s; mktcap s] -> rectangular df).
Proof.
  intros Hinit.
  pose proof (StockData_init_Ok _ _ Hinit) as (_ & Hr & Hp & Hq & Hm & Hdi).
  pose proof (pivot_Ok _ _ _ Hr) as [_ Er].
  destruct (pivot_shape _ _ _ _ _ Hr Hp) as (Hip & Hcp & Hlp).
  destruct (pivot_shape _ _ _ _ _ Hr Hq) as (Hiq & Hcq & Hlq).
  pose proof (pivot_rectangular _ _ _ Hr) as [Rr1 Rr2].
  pose proof (pivot_rectangular _ _ _ Hp) as Rp.
  pose proof (pivot_rectangular _ _ _ Hq) as [Rq1 Rq2].
  split; [exact Hdi|]. rewrite Hdi.
  split; [rewrite Er; apply sort_uniq_sorted|].
  split.
  { intros d. rewrite Er. simpl. rewrite In_sort_uniq, in_map_iff.
    split; intros (r & H1 & H2); exists r; auto. }
  split; [rewrite Er; apply sort_uniq_sorted|].
  split.
  { intros p. rewrite Er. simpl. rewrite In_sort_uniq, in_map_iff.
    split; intros (r & H1 & H2); exists r; auto. }
  assert (Rm : rectangular (mktcap s)).
  { rewrite Hm. unfold rectangular, df_mul. cbn [index columns values].
    rewrite Hcq in Rq2.
    destruct (map2_rows_rectangular (values (ret s)) (values (shrout s))
                (length (columns (ret s)))) as [M1 M2]; auto.
    split; [now rewrite M1 | exact M2]. }
  split.
  { intros df [<-|[<-|[<-|[]]]]; auto. rewrite Hm. auto. }
  intros df [<-|[<-|[<-|[<-|[]]]]]; auto. split; assumption.
  split; assumption.
Qed.

Lemma constructor_labels_witness :
  date_index demo_store = index (ret demo_store)
  /\ StronglySorted Z.lt (date_index demo_store)
  /\ (forall d, In d (date_index demo_store)
        <-> exists r, In r demo_records /\ rec_date r = d)
  /\ StronglySorted Z.lt (columns (ret demo_store))
  /\ (forall p, In p (columns (ret demo_store))
        <-> exists r, In r demo_records /\ rec_permno r = p)
  /\ (forall df, In df [prc demo_store; shrout demo_store; mktcap demo_store] ->
        index df = index (ret demo_store)
        /\ columns df = columns (ret demo_store))
  /\ (forall df,
        In df [ret demo_store; prc demo_store; shrout demo_store;
               mktcap demo_store] -> rectangular df).
Proof.
  apply (constructor_labels demo_records demo_store). reflexivity.
Defined.

Lemma existsb_same_key (data : list record) (r : record) :
  In r data -> existsb (same_key (rec_date r) (rec_permno r)) data = true.
Proof.
  intros H. apply existsb_exists. exists r. split; [exact H|].
  unfold same_key. now rewrite !Z.eqb_refl.
Qed.

Lemma same_key_sym (x r : record) :
  same_key (rec_date r) (rec_permno r) x
  = same_key (rec_date x) (rec_permno x) r.
Proof.
  unfold same_key.
  now rewrite (Z.eqb_sym (rec_date x)), (Z.eqb_sym (rec_permno x)).
Qed.

(** Without a repeated key, looking a record's key up finds that record. *)
Lemma find_own_key (data : list record) (r : record) :
  has_duplicate_key data = false -> In r data ->
  find (same_key (rec_date r) (rec_permno r)) data = Some r.
Proof.
  induction data as [|x data IH]; intros Hdup Hin; [contradiction|].
  simpl in Hdup. apply orb_false_iff in Hdup. destruct Hdup as [Hx Hdup].
  simpl. destruct Hin as [->|Hin].
  - unfold same_key. now rewrite !Z.eqb_refl.
  - destruct (same_key (rec_date r) (rec_permno r) x) eqn:E.
    + exfalso. rewrite same_key_sym in E.
      assert (Hex : existsb (same_key (rec_date x) (rec_permno x)) data = true).
      { apply existsb_exists. exists r. auto. }
      congruence.
    + now apply IH.
Qed.

(** X17.  Round trip through the constructor: every record of the input is
    found again at the row of its date and the column of its asset id, with
    its return, price and shares in the three panels and their product in
    the market-cap panel. *)
Theorem record_round_trip (data : list record) (s : StockData) (r : record) :
  StockData_init data = Ok s ->
  In r data ->
  exists t a row_r row_p row_q caps,
    nth_error (index (ret s)) t = Some (rec_date r)
    /\ nth_error (columns (ret s)) a = Some (rec_permno r)
    /\ nth_error (values (ret s)) t = Some row_r
    /\ nth_error row_r a = Some (rec_ret r)
    /\ nth_error (values (prc s)) t = Some row_p
    /\ nth_error row_p a = Some (rec_prc r)
    /\ nth_error (values (shrout s)) t = Some row_q
    /\ nth_error row_q a = Some (rec_shrout r)
    /\ nth_error (values (mktcap s)) t = Some caps
    /\ nth_error caps a = Some (nmul (rec_ret r) (rec_shrout r)).
Proof.
  intros Hinit Hin.
  pose proof (StockData_init_Ok _ _ Hinit) as (Hdup & Hr & Hp & Hq & Hm & _).
  pose proof (pivot_Ok _ _ _ Hr) as [_ Er].
  destruct (pivot_shape _ _ _ _ _ Hr Hp) as (Hip & Hcp & _).
  destruct (pivot_shape _ _ _ _ _ Hr Hq) as (Hiq & Hcq & _).
  assert (Hd : In (rec_date r) (index (ret s))).
  { rewrite Er. simpl. apply In_sort_uniq, in_map. exact Hin. }
  assert (Hc : In (rec_permno r) (columns (ret s))).
  { rewrite Er. simpl. apply In_sort_uniq, in_map. exact Hin. }
  apply In_nth_error in Hd. destruct Hd as (t & Ht).
  apply In_nth_error in Hc. destruct Hc as (a & Ha).
  assert (Htn : (t < length (index (ret s)))%nat)
    by (apply nth_error_Some; congruence).
  assert (Han : (a < length (columns (ret s)))%nat)
    by (apply nth_error_Some; congruence).
  destruct (pivot_cell _ _ _ t a Hr Htn Han) as (row_r & Htr & Har).
  destruct (pivot_cell _ _ _ t a Hp) as (row_p & Htp & Hap);
    [rewrite Hip; exact Htn | rewrite Hcp; exact Han |].
  destruct (pivot_cell _ _ _ t a Hq) as (row_q & Htq & Haq);
    [rewrite Hiq; exact Htn | rewrite Hcq; exact Han |].
  rewrite Hip, Hcp in Hap. rewrite Hiq, Hcq in Haq.
  rewrite (nth_error_nth _ _ _ Ht), (nth_error_nth _ _ _ Ha) in Har, Hap, Haq.
  unfold cell in Har, Hap, Haq.
  rewrite (find_own_key data r Hdup Hin) in Har, Hap, Haq.
  exists t, a, row_r, row_p, row_q, (map2 nmul row_r row_q).
  repeat (split; [assumption|]).
  rewrite Hm. simpl. split.
  - now apply nth_error_map2_rows.
  - now apply nth_error_map2.
Qed.

Lemma record_round_trip_witness :
  exists t a row_r row_p row_q caps,
    nth_error (index (ret demo_store)) t
    = Some (rec_date (demo_record 3 2 0.00))
    /\ nth_error (columns (ret demo_store)) a
       = Some (rec_permno (demo_record 3 2 0.00))
    /\ nth_error (values (ret demo_store)) t = Some row_r
    /\ nth_error row_r a = Some (rec_ret (demo_record 3 2 0.00))
    /\ nth_error (values (prc demo_store)) t = Some row_p
    /\ nth_error row_p a = Some (rec_prc (demo_record 3 2 0.00))
    /\ nth_error (values (shrout demo_store)) t = Some row_q
    /\ nth_error row_q a = Some (rec_shrout (demo_record 3 2 0.00))
    /\ nth_error (values (mktcap demo_store)) t = Some caps
    /\ nth_error caps a
       = Some (nmul (rec_ret (demo_record 3 2 0.00))
                    (rec_shrout (demo_record 3 2 0.00))).
Proof.
  apply (record_round_trip demo_records demo_store (demo_record 3 2 0.00)).
  - reflexivity.
  - simpl. auto 10.
Defined.

Lemma has_duplicate_key_spec (data : list record) :
  has_duplicate_key data = true <-> repeated_key data.
Proof.
  unfold repeated_key. induction data as [|x data IH]; simpl.
  - split; [discriminate|]. intros (i & j & r1 & r2 & _ & H & _).
    destruct i; discriminate.
  - rewrite orb_true_iff, existsb_exists, IH. split.
    + intros [(r & Hin & Hk)|(i & j & r1 & r2 & Hij & H1 & H2 & Hd & Hp)].
      * apply In_nth_error in Hin. destruct Hin as (j & Hj).
        unfold same_key in Hk. apply andb_prop in Hk.
        destruct Hk as [Hd Hp]. apply Z.eqb_eq in Hd, Hp.
        exists 0%nat, (S j), x, r. simpl. repeat split; auto; lia.
      * exists (S i), (S j), r1, r2. simpl. repeat split; auto. lia.
    + intros (i & j & r1 & r2 & Hij & H1 & H2 & Hd & Hp).
      destruct j as [|j]; [lia|]. simpl in H2.
      destruct i as [|i]; simpl in H1.
      * left. injection H1 as ->. exists r2. split.
        -- eapply nth_error_In; eauto.
        -- unfold same_key. rewrite Hd, Hp. now rewrite !Z.eqb_refl.
      * right. exists i, j, r1, r2. repeat split; auto. lia.
Qed.

(** X18.  The constructor fails on one kind of input only: it raises
    [ValueError] exactly when two records share their date and asset id,
    raises nothing else, and builds the store in every other case. *)
Theorem constructor_failure (data : list record) :
  (StockData_init data = Raise ValueError <-> repeated_key data)
  /\ (forall e, StockData_init data = Raise e -> e = ValueError)
  /\ ((exists s, StockData_init data = Ok s) <-> ~ repeated_key data).
Proof.
  rewrite <- has_duplicate_key_spec.
  unfold StockData_init, pivot.
  destruct (has_duplicate_key data); cbn [bind].
  - split; [tauto|]. split.
    + now intros e [= <-].
    + split; [intros [s H]; discriminate | intros H; exfalso; auto].
  - split; [split; discriminate|]. split; [discriminate|].
    split; [discriminate | eauto].
Qed.

(** ** The tables of the loop *)

(** X19.  The tables the loop ends with have the shape they started with:
    the weight table carries the row and column labels of the return panel
    and is a full rectangle, and the return table has one entry per
    date. *)
Theorem tables_keep_their_shape (data : list record) (s : StockData)
    (pf : Z -> res vec) (start : Z) (tc : num) :
  StockData_init data = Ok s ->
  solver_ready s pf start ->
  exists st,
    rebalance_tables s pf start tc = Ok st
    /\ index (df_weight st) = index (ret s)
    /\ columns (df_weight st) = columns (ret s)
    /\ rectangular (df_weight st)
    /\ rf_index (pf_ret st) = index (ret s)
    /\ length (pf_value (pf_ret st)) = length (index (ret s)).
Proof.
  intros Hinit Hready.
  pose proof (StockData_init_well_formed _ _ Hinit) as Hwf.
  eexists. split; [apply rebalance_tables_closed_form; assumption|].
  cbn [df_weight pf_ret index columns values rf_index pf_value].
  repeat (split; [reflexivity|]).
  split; [|split; [reflexivity | now rewrite length_map, length_seq]].
  unfold rectangular. cbn [index columns values].
  split; [now rewrite length_map, length_seq|].
  rewrite Forall_forall. intros r Hr. apply in_map_iff in Hr.
  destruct Hr as (t & <- & Ht). apply in_seq in Ht.
  apply length_stored_weight; auto. lia.
Qed.

Lemma tables_keep_their_shape_witness :
  exists st,
    rebalance_tables demo_store (value_weight demo_store) 2 (Fin 0.01) = Ok st
    /\ index (df_weight st) = index (ret demo_store)
    /\ columns (df_weight st) = columns (ret demo_store)
    /\ rectangular (df_weight st)
    /\ rf_index (pf_ret st) = index (ret demo_store)
    /\ length (pf_value (pf_ret st)) = length (index (ret demo_store)).
Proof.
  apply (tables_keep_their_shape demo_records demo_store
           (value_weight demo_store) 2 (Fin 0.01)).
  - reflexivity.
  - solve_ready.
Defined.

(** ** The radicand of the objectives *)

Lemma map_nth_seq {A B : Type} (g : A -> B) (l : list A) (d : A) :
  map (fun j => g (nth j l d)) (seq 0 (length l)) = map g l.
Proof.
  induction l as [|a l IH]; [reflexivity|].
  cbn [length seq map nth]. f_equal.
  rewrite <- seq_shift, map_map. exact IH.
Qed.

Lemma nth_map_Fin (r : list Q) (j : nat) :
  (j < length r)%nat -> nth j (map Fin r) NaN = Fin (nth j r 0).
Proof.
  revert j. induction r as [|a r IH]; intros [|j] H; simpl in *; try lia;
    auto.
  apply IH. lia.
Qed.

Lemma nth_map_in_range {A B : Type} (f : A -> B) (l : list A) (j : nat)
    (d : A) (e : B) :
  (j < length l)%nat -> nth j (map f l) e = f (nth j l d).
Proof.
  revert j. induction l as [|a l IH]; intros [|j] H; simpl in *; try lia;
    auto.
  apply IH. lia.
Qed.

(** [w @ C] for the covariance matrix of finite columns. *)
Lemma vec_mat_cov_Fin (cols : list (list Q)) (w : list Q) :
  vec_mat (map Fin w) (map (map Fin) (qcov_matrix cols))
  = map Fin (map (fun cj => qdot w (map (fun ci => qcov ci cj) cols)) cols).
Proof.
  destruct cols as [|c0 rest]; [reflexivity|].
  set (cols := c0 :: rest).
  assert (Hne : qcov_matrix cols
                = map (fun cj => qcov c0 cj) cols
                  :: map (fun ci => map (fun cj => qcov ci cj) cols) rest)
    by reflexivity.
  unfold vec_mat. rewrite Hne at 1. cbn [map].
  rewrite !length_map, map_map.
  rewrite <- (map_nth_seq
                (fun cj => Fin (qdot w (map (fun ci => qcov ci cj) cols)))
                cols []).
  apply map_ext_in. intros j Hj. apply in_seq in Hj.
  unfold column, qcov_matrix. rewrite !map_map.
  rewrite <- dot_Fin. f_equal. rewrite map_map. apply map_ext. intros ci.
  rewrite nth_map_Fin by (rewrite length_map; lia).
  f_equal. apply nth_map_in_range. lia.
Qed.

(** [w' Sigma w], computed as the code does, is the squared length of the
    mix of the centred columns over [n - 1]. *)
Lemma quadratic_form_transposed (n : nat) (cols : list (list Q))
    (w : list Q) :
  Forall (fun c => length c = n) cols ->
  qdot (map (fun cj => qdot w (map (fun ci => qcov ci cj) cols)) cols) w
  == qdot (lincomb n w (map center cols)) (lincomb n w (map center cols))
     * / (inject_Z (Z.of_nat n) - 1).
Proof.
  intros Hlen.
  assert (Hc : Forall (fun a => length a = n) (map center cols)).
  { rewrite Forall_forall in *. intros a Ha. apply in_map_iff in Ha.
    destruct Ha as (c & <- & Hc). unfold center. rewrite length_map. auto. }
  set (y := lincomb n w (map center cols)).
  rewrite (qdot_map_scale
             (fun cj => qdot w (map (fun ci => qcov ci cj) cols))
             (fun cj => qdot y (center cj))
             (/ (inject_Z (Z.of_nat n) - 1))).
  - assert (E : qdot y y == qdot (map (qdot y) (map center cols)) w)
      by exact (qdot_lincomb n y w (map center cols) Hc).
    rewrite E, map_map. reflexivity.
  - intros cj Hcj. rewrite qdot_comm.
    rewrite (qdot_map_scale (fun ci => qcov ci cj)
               (fun ci => qdot (center cj) (center ci))
               (/ (inject_Z (Z.of_nat n) - 1))).
    + assert (E : qdot (center cj) y
                  == qdot (map (qdot (center cj)) (map center cols)) w)
        by exact (qdot_lincomb n (center cj) w (map center cols) Hc).
      rewrite (qdot_comm y), E, map_map. reflexivity.
    + intros ci Hci. rewrite Forall_forall in Hlen.
      rewrite qcov_center, (Hlen ci Hci), (qdot_comm (center ci)).
      reflexivity.
Qed.

(** The covariance of a finite window with at least two rows, on the
    rationals. *)
Lemma window_cov_Fin (data : list record) (s : StockData) (t : Z)
    (window : DataFrame) :
  StockData_init data = Ok s ->
  (1 <= t < Z.of_nat (length (index (ret s))))%Z ->
  get_ret_til s t = Ok window ->
  all_finite (values window) ->
  exists qcols,
    cov window = map (map Fin) (qcov_matrix qcols)
    /\ Forall (fun c => length c = (Z.to_nat t + 1)%nat) qcols
    /\ length qcols = length (columns (ret s)).
Proof.
  intros Hinit Ht Hwin Hfin.
  pose proof (StockData_init_well_formed _ _ Hinit) as Hwf.
  pose proof Hwf as (Hnd & Hdi & Hrows & Hall).
  rewrite (get_ret_til_Ok s t Hwf) in Hwin by lia.
  injection Hwin as Hwin.
  set (n := (Z.to_nat t + 1)%nat) in *.
  assert (Hcs : Forall (fun c => Forall (fun a => is_fin a = true) c
                                 /\ length c = n) (column_vectors window)).
  { unfold column_vectors. rewrite Forall_forall. intros c Hc.
    apply in_map_iff in Hc. destruct Hc as (j & <- & Hj). apply in_seq in Hj.
    destruct (column_finite (values window) (length (columns window)) j Hfin)
      as [Hf Hl]; [| lia |].
    - subst window. cbn [values columns]. rewrite Forall_forall in *.
      intros r Hr. apply Hall. eapply In_firstn_In; exact Hr.
    - split; [exact Hf|]. rewrite Hl. subst window. cbn [values].
      rewrite length_firstn. lia. }
  exists (map (map to_Q) (column_vectors window)).
  split; [apply (cov_Fin window n); [lia | exact Hcs]|].
  split.
  - rewrite Forall_forall in *. intros c Hc.
    apply in_map_iff in Hc. destruct Hc as (c' & <- & Hc').
    rewrite length_map. apply (Hcs c' Hc').
  - unfold column_vectors. rewrite !length_map, length_seq.
    subst window. reflexivity.
Qed.

(** X20.  On a window of finite returns with at least two rows, the number
    [w.T @ C @ w] whose root the objectives of the optimizer-based solvers
    divide by is finite and never negative, for every finite trial vector
    [w]: [np.sqrt] is not handed a negative number. *)
Theorem radicand_nonnegative (data : list record) (s : StockData) (t : Z)
    (window : DataFrame) (w : list Q) :
  StockData_init data = Ok s ->
  (1 <= t < Z.of_nat (length (index (ret s))))%Z ->
  get_ret_til s t = Ok window ->
  all_finite (values window) ->
  length w = length (columns (ret s)) ->
  exists q,
    dot (vec_mat (map Fin w) (cov window)) (map Fin w) = Fin q /\ 0 <= q.
Proof.
  intros Hinit Ht Hwin Hfin Hlen.
  destruct (window_cov_Fin data s t window Hinit Ht Hwin Hfin)
    as (qcols & Hcov & Hqlen & _).
  rewrite Hcov, vec_mat_cov_Fin, dot_Fin.
  eexists. split; [reflexivity|].
  rewrite (quadratic_form_transposed _ qcols w Hqlen).
  pose proof (divisor_positive (Z.to_nat t + 1) ltac:(lia)) as Hk.
  pose proof (qdot_self_nonneg
                (lincomb (Z.to_nat t + 1) w (map center qcols))) as Hy.
  nra.
Qed.

Lemma radicand_nonnegative_witness :
  exists q,
    dot (vec_mat (map Fin [0.5; 0.25; 0.25]) (cov demo_window))
        (map Fin [0.5; 0.25; 0.25]) = Fin q
    /\ 0 <= q.
Proof.
  apply (radicand_nonnegative demo_records demo_store 2 demo_window
           [0.5; 0.25; 0.25]).
  - reflexivity.
  - simpl. lia.
  - vm_compute. reflexivity.
  - repeat constructor.
  - reflexivity.
Defined.

(** ** The window of the first cursor *)

Lemma column_cov_single (a b : num) : column_cov [a] [b] = NaN.
Proof.
  destruct a as [x| | |], b as [y| | |]; try reflexivity.
  unfold column_cov. cbn [pairwise_complete notnan isnan negb andb map fst snd
                           length Nat.eqb].
  unfold of_nat, nsum, n_one. cbn [fold_left nadd nzero Z.of_nat].
  rewrite !ndiv_Fin by reflexivity.
  cbn [nsub nopp nadd nmul fold_left].
  unfold ndiv. replace (Qeq_bool (inject_Z (Z.of_nat 1) + - (1)) 0) with true
    by reflexivity.
  rewrite qsgn_zero; [reflexivity|]. field.
Qed.

(** X21.  At cursor 0 the window has a single row, and every entry of its
    covariance matrix is NaN, whatever the returns: one observation gives
    no sample covariance.  This is the covariance the window-based solvers
    work with when the backtest asks for the first cursor. *)
Theorem covariance_of_first_window (data : list record) (s : StockData) :
  StockData_init data = Ok s ->
  (0 < length (index (ret s)))%nat ->
  exists window,
    get_ret_til s 0 = Ok window
    /\ length (values window) = 1%nat
    /\ length (cov window) = length (columns (ret s))
    /\ Forall (fun row => length row = length (columns (ret s))
                          /\ Forall (fun x => x = NaN) row) (cov window).
Proof.
  intros Hinit Hn.
  pose proof (StockData_init_well_formed _ _ Hinit) as Hwf.
  pose proof Hwf as (Hnd & Hdi & Hlen & Hall).
  eexists. split; [apply get_ret_til_Ok; [assumption | lia]|].
  cbn [values]. change (Z.to_nat 0 + 1)%nat with 1%nat.
  destruct (values (ret s)) as [|row0 rows] eqn:E; [simpl in Hlen; lia|].
  cbn [firstn]. split; [reflexivity|].
  unfold cov, column_vectors. cbn [columns values].
  split; [now rewrite !length_map, length_seq|].
  rewrite Forall_forall. intros row Hrow.
  apply in_map_iff in Hrow. destruct Hrow as (ci & <- & Hci).
  split; [now rewrite !length_map, length_seq|].
  rewrite Forall_forall. intros x Hx.
  apply in_map_iff in Hx. destruct Hx as (cj & <- & Hcj).
  apply in_map_iff in Hci. destruct Hci as (i & <- & _).
  apply in_map_iff in Hcj. destruct Hcj as (j & <- & _).
  unfold column. cbn [map]. apply column_cov_single.
Qed.

Lemma covariance_of_first_window_witness :
  exists window,
    get_ret_til demo_store 0 = Ok window
    /\ length (values window) = 1%nat
    /\ length (cov window) = length (columns (ret demo_store))
    /\ Forall (fun row => length row = length (columns (ret demo_store))
                          /\ Forall (fun x => x = NaN) row) (cov window).
Proof.
  apply (covariance_of_first_window demo_records demo_store).
  - reflexivity.
  - simpl. lia.
Defined.
